(** * Reliability-based CMA-ES learner of pypuf: a shallow embedding

    Sources: [src/pypuf/learner/evolution_strategies/cmaes.py], and the
    experiment that assembles the training set of such a learner,
    [src/pypuf/experiments/experiment/reliability_based_ipuf_lower_attack.py].

    The module computes with NumPy / TensorFlow arrays of [float64].  The
    functions are embedded once, over an interface [Float64] of the float
    operations the source uses, and the interface is instantiated twice:

    - [float], Rocq's primitive binary64 numbers, on which the embedded
      functions run as the source computes.
    - [inum], "ideal floats": exact real numbers together with the IEEE
      special values (+inf, -inf, NaN).  Rounding, overflow and the sign of
      zero are not modelled; division by zero, 0/0 and the NaN-propagating
      comparisons are.

    What depends on rounding (the value of a correlation coefficient, of a
    cost, of the spread of a window) is stated for every such arithmetic,
    binary64 included, in terms of the operations the source performs, and
    no exact value or bound is derived from it.  The ideal floats serve
    where rounding does not bear on the statement: counts of small
    integers, comparisons with 0, NaN from 0/0, signs.

    A Python exception (index out of range, mismatched shapes, [max] of an
    empty sequence) is the result [None].  A two-dimensional array carries
    its number of columns next to its rows, so that arrays without rows keep
    their shape.  Sums are taken from left to right.

    Three things are outside the repository and enter as follows.  The
    optimizer ([CMA(...).search()]) is an oracle: [learn] is fed with the
    solutions of the successive runs.  The evaluation of an LTF array is a
    black box, a variable of the development.  [scipy.stats.pearsonr] and
    [scipy.stats.mode] are written out from their documented behaviour.
    In the experiment the training sets drawn from the PUF and the answers
    of the noisy PUF are oracles as well. *)

From Stdlib Require Import ZArith Reals Lra Lia List Bool Sorted.
From Stdlib Require Uint63.
From Stdlib Require Import Floats.
Close Scope float_scope.
Local Open Scope R_scope.
Local Open Scope nat_scope.
Import ListNotations.

Set Implicit Arguments.

(** ** Exceptions *)

Definition exc (A : Type) : Type := option A.

Definition raise {A : Type} : exc A := None.

Definition bind {A B : Type} (m : exc A) (k : A -> exc B) : exc B :=
  match m with
  | Some a => k a
  | None => None
  end.

Notation "x <- m ;; k" := (bind m (fun x => k))
  (at level 61, m at next level, right associativity).

(** ** The float operations used by the source *)

Class Float64 (F : Type) : Type := {
  of_Z : Z -> F;              (* conversion of an integer *)
  f_half : F;                 (* the literal 0.5 *)
  fadd : F -> F -> F;
  fsub : F -> F -> F;
  fmul : F -> F -> F;
  fdiv : F -> F -> F;
  fneg : F -> F;
  fabs : F -> F;
  fsqrt : F -> F;
  fltb : F -> F -> bool       (* x < y, false as soon as one side is NaN *)
}.

Definition f_zero {F} `{Float64 F} : F := of_Z 0.
Definition f_one {F} `{Float64 F} : F := of_Z 1.

(** [x > y] *)
Definition fgtb {F} `{Float64 F} (x y : F) : bool := fltb y x.

(** [np.array(b, dtype=np.float64)] of a boolean *)
Definition of_bool {F} `{Float64 F} (b : bool) : F :=
  if b then f_one else f_zero.

(** *** Ideal floats *)

Inductive inum : Type :=
| Fin (r : R)
| PInf
| NInf
| NaN.

Definition Rsgn (r : R) : comparison :=
  match total_order_T r 0 with
  | inleft (left _) => Lt
  | inleft (right _) => Eq
  | inright _ => Gt
  end.

Definition signed_inf (c : comparison) : inum :=
  match c with
  | Gt => PInf
  | Lt => NInf
  | Eq => NaN
  end.

Definition ineg (a : inum) : inum :=
  match a with
  | Fin x => Fin (- x)
  | PInf => NInf
  | NInf => PInf
  | NaN => NaN
  end.

Definition iadd (a b : inum) : inum :=
  match a, b with
  | NaN, _ | _, NaN => NaN
  | Fin x, Fin y => Fin (x + y)
  | PInf, NInf | NInf, PInf => NaN
  | PInf, _ | _, PInf => PInf
  | NInf, _ | _, NInf => NInf
  end.

Definition isub (a b : inum) : inum := iadd a (ineg b).

Definition imul (a b : inum) : inum :=
  match a, b with
  | NaN, _ | _, NaN => NaN
  | Fin x, Fin y => Fin (x * y)
  | Fin x, PInf | PInf, Fin x => signed_inf (Rsgn x)
  | Fin x, NInf | NInf, Fin x => signed_inf (CompOpp (Rsgn x))
  | PInf, PInf | NInf, NInf => PInf
  | PInf, NInf | NInf, PInf => NInf
  end.

Definition idiv (a b : inum) : inum :=
  match a, b with
  | NaN, _ | _, NaN => NaN
  | Fin x, Fin y =>
      match Rsgn y with
      | Eq => signed_inf (Rsgn x)          (* x/0 = +-inf, 0/0 = NaN *)
      | _ => Fin (x / y)
      end
  | Fin _, _ => Fin 0
  | PInf, Fin y => match Rsgn y with Lt => NInf | _ => PInf end
  | NInf, Fin y => match Rsgn y with Lt => PInf | _ => NInf end
  | _, _ => NaN
  end.

Definition iabs (a : inum) : inum :=
  match a with
  | Fin x => Fin (Rabs x)
  | PInf | NInf => PInf
  | NaN => NaN
  end.

Definition isqrt (a : inum) : inum :=
  match a with
  | Fin x => match Rsgn x with Lt => NaN | _ => Fin (R_sqrt.sqrt x) end
  | PInf => PInf
  | NInf | NaN => NaN
  end.

Definition iltb (a b : inum) : bool :=
  match a, b with
  | NaN, _ | _, NaN => false
  | Fin x, Fin y => if Rlt_dec x y then true else false
  | NInf, NInf | PInf, _ | _, NInf => false
  | _, _ => true
  end.

#[export] Instance inum_float64 : Float64 inum := {
  of_Z := fun z => Fin (IZR z);
  f_half := Fin (1 / 2);
  fadd := iadd;
  fsub := isub;
  fmul := imul;
  fdiv := idiv;
  fneg := ineg;
  fabs := iabs;
  fsqrt := isqrt;
  fltb := iltb
}.

(** *** Machine floats *)

Definition float_of_Z (z : Z) : float :=
  if (z <? 0)%Z
  then PrimFloat.opp (PrimFloat.of_uint63 (Uint63.of_Z (- z)))
  else PrimFloat.of_uint63 (Uint63.of_Z z).

#[export] Instance prim_float64 : Float64 float := {
  of_Z := float_of_Z;
  f_half := 0.5%float;
  fadd := PrimFloat.add;
  fsub := PrimFloat.sub;
  fmul := PrimFloat.mul;
  fdiv := PrimFloat.div;
  fneg := PrimFloat.opp;
  fabs := PrimFloat.abs;
  fsqrt := PrimFloat.sqrt;
  fltb := PrimFloat.ltb
}.

(** ** Arrays *)

(** A one-dimensional array is a list.  A two-dimensional array is the list
    of its rows with [shape[1]] kept aside; it is well formed when every row
    has that length. *)
Record ndarray2 (A : Type) : Type := Ndarray2 {
  shape1 : nat;
  rows : list (list A)
}.

Definition shape0 {A} (M : ndarray2 A) : nat := length (rows M).

Definition wf {A} (M : ndarray2 A) : Prop :=
  Forall (fun r => length r = shape1 M) (rows M).

(** [M[:, j]] *)
Definition column {A} (d : A) (M : ndarray2 A) (j : nat) : list A :=
  map (fun r => nth j r d) (rows M).

(** [M.T] *)
Definition transpose {A} (d : A) (M : ndarray2 A) : ndarray2 A :=
  {| shape1 := shape0 M; rows := map (column d M) (seq 0 (shape1 M)) |}.

Definition map2d {A B} (f : A -> B) (M : ndarray2 A) : ndarray2 B :=
  {| shape1 := shape1 M; rows := map (map f) (rows M) |}.

Definition zip_with {A B C} (f : A -> B -> C) (a : list A) (b : list B)
  : list C :=
  map (fun p => f (fst p) (snd p)) (combine a b).

(** [M[:, -1]]: an index error on an array without columns *)
Definition last_column {A} (d : A) (M : ndarray2 A) : exc (list A) :=
  match shape1 M with
  | O => raise
  | S j => Some (column d M j)
  end.

(** [l[start:]] for a Python list and any integer [start] *)
Definition slice_from {A} (start : Z) (l : list A) : list A :=
  let len := Z.of_nat (length l) in
  let s := if (start <? 0)%Z then Z.max (start + len) 0 else Z.min start len in
  skipn (Z.to_nat s) l.

(** [np.sum] of integers *)
Definition zsum (l : list Z) : Z := fold_left Z.add l 0%Z.

Section FloatArrays.
Context {F : Type} `{Float64 F}.

(** [reduce_sum] of a vector: the entries are added from left to right,
    starting from zero. *)
Definition reduce_sum (v : list F) : F := fold_left fadd v f_zero.

Definition reduce_mean (v : list F) : F :=
  fdiv (reduce_sum v) (of_Z (Z.of_nat (length v))).

(** [reduce_sum(M, axis=0)] and [reduce_mean(M, axis=0)] *)
Definition reduce_sum_axis0 (M : ndarray2 F) : list F :=
  map (fun j => reduce_sum (column f_zero M j)) (seq 0 (shape1 M)).

Definition reduce_mean_axis0 (M : ndarray2 F) : list F :=
  map (fun j => reduce_mean (column f_zero M j)) (seq 0 (shape1 M)).

Definition dot (a b : list F) : F := reduce_sum (zip_with fmul a b).

(** [tf.linalg.matmul(A, B)]: the inner dimensions have to agree *)
Definition matmul (A B : ndarray2 F) : exc (ndarray2 F) :=
  if Nat.eqb (shape1 A) (shape0 B)
  then Some {| shape1 := shape1 B;
               rows := map (fun a => map (fun j => dot a (column f_zero B j))
                                         (seq 0 (shape1 B)))
                           (rows A) |}
  else raise.

(** [tf.tensordot(v, M, axes=1)]: the length of [v] against [M.shape[0]] *)
Definition tensordot (v : list F) (M : ndarray2 F) : exc (list F) :=
  if Nat.eqb (length v) (shape0 M)
  then Some (map (fun j => dot v (column f_zero M j)) (seq 0 (shape1 M)))
  else raise.

(** [M - v] and [greater(M, v)], [v] broadcast along the rows *)
Definition sub_rows (M : ndarray2 F) (v : list F) : ndarray2 F :=
  {| shape1 := shape1 M; rows := map (fun r => zip_with fsub r v) (rows M) |}.

Definition greater_rows (M : ndarray2 F) (v : list F) : ndarray2 bool :=
  {| shape1 := shape1 M; rows := map (fun r => zip_with fgtb r v) (rows M) |}.

Definition square (a : F) : F := fmul a a.

End FloatArrays.

(** ** Reliability for PUF and MODEL *)

(** [np.array(..., dtype=np.int8)] of an integer: two's complement on 8 bits *)
Definition to_int8 (z : Z) : Z := ((z + 128) mod 256 - 128)%Z.

(** [-1 in response_bits] *)
Definition contains (z : Z) (M : ndarray2 Z) : bool :=
  existsb (existsb (Z.eqb z)) (rows M).

(** Modelled from the spec: [pypuf.tools.transform_challenge_11_to_01] is
    imported by the module and is not among the sources.  The spec says that
    the estimator "accepts either polarity and normalizes internally" to
    {0,1}; the helper is taken to map 1 to 0 and -1 to 1 and to keep every
    other value. *)
Definition transform_challenge_11_to_01 (M : ndarray2 Z) : ndarray2 Z :=
  map2d (fun z => if (z =? 1)%Z then 0%Z
                  else if (z =? -1)%Z then 1%Z else z) M.

Section Reliabilities.
Context {F : Type} `{Float64 F}.

Definition reliabilities_PUF (response_bits : ndarray2 Z) : list F :=
  let response_bits := map2d to_int8 response_bits in
  let response_bits :=
    if contains (-1) response_bits
    then transform_challenge_11_to_01 response_bits
    else response_bits in
  map (fun row =>
         fabs (fsub (fdiv (of_Z (Z.of_nat (shape1 response_bits))) (of_Z 2))
                    (of_Z (zsum row))))
      (rows response_bits).

(** [delay_diffs] has one row per candidate; the result has one row per
    challenge.  [EPSILON] is given by the only caller, [objective], as a
    vector with one entry per candidate, which [greater] broadcasts along
    the rows (the scalar default 3 is not used). *)
Definition reliabilities_MODEL (delay_diffs : ndarray2 F) (EPSILON : list F)
  : ndarray2 bool :=
  greater_rows (transpose f_zero (map2d fabs delay_diffs)) EPSILON.

Definition tf_pearsonr (x : ndarray2 F) (y : list F) : exc (list F) :=
  let centered_x := sub_rows x (reduce_mean_axis0 x) in
  let centered_y := map (fun a => fsub a (reduce_mean y)) y in
  cov_xy <- tensordot centered_y centered_x ;;
  let auto_cov :=
    map (fun s => fsqrt (fmul s (reduce_sum (map square centered_y))))
        (reduce_sum_axis0 (map2d square centered_x)) in
  let corr := zip_with fdiv cov_xy auto_cov in
  Some corr.

(** [scipy.stats.pearsonr(x, y)[0]], a library function outside the
    repository, by its documented contract: a [ValueError] when the lengths
    differ or are below 2, otherwise the sample correlation coefficient
    sum((x - mx) (y - my)) / sqrt(sum((x - mx)^2) sum((y - my)^2)), which is
    NaN for a constant input. *)
Definition pearson_coefficient (x y : list F) : F :=
  let xm := map (fun a => fsub a (reduce_mean x)) x in
  let ym := map (fun a => fsub a (reduce_mean y)) y in
  fdiv (dot xm ym)
       (fsqrt (fmul (reduce_sum (map square xm)) (reduce_sum (map square ym)))).

Definition pearsonr (x y : list F) : exc F :=
  if negb (Nat.eqb (length x) (length y)) then raise
  else if Nat.ltb (length x) 2 then raise
  else Some (pearson_coefficient x y).

End Reliabilities.

(** ** Learner class *)

(** A three-dimensional array of shape [(len planes, shape1_3, shape2_3)] *)
Record ndarray3 (A : Type) : Type := Ndarray3 {
  shape1_3 : nat;
  shape2_3 : nat;
  planes : list (list (list A))
}.

(** [T[:, c, :]] for an index [c >= 0] *)
Definition middle_slice {A} (T : ndarray3 A) (c : Z) : exc (ndarray2 A) :=
  if (Z.of_nat (shape1_3 T) <=? c)%Z then raise
  else Some {| shape1 := shape2_3 T;
               rows := map (fun pl => nth (Z.to_nat c) pl []) (planes T) |}.

(** [l[:stop]] for any integer [stop] *)
Definition slice_to {A} (stop : Z) (l : list A) : list A :=
  let len := Z.of_nat (length l) in
  let s := if (stop <? 0)%Z then Z.max (stop + len) 0 else Z.min stop len in
  firstn (Z.to_nat s) l.

(** [M[:, :stop]] *)
Definition columns_to {A} (stop : Z) (M : ndarray2 A) : ndarray2 A :=
  {| shape1 := length (slice_to stop (repeat tt (shape1 M)));
     rows := map (slice_to stop) (rows M) |}.

(** [np.array(pool)] for a list of one-dimensional arrays *)
Definition np_array {A} (pool : list (list A)) : ndarray2 A :=
  {| shape1 := length (hd [] pool); rows := pool |}.

(** The training set: the challenges and the repeated responses, one row
    per challenge.  (Its [instance] is only read by [print_accs].) *)
Record TrainingSet : Type := {
  challenges : ndarray2 Z;
  responses : ndarray2 Z
}.

(** The largest and the smallest item as the builtins [max] and [min] find
    them: the first item is kept until a later one compares greater
    (smaller); a [ValueError] on an empty sequence. *)
Definition py_max {F} `{Float64 F} (l : list F) : exc F :=
  match l with
  | [] => raise
  | a :: l' => Some (fold_left (fun m x => if fgtb x m then x else m) l' a)
  end.

Definition py_min {F} `{Float64 F} (l : list F) : exc F :=
  match l with
  | [] => raise
  | a :: l' => Some (fold_left (fun m x => if fltb x m then x else m) l' a)
  end.

(** [scipy.stats.mode(row)[0]]: the most frequent value, the smallest one
    among several *)
Definition mode (row : list Z) : Z :=
  fold_left (fun best v =>
               let cv := count_occ Z.eq_dec row v in
               let cb := count_occ Z.eq_dec row best in
               if Nat.ltb cb cv then v
               else if Nat.eqb cb cv && (v <? best)%Z then v else best)
            row (hd 0%Z row).

(** [a == b] for two vectors: entry by entry when they have one length; a
    vector with a single entry is compared with every entry of the other
    one (broadcasting).  On other lengths NumPy raises a [ValueError]
    (before version 1.25 it gave the scalar [False] with a warning
    instead). *)
Definition np_equal (a b : list Z) : exc (list bool) :=
  if Nat.eqb (length a) (length b) then Some (zip_with Z.eqb a b)
  else match a, b with
       | [x], _ => Some (map (Z.eqb x) b)
       | _, [y] => Some (map (fun x => Z.eqb x y) a)
       | _, _ => raise
       end.

Section Learner.
Context {F : Type} `{Float64 F}.

Definition transform_t : Type := ndarray2 Z -> Z -> exc (ndarray3 Z).
Definition combiner_t : Type := ndarray2 F -> list F.

Record LTFArray : Type := {
  weight_array : ndarray2 F;
  ltf_transform : transform_t;
  ltf_combiner : combiner_t
}.

(** The attributes of the learner.  [current_challenges] does not exist
    before [learn] sets it.  Of the generator [prng] only the seed it was
    made from is kept: its state, which every draw advances, is not
    followed, and nothing is stated about it.  The logger is left out. *)
Record ReliabilityBasedCMAES : Type := {
  training_set : TrainingSet;
  k : Z;
  n : Z;
  transform : transform_t;
  combiner : combiner_t;
  pop_size : Z;
  abort_delta : F;
  abort_iter : Z;
  prng : Z;
  chains_learned : ndarray2 F;
  num_iterations : Z;
  num_abortions : Z;
  num_learned : Z;
  puf_reliabilities : list F;
  linearized_challenges : ndarray3 Z;
  current_challenges : option (ndarray2 F)
}.

Definition set_current_challenges (self : ReliabilityBasedCMAES)
  (c : ndarray2 F) : ReliabilityBasedCMAES :=
  {| training_set := training_set self; k := k self; n := n self;
     transform := transform self; combiner := combiner self;
     pop_size := pop_size self; abort_delta := abort_delta self;
     abort_iter := abort_iter self; prng := prng self;
     chains_learned := chains_learned self;
     num_iterations := num_iterations self;
     num_abortions := num_abortions self; num_learned := num_learned self;
     puf_reliabilities := puf_reliabilities self;
     linearized_challenges := linearized_challenges self;
     current_challenges := Some c |}.

(** [np.zeros((k, n))]: a [ValueError] on a negative dimension *)
Definition np_zeros (k n : Z) : exc (ndarray2 F) :=
  if ((k <? 0) || (n <? 0))%Z then raise
  else Some {| shape1 := Z.to_nat n;
               rows := repeat (repeat f_zero (Z.to_nat n)) (Z.to_nat k) |}.

(** [np.random.RandomState(seed)] for an integer seed: a [ValueError]
    unless [0 <= seed < 2**32] *)
Definition RandomState (seed : Z) : exc Z :=
  if ((seed <? 0) || (2 ^ 32 <=? seed))%Z then raise else Some seed.

Definition __init__ (training_set : TrainingSet) (k n : Z)
  (transform : transform_t) (combiner : combiner_t)
  (pop_size : Z) (abort_delta : F) (abort_iter : Z) (random_seed : Z)
  : exc ReliabilityBasedCMAES :=
  prng <- RandomState random_seed ;;
  chains_learned <- np_zeros k n ;;
  let puf_reliabilities := reliabilities_PUF (responses training_set) in
  linearized_challenges <- transform (challenges training_set) k ;;
  Some {| training_set := training_set; k := k; n := n;
          transform := transform; combiner := combiner;
          pop_size := pop_size; abort_delta := abort_delta;
          abort_iter := abort_iter; prng := prng;
          chains_learned := chains_learned;
          num_iterations := 0; num_abortions := 0; num_learned := 0;
          puf_reliabilities := puf_reliabilities;
          linearized_challenges := linearized_challenges;
          current_challenges := None |}.

(** [es_fit_hist] is [es.fit.hist], the history of the best cost of each
    generation, a list kept by the optimizer. *)
Definition is_iteration_stagnated (self : ReliabilityBasedCMAES)
  (es_fit_hist : list F) : exc bool :=
  let fun_history := slice_from (- abort_iter self) es_fit_hist in
  if Nat.ltb (length es_fit_hist) 100 then Some false
  else
    hi <- py_max fun_history ;;
    lo <- py_min fun_history ;;
    if fltb (fabs (fsub hi lo)) (abort_delta self) then Some true
    else Some false.

Definition objective (self : ReliabilityBasedCMAES) (state : ndarray2 F)
  : exc (list F) :=
  let weights := columns_to (n self) state in
  epsilon <- last_column f_zero state ;;
  current <- current_challenges self ;;
  delay_diffs <- matmul weights (transpose f_zero current) ;;
  let model_reliabilities := reliabilities_MODEL delay_diffs epsilon in
  let x := map2d of_bool model_reliabilities in
  let y := puf_reliabilities self in
  corr <- tf_pearsonr x y ;;
  Some (map (fun c => fabs (fsub f_one c)) corr).

(** The evaluation of an LTF array on challenges is the black box
    [LTFArray_eval]. *)
Section TestModel.
Variable LTFArray_eval : LTFArray -> ndarray2 Z -> list Z.

(** [Y_true] is the majority vote per challenge.  The code compares it
    with the predictions without any check of their number, so a single
    prediction is compared with every vote; the mean of the comparison is
    the number of agreements over the number of comparisons. *)
Definition test_model (self : ReliabilityBasedCMAES) (model : LTFArray)
  : exc F :=
  let Y_true := map mode (rows (responses (training_set self))) in
  let Y_test := LTFArray_eval model (challenges (training_set self)) in
  agree <- np_equal Y_true Y_test ;;
  Some (fdiv (of_Z (Z.of_nat (length (filter (fun b => b) agree))))
             (of_Z (Z.of_nat (length agree)))).

(** [w = -w if w[0] < 0 else w]: an index error on an empty vector *)
Definition flip_chain (w : list F) : exc (list F) :=
  match w with
  | [] => raise
  | w0 :: _ => Some (if fltb w0 f_zero then map fneg w else w)
  end.

(** The [for v in pool: ... break] loop: [true] when it left with [break] *)
Fixpoint correlated_to_pool (w : list F) (pool : list (list F)) : exc bool :=
  match pool with
  | [] => Some false
  | v :: pool' =>
      r <- pearsonr w v ;;
      if fgtb (fabs r) f_half then Some true
      else correlated_to_pool w pool'
  end.

(** The state of the [while] loop *)
Record learn_state : Type := {
  self_ : ReliabilityBasedCMAES;
  pool : list (list F);
  n_chain : Z
}.

(** One pass through the body of the [while] loop.  [best] is the solution
    the external optimizer [CMA(...).search()] returns in this pass.  The
    options (a seed drawn from [self.prng], the stagnation callback) are
    built and handed to nobody, and the initial state drawn from
    [self.prng] reaches the optimizer only: neither appears here.  The two
    draws advance the generator [self.prng] in every pass; its state is not
    part of the embedding (see [ReliabilityBasedCMAES]). *)
Definition learn_body (s : learn_state) (best : list F) : exc learn_state :=
  current <- middle_slice (linearized_challenges (self_ s)) (n_chain s) ;;
  let self' := set_current_challenges (self_ s) (map2d of_Z current) in
  let w := slice_to (-1) best in
  w <- flip_chain w ;;
  found <- correlated_to_pool w (pool s) ;;
  if found
  then Some {| self_ := self'; pool := pool s; n_chain := n_chain s |}
  else Some {| self_ := self'; pool := pool s ++ [w];
               n_chain := (n_chain s + 1)%Z |}.

(** The [while] loop, fed with the solutions of the successive optimizer
    runs.  The loop has no bound of its own: when the solutions run out
    before [k] chains were accepted the result is [Some None]. *)
Fixpoint learn_loop (s : learn_state) (searches : list (list F))
  : exc (option learn_state) :=
  if (n_chain s <? k (self_ s))%Z then
    match searches with
    | [] => Some None
    | best :: searches' =>
        s' <- learn_body s best ;;
        learn_loop s' searches'
    end
  else Some (Some s).

(** The code after the loop, from the final pool *)
Definition learn_finish (self : ReliabilityBasedCMAES) (pool : list (list F))
  : exc LTFArray :=
  let model := {| weight_array := np_array pool;
                  ltf_transform := transform self;
                  ltf_combiner := combiner self |} in
  acc <- test_model self model ;;
  if fltb acc f_half then
    match pool with
    | [] => raise
    | first :: others =>
        let pool := map fneg first :: others in
        Some {| weight_array := np_array pool;
                ltf_transform := transform self;
                ltf_combiner := combiner self |}
    end
  else Some model.

Definition learn (self : ReliabilityBasedCMAES) (searches : list (list F))
  : exc (option LTFArray) :=
  r <- learn_loop {| self_ := self; pool := []; n_chain := 0 |} searches ;;
  match r with
  | None => Some None
  | Some s => model <- learn_finish (self_ s) (pool s) ;; Some (Some model)
  end.

End TestModel.
End Learner.

Arguments combiner_t : clear implicits.
Arguments LTFArray : clear implicits.
Arguments ReliabilityBasedCMAES : clear implicits.
Arguments learn_state : clear implicits.

(** ** The attack on the lower PUF of an Interpose PUF

    The experiment [reliability_based_ipuf_lower_attack] assembles the
    training set of a reliability-based learner.  The class [TrainingSet]
    and the simulation [InterposePUF] are outside the sources: the training
    sets the experiment draws and the answers of the noisy PUF are given to
    the functions below. *)

(** [l[mask]] for a boolean mask *)
Fixpoint select {A} (l : list A) (mask : list bool) : list A :=
  match l, mask with
  | x :: l', b :: mask' =>
      if b then x :: select l' mask' else select l' mask'
  | _, _ => []
  end.

(** [M[mask]]: an [IndexError] unless the mask has one entry per row *)
Definition mask_rows {A} (M : ndarray2 A) (mask : list bool)
  : exc (ndarray2 A) :=
  if Nat.eqb (length mask) (shape0 M)
  then Some {| shape1 := shape1 M; rows := select (rows M) mask |}
  else raise.

(** [M[:stop, :]] *)
Definition rows_to {A} (stop : Z) (M : ndarray2 A) : ndarray2 A :=
  {| shape1 := shape1 M; rows := slice_to stop (rows M) |}.

(** [np.vstack((M, N))]: a [ValueError] unless the rows have one length *)
Definition vstack {A} (M N : ndarray2 A) : exc (ndarray2 A) :=
  if Nat.eqb (shape1 M) (shape1 N)
  then Some {| shape1 := shape1 M; rows := rows M ++ rows N |}
  else raise.

(** [M[:, j] *= -1] for any integer [j]: an [IndexError] outside
    [-shape[1] <= j < shape[1]] *)
Definition negate_column (M : ndarray2 Z) (j : Z) : exc (ndarray2 Z) :=
  let c := Z.of_nat (shape1 M) in
  if ((j <? - c) || (c <=? j))%Z then raise
  else
    let i := Z.to_nat (if (j <? 0)%Z then j + c else j) in
    Some {| shape1 := shape1 M;
            rows := map (fun r => firstn i r
                                  ++ match skipn i r with
                                     | [] => []
                                     | x :: r' => (x * -1)%Z :: r'
                                     end)
                        (rows M) |}.

(** [M[:, i] = v] for [i >= 0]: an [IndexError] from [shape[1]] on, a
    [ValueError] unless [v] has one entry per row or a single entry, which
    is then broadcast *)
Definition set_column {A} (M : ndarray2 A) (i : nat) (v : list A)
  : exc (ndarray2 A) :=
  if Nat.leb (shape1 M) i then raise
  else
    let put := fun r x => firstn i r ++ x :: skipn (S i) r in
    if Nat.eqb (length v) (shape0 M)
    then Some {| shape1 := shape1 M; rows := zip_with put (rows M) v |}
    else match v with
         | [x] => Some {| shape1 := shape1 M;
                          rows := map (fun r => put r x) (rows M) |}
         | _ => raise
         end.

(** [np.insert(M, pos, v, axis=1)] for an integer [pos]: an [IndexError]
    outside [-shape[1] <= pos <= shape[1]] *)
Definition np_insert {A} (M : ndarray2 A) (pos : Z) (v : A)
  : exc (ndarray2 A) :=
  let c := Z.of_nat (shape1 M) in
  if ((pos <? - c) || (c <? pos))%Z then raise
  else
    let i := Z.to_nat (if (pos <? 0)%Z then pos + c else pos) in
    Some {| shape1 := S (shape1 M);
            rows := map (fun r => firstn i r ++ v :: skipn i r) (rows M) |}.

Section Experiment.
Context {F : Type} `{Float64 F}.

(** [np.mean(responses, axis=1)] adds the entries of a row as floats and
    divides by [shape[1]]. *)
Definition isUnreliable (responses : ndarray2 Z) : list bool :=
  map (fun row =>
         fltb (fabs (fdiv (reduce_sum (map of_Z row))
                          (of_Z (Z.of_nat (shape1 responses)))))
              f_half)
      (rows responses).

(** [n] and [reps] are [self.parameters.n] and [self.parameters.reps];
    [ts] is the training set drawn from the PUF, and [ipuf_eval i] is the
    answer of the noisy PUF [self.ipuf.eval] in pass [i] of the loop. *)
Definition generate_unreliable_challenges_for_lower_puf (n reps : Z)
  (ts : TrainingSet) (ipuf_eval : nat -> ndarray2 Z -> list Z)
  : exc (ndarray2 Z * ndarray2 Z) :=
  let resps := map2d to_int8 (responses ts) in
  let unrels := isUnreliable resps in
  unrel_chals <- mask_rows (challenges ts) unrels ;;
  unrel_resps <- mask_rows (responses ts) unrels ;;
  flipped_chals <- negate_column unrel_chals (n / 2 - 1) ;;
  flipped_chals <- negate_column flipped_chals (n / 2) ;;
  selected <- mask_rows resps unrels ;;
  let flipped_resps :=
    {| shape1 := shape1 selected;
       rows := repeat (repeat 0%Z (shape1 selected)) (shape0 selected) |} in
  flipped_resps <-
    fold_left (fun acc i =>
                 flipped_resps <- acc ;;
                 set_column flipped_resps i (ipuf_eval i flipped_chals))
              (seq 0 (Z.to_nat reps)) (Some flipped_resps) ;;
  let flipped_rels := map negb (isUnreliable flipped_resps) in
  candidate_chals <- mask_rows unrel_chals flipped_rels ;;
  candidate_resps <- mask_rows unrel_resps flipped_rels ;;
  Some (candidate_chals, candidate_resps).

(** The state of the [while] loop of
    [generate_reliable_challenges_for_IPUF] *)
Record reliable_state : Type := {
  chal_count : Z;
  candidate_chals : option (ndarray2 Z);
  candidate_resps : option (ndarray2 Z)
}.

(** One pass through the body of the loop, on the training set [ts] drawn
    in this pass.  (The candidates are [None] only as long as [chal_count]
    is 0; stacking onto [None] is taken to raise.) *)
Definition reliable_body (num_chals : Z) (st : reliable_state)
  (ts : TrainingSet) : exc reliable_state :=
  let resps := map2d to_int8 (responses ts) in
  let rels := map negb (isUnreliable resps) in
  rel_chals <- mask_rows (challenges ts) rels ;;
  rel_resps <- mask_rows (responses ts) rels ;;
  if (chal_count st =? 0)%Z then
    Some {| chal_count := chal_count st + Z.of_nat (shape0 rel_chals);
            candidate_chals := Some (rows_to num_chals rel_chals);
            candidate_resps := Some (rows_to num_chals rel_resps) |}
  else
    old_chals <- candidate_chals st ;;
    new_chals <-
      vstack old_chals (rows_to (num_chals - chal_count st) rel_chals) ;;
    old_resps <- candidate_resps st ;;
    new_resps <-
      vstack old_resps (rows_to (num_chals - chal_count st) rel_resps) ;;
    Some {| chal_count := chal_count st + Z.of_nat (shape0 rel_chals);
            candidate_chals := Some new_chals;
            candidate_resps := Some new_resps |}.

(** The loop, fed with the training sets of the successive passes.  It has
    no bound of its own: when the training sets run out before it leaves,
    the result is [Some None]. *)
Fixpoint reliable_loop (num_chals : Z) (st : reliable_state)
  (batches : list TrainingSet) : exc (option reliable_state) :=
  if (chal_count st <=? num_chals)%Z then
    match batches with
    | [] => Some None
    | ts :: batches' =>
        st' <- reliable_body num_chals st ts ;;
        reliable_loop num_chals st' batches'
    end
  else Some (Some st).

Definition generate_reliable_challenges_for_IPUF (num_chals : Z)
  (batches : list TrainingSet)
  : exc (option (option (ndarray2 Z) * option (ndarray2 Z))) :=
  r <- reliable_loop num_chals
         {| chal_count := 0; candidate_chals := None;
            candidate_resps := None |} batches ;;
  Some (option_map (fun st => (candidate_chals st, candidate_resps st)) r).

(** The training set [self.ts] that [run] builds when there is no cache
    file.  [interpose_pos] is [self.ipuf.interpose_pos].  The object made
    by [TrainingSet(self.instance, 1, ...)] only carries the members that
    are assigned afterwards. *)
Definition run_training_set (n reps interpose_pos : Z) (ts : TrainingSet)
  (ipuf_eval : nat -> ndarray2 Z -> list Z) (batches : list TrainingSet)
  : exc (option TrainingSet) :=
  unrel <- generate_unreliable_challenges_for_lower_puf n reps ts ipuf_eval ;;
  let unrel_chals := fst unrel in
  let unrel_resps := snd unrel in
  let rel_size := (Z.of_nat (shape0 unrel_chals) * 4)%Z in
  rel <- generate_reliable_challenges_for_IPUF rel_size batches ;;
  match rel with
  | None => Some None
  | Some (rel_chals, rel_resps) =>
      rel_chals <- rel_chals ;;
      training_chals <- vstack unrel_chals rel_chals ;;
      rel_resps <- rel_resps ;;
      training_resps <- vstack unrel_resps rel_resps ;;
      tc1 <- np_insert training_chals interpose_pos 1%Z ;;
      tc2 <- np_insert training_chals interpose_pos (-1)%Z ;;
      tc <- vstack tc1 tc2 ;;
      training_resps <- vstack training_resps training_resps ;;
      Some (Some {| challenges := tc; responses := training_resps |})
  end.

End Experiment.

(** ** Specification-level notions *)

(** *** Response matrices *)

(** The two encodings of response bits *)
Definition encoded_01 (M : ndarray2 Z) : Prop :=
  Forall (Forall (fun z => z = 0%Z \/ z = 1%Z)) (rows M).

Definition encoded_pm1 (M : ndarray2 Z) : Prop :=
  Forall (Forall (fun z => z = 1%Z \/ z = (-1)%Z)) (rows M).

(** How often [z] is measured in a row *)
Definition occurrences (z : Z) (row : list Z) : nat :=
  count_occ Z.eq_dec row z.

(** All entries of a vector agree: all repetitions of a challenge give the
    same response, a vector is constant *)
Definition all_agree {A} (row : list A) : Prop :=
  forall a b, In a row -> In b row -> a = b.

(** The two response values are measured equally often: as many 1 as 0
    (encoding {0,1}) or as -1 (encoding {+1,-1}) *)
Definition split_evenly (row : list Z) : Prop :=
  occurrences 1 row = occurrences 0 row + occurrences (-1) row.

(** [|m/2 - s|] *)
Definition deviation (m : nat) (s : nat) : R := Rabs (INR m / 2 - INR s).

(** *** Cost histories *)

(** The last [w] entries of a history (all of them when it holds fewer):
    the most recent ones, the history being in the order of the
    generations *)
Definition recent {A} (w : Z) (h : list A) : list A :=
  skipn (length h - Z.to_nat w) h.

Definition Rmaximum (l : list R) : R :=
  match l with
  | [] => 0%R
  | a :: l' => fold_left Rmax l' a
  end.

Definition Rminimum (l : list R) : R :=
  match l with
  | [] => 0%R
  | a :: l' => fold_left Rmin l' a
  end.

(** Maximum minus minimum *)
Definition spread (l : list R) : R := (Rmaximum l - Rminimum l)%R.

(** [x < y] for a real [x] and a float [y] *)
Definition below (x : R) (y : inum) : Prop :=
  match y with
  | Fin d => (x < d)%R
  | PInf => True
  | NInf | NaN => False
  end.

(** Every entry is strictly smaller than all the entries before it *)
Definition strictly_decreasing (h : list R) : Prop :=
  StronglySorted Rgt h.

(** *** Signs *)

(** [0 <= a] and [0 < a] for a float *)
Definition nonnegative (a : inum) : Prop :=
  match a with
  | Fin x => (0 <= x)%R
  | PInf => True
  | NInf | NaN => False
  end.

Definition positive (a : inum) : Prop :=
  match a with
  | Fin x => (0 < x)%R
  | PInf => True
  | NInf | NaN => False
  end.

(** *** Candidates *)

Section CandidateView.
Context {F : Type} `{Float64 F}.

(** The model reliability indicator vector of one candidate
    [cand = weights ++ [epsilon]] with [n] weights: for every challenge [c],
    whether [|weights . c| > epsilon], as 1.0 or 0.0 *)
Definition indicator_bits (n : nat) (C : ndarray2 F) (cand : list F)
  : list bool :=
  map (fun c => fgtb (fabs (dot (firstn n cand) c)) (nth n cand f_zero))
      (rows C).

Definition model_indicator (n : nat) (C : ndarray2 F) (cand : list F)
  : list F :=
  map of_bool (indicator_bits n C cand).

(** What [tf_pearsonr] computes for one column [xs] of its first argument *)
Definition tf_coefficient (xs ys : list F) : F :=
  let cx := map (fun a => fsub a (reduce_mean xs)) xs in
  let cy := map (fun a => fsub a (reduce_mean ys)) ys in
  fdiv (dot cy cx)
       (fsqrt (fmul (reduce_sum (map square cx)) (reduce_sum (map square cy)))).

End CandidateView.

(** *** The Pearson correlation coefficient of two real vectors *)

Definition Rsum (l : list R) : R := fold_right Rplus 0%R l.

Definition Rmean (l : list R) : R := (Rsum l / INR (length l))%R.

Definition centered (l : list R) : list R := map (fun a => (a - Rmean l)%R) l.

Definition sum_squares (l : list R) : R := Rsum (map (fun a => (a * a)%R) l).

(** [n] times the variance *)
Definition variation (l : list R) : R := sum_squares (centered l).

Definition covariation (x y : list R) : R :=
  Rsum (zip_with Rmult (centered x) (centered y)).

Definition pearson (x y : list R) : R :=
  (covariation x y / R_sqrt.sqrt (variation x * variation y))%R.

Definition R_of_bool (b : bool) : R := if b then 1%R else 0%R.

(** *** The pool and the loop *)

Section PoolInvariant.
Context {F : Type} `{Float64 F}.

(** The absolute correlation of two chains is computed and does not exceed
    0.5 *)
Definition apart (v w : list F) : Prop :=
  exists r : F, pearsonr v w = Some r /\ fgtb (fabs r) f_half = false.

(** No two distinct members of the pool have an absolute correlation above
    0.5 *)
Definition uncorrelated (pool : list (list F)) : Prop :=
  forall (i j : nat) (v w : list F),
    i <> j -> nth_error pool i = Some v -> nth_error pool j = Some w ->
    apart v w.

(** The states of the [while] loop of [learn]: the state it starts from,
    and every state a pass of the body leads to, whatever solution the
    optimizer returns in that pass *)
Inductive learn_reaches (s0 : learn_state F) : learn_state F -> Prop :=
| reaches_start : learn_reaches s0 s0
| reaches_pass (s s' : learn_state F) (best : list F) :
    learn_reaches s0 s ->
    (n_chain s <? k (self_ s))%Z = true ->
    learn_body s best = Some s' ->
    learn_reaches s0 s'.

End PoolInvariant.

(** ** Concrete inputs *)

(** Three challenges measured four times: full agreement, an even split,
    three against one *)
Definition example_responses : ndarray2 Z :=
  {| shape1 := 4;
     rows := [[1; 1; 1; 1]; [1; -1; -1; 1]; [-1; -1; -1; 1]]%Z |}.

(** A learner that only carries the two stagnation parameters *)
Definition stagnation_learner (abort_iter : Z) (abort_delta : inum)
  : ReliabilityBasedCMAES inum :=
  {| training_set := {| challenges := {| shape1 := 0; rows := [] |};
                        responses := {| shape1 := 0; rows := [] |} |};
     k := 0; n := 0;
     transform := fun _ _ => raise;
     combiner := fun _ => [];
     pop_size := 0; abort_delta := abort_delta; abort_iter := abort_iter;
     prng := 0;
     chains_learned := {| shape1 := 0; rows := [] |};
     num_iterations := 0; num_abortions := 0; num_learned := 0;
     puf_reliabilities := [];
     linearized_challenges :=
       {| shape1_3 := 0; shape2_3 := 0; planes := [] |};
     current_challenges := None |}.

(** 101 costs, each smaller by one thousandth than the one before:
    0.2, 0.199, ..., 0.1 *)
Definition improving_history : list R :=
  map (fun i => (IZR (200 - Z.of_nat i) / 1000)%R) (seq 0 101).

(** Two challenges of two bits, three measurements each *)
Definition example_training_set : TrainingSet :=
  {| challenges := {| shape1 := 2; rows := [[1; 1]; [1; -1]]%Z |};
     responses := {| shape1 := 3; rows := [[1; 1; 1]; [-1; -1; 1]]%Z |} |}.

(** The transform that hands every chain the challenges as they are *)
Definition example_transform : transform_t :=
  fun C k =>
    Some {| shape1_3 := Z.to_nat k; shape2_3 := shape1 C;
            planes := map (fun c => repeat c (Z.to_nat k)) (rows C) |}.

Definition example_combiner {F} : combiner_t F := fun _ => [].

(** A model evaluation whose answers never agree with a measurement *)
Definition example_eval : LTFArray float -> ndarray2 Z -> list Z :=
  fun _ C => map (fun _ => 0%Z) (rows C).

Definition example_learner : exc (ReliabilityBasedCMAES float) :=
  __init__ example_training_set 1 2 example_transform example_combiner
           10 0.125%float 10 42.

(** The solution of the only optimizer run: weights (-1, 2), epsilon 2 *)
Definition example_searches : list (list float) :=
  [[(-1)%float; 2%float; 2%float]].

(** A learner in the middle of [learn], with [current_challenges] set to the
    challenges of the example; [seed] and [pop] fill attributes the
    objective has no use for. *)
Definition objective_learner {F} `{Float64 F} (seed pop : Z)
  : ReliabilityBasedCMAES F :=
  {| training_set := example_training_set;
     k := 1; n := 2;
     transform := example_transform;
     combiner := example_combiner;
     pop_size := pop; abort_delta := f_half; abort_iter := 10;
     prng := seed;
     chains_learned := {| shape1 := 2; rows := [[f_zero; f_zero]] |};
     num_iterations := seed; num_abortions := 0; num_learned := pop;
     puf_reliabilities := reliabilities_PUF (responses example_training_set);
     linearized_challenges :=
       {| shape1_3 := 1; shape2_3 := 2;
          planes := [[[1; 1]]; [[1; -1]]]%Z |};
     current_challenges :=
       Some (map2d of_Z (challenges example_training_set)) |}.

(** Three candidates (w1, w2, epsilon): (1, 1, 1), (1, -1, 1), (0, 0, 1) *)
Definition objective_state {F} `{Float64 F} : ndarray2 F :=
  map2d of_Z {| shape1 := 3; rows := [[1; 1; 1]; [1; -1; 1]; [0; 0; 1]]%Z |}.

(** A training set with two challenges and the measurements of one *)
Definition mismatched_training_set : TrainingSet :=
  {| challenges := {| shape1 := 2; rows := [[1; 1]; [1; -1]]%Z |};
     responses := {| shape1 := 3; rows := [[1; -1; 1]]%Z |} |}.

(** A learner with [k = 2] and [n = 3], and the solutions of three
    optimizer runs: (1, 0, -1 | 2), (-2, 0, 2 | 2) and (1, -2, 1 | 2) *)
Definition two_chain_learner : ReliabilityBasedCMAES float :=
  {| training_set := example_training_set;
     k := 2; n := 3;
     transform := example_transform;
     combiner := example_combiner;
     pop_size := 10; abort_delta := 0.125%float; abort_iter := 10;
     prng := 42;
     chains_learned :=
       {| shape1 := 3; rows := repeat (repeat 0%float 3%nat) 2%nat |};
     num_iterations := 0; num_abortions := 0; num_learned := 0;
     puf_reliabilities := reliabilities_PUF (responses example_training_set);
     linearized_challenges :=
       {| shape1_3 := 2; shape2_3 := 3;
          planes := [[[1; 1; 1]; [1; 1; 1]]; [[1; -1; 1]; [1; -1; 1]]]%Z |};
     current_challenges := None |}.

Definition two_chain_searches : list (list float) :=
  [[1; 0; -1; 2]; [-2; 0; 2; 2]; [1; -2; 1; 2]]%float.

(** ** Further notions *)

(** A candidate with its [n] weights negated and its other entries kept *)
Definition negate_weights {F} `{Float64 F} (n : nat) (cand : list F)
  : list F :=
  map fneg (firstn n cand) ++ skipn n cand.

(** 100 equal costs *)
Definition flat_history : list R := repeat (1 / 10)%R 100.

(** The state of [two_chain_learner] after its first chain was accepted,
    and five optimizer runs that all find that chain again *)
Definition one_chain_state : learn_state float :=
  {| self_ := two_chain_learner; pool := [[1; 0; -1]%float]; n_chain := 1 |}.

Definition rediscoveries : list (list float) :=
  repeat [-2; 0; 2; 2]%float 5.

(** A model evaluation on ideal floats whose answers never agree with a
    measurement, and the solution (-1, 2 | 2) of one optimizer run *)
Definition ideal_eval : LTFArray inum -> ndarray2 Z -> list Z :=
  fun _ C => map (fun _ => 0%Z) (rows C).

Definition ideal_searches : list (list inum) := [map of_Z [-1; 2; 2]%Z].

(** The number of positions at which two vectors hold the same value *)
Definition agreements (a b : list Z) : nat :=
  length (filter (fun p => (fst p =? snd p)%Z) (combine a b)).

(** *** The reliable challenges of a training set *)

Section ReliableView.
Context {F : Type} `{Float64 F}.

(** The challenges of a training set that the experiment takes as
    reliable, with their responses *)
Definition reliable_mask (ts : TrainingSet) : list bool :=
  map negb (isUnreliable (map2d to_int8 (responses ts))).

Definition reliable_chals (ts : TrainingSet) : list (list Z) :=
  select (rows (challenges ts)) (reliable_mask ts).

Definition reliable_resps (ts : TrainingSet) : list (list Z) :=
  select (rows (responses ts)) (reliable_mask ts).

(** What the loop of [generate_reliable_challenges_for_IPUF] keeps after
    the training sets [seen]: the count of their reliable challenges and,
    once a pass was made, the first [num_chals] of them with their
    responses *)
Definition reliable_inv (num_chals : Z) (seen : list TrainingSet)
  (st : reliable_state) : Prop :=
  chal_count st = Z.of_nat (length (flat_map reliable_chals seen)) /\
  length (flat_map reliable_resps seen)
  = length (flat_map reliable_chals seen) /\
  (seen <> [] ->
   exists c r : ndarray2 Z,
     candidate_chals st = Some c /\ candidate_resps st = Some r /\
     rows c = firstn (Z.to_nat num_chals) (flat_map reliable_chals seen) /\
     rows r = firstn (Z.to_nat num_chals) (flat_map reliable_resps seen)).

(** Training sets of one shape: as many challenges as rows of responses,
    [cC] challenge bits and [cR] measurements *)
Definition consistent (cC cR : nat) (ts : TrainingSet) : Prop :=
  shape0 (challenges ts) = shape0 (responses ts) /\
  shape1 (challenges ts) = cC /\ shape1 (responses ts) = cR.

End ReliableView.

(** Three challenges measured four times: the first and the third are
    reliable *)
Definition example_batch : TrainingSet :=
  {| challenges := {| shape1 := 2; rows := [[1; 1]; [1; -1]; [-1; 1]]%Z |};
     responses :=
       {| shape1 := 4;
          rows := [[1; 1; 1; 1]; [1; -1; 1; -1]; [-1; -1; -1; 1]]%Z |} |}.

(** The mask that selects with [inner] among the entries selected by
    [outer] *)
Fixpoint compose_mask (outer inner : list bool) : list bool :=
  match outer with
  | [] => []
  | false :: outer' => false :: compose_mask outer' inner
  | true :: outer' =>
      match inner with
      | [] => false :: compose_mask outer' []
      | b :: inner' => b :: compose_mask outer' inner'
      end
  end.

(** A noiseless PUF that answers 1 to every challenge *)
Definition example_ipuf_eval : nat -> ndarray2 Z -> list Z :=
  fun _ C => map (fun _ => 1%Z) (rows C).

(** The training set that [run] builds from [example_batch] for an
    interpose position 1: one candidate and four reliable challenges, each
    with the bit 1 and with the bit -1 at position 1 *)
Definition example_run_set : TrainingSet :=
  {| challenges :=
       {| shape1 := 3;
          rows := [[1; 1; -1]; [1; 1; 1]; [-1; 1; 1]; [1; 1; 1]; [-1; 1; 1];
                   [1; -1; -1]; [1; -1; 1]; [-1; -1; 1]; [1; -1; 1];
                   [-1; -1; 1]]%Z |};
     responses :=
       {| shape1 := 4;
          rows := [[1; -1; 1; -1]; [1; 1; 1; 1]; [-1; -1; -1; 1];
                   [1; 1; 1; 1]; [-1; -1; -1; 1];
                   [1; -1; 1; -1]; [1; 1; 1; 1]; [-1; -1; -1; 1];
                   [1; 1; 1; 1]; [-1; -1; -1; 1]]%Z |} |}.

(** Three challenges measured four times, in {0,1}: always 0, an even
    split, always 1 *)
Definition example_bits01 : ndarray2 Z :=
  {| shape1 := 4;
     rows := [[0; 0; 0; 0]; [1; 0; 0; 1]; [1; 1; 1; 1]]%Z |}.

(** A row of responses is unreliable as the experiment measures it: its
    entries cast to [int8], its mean taken over [m] measurements *)
Definition measured_unreliable {F} `{Float64 F} (m : nat) (row : list Z)
  : bool :=
  fltb (fabs (fdiv (reduce_sum (map of_Z (map to_int8 row)))
                   (of_Z (Z.of_nat m))))
       f_half.

(** The learner of the example with [n = -1] in place of [n = 2]: on a
    population with three columns [state[:, :-1]] is [state[:, :2]]. *)
Definition objective_learner_back {F} `{Float64 F} (seed pop : Z)
  : ReliabilityBasedCMAES F :=
  {| training_set := example_training_set;
     k := 1; n := -1;
     transform := example_transform;
     combiner := example_combiner;
     pop_size := pop; abort_delta := f_half; abort_iter := 10;
     prng := seed;
     chains_learned := {| shape1 := 2; rows := [[f_zero; f_zero]] |};
     num_iterations := seed; num_abortions := 0; num_learned := pop;
     puf_reliabilities := reliabilities_PUF (responses example_training_set);
     linearized_challenges :=
       {| shape1_3 := 1; shape2_3 := 2;
          planes := [[[1; 1]]; [[1; -1]]]%Z |};
     current_challenges :=
       Some (map2d of_Z (challenges example_training_set)) |}.

(** *** The order of the costs *)

Section FloatOrder.
Context {F : Type} `{Float64 F}.

(** The comparison [<] is a strict order: it holds of no number and
    itself, and it is transitive.  (So it is for binary64 numbers and for
    ideal floats, NaN included, which compares below and above nothing.) *)
Definition strict_order : Prop :=
  (forall a : F, fltb a a = false) /\
  (forall a b c : F, fltb a b = true -> fltb b c = true -> fltb a c = true).

(** An entry of [w] that no entry of [w] compares greater than, and one
    that no entry compares less than *)
Definition greatest (w : list F) (hi : F) : Prop :=
  In hi w /\ Forall (fun x => fltb hi x = false) w.

Definition least (w : list F) (lo : F) : Prop :=
  In lo w /\ Forall (fun x => fltb x lo = false) w.

(** Every cost compares below the one before it *)
Fixpoint improving (h : list F) : bool :=
  match h with
  | [] => true
  | a :: t =>
      match t with
      | [] => true
      | b :: _ => fltb b a && improving t
      end
  end.

End FloatOrder.

(** A learner on binary64 numbers that only carries the two stagnation
    parameters *)
Definition float_stagnation_learner (abort_iter : Z) (abort_delta : float)
  : ReliabilityBasedCMAES float :=
  {| training_set := {| challenges := {| shape1 := 0; rows := [] |};
                        responses := {| shape1 := 0; rows := [] |} |};
     k := 0; n := 0;
     transform := fun _ _ => raise;
     combiner := fun _ => [];
     pop_size := 0; abort_delta := abort_delta; abort_iter := abort_iter;
     prng := 0;
     chains_learned := {| shape1 := 0; rows := [] |};
     num_iterations := 0; num_abortions := 0; num_learned := 0;
     puf_reliabilities := [];
     linearized_challenges :=
       {| shape1_3 := 0; shape2_3 := 0; planes := [] |};
     current_challenges := None |}.

(** 100 costs in binary64: 99 times 1, then 2^-60.  The spread of the last
    two, 1 - 2^-60, is below 1; the difference computed in binary64 is 1. *)
Definition rounded_history : list float :=
  repeat 1%float 99 ++ [0x1p-60%float].

(** The same costs as exact numbers *)
Definition exact_history : list R :=
  repeat 1%R 99 ++ [(/ 2 ^ 60)%R].

(** 101 costs in binary64, each smaller by one than the one before:
    200, 199, ..., 100 *)
Definition float_improving_history : list float :=
  map (fun i => of_Z (200 - Z.of_nat i)) (seq 0 101).

(** A column (0, 0, 1) and a vector (2.5, 2.5, 0) in binary64: exactly
    anticorrelated, and a coefficient computed as -1.0000000000000002 *)
Definition rounding_matrix : ndarray2 float :=
  {| shape1 := 1; rows := [[0]; [0]; [1]]%float |}.

Definition rounding_vector : list float := [2.5; 2.5; 0]%float.

(** * Properties *)

(** ** Ideal floats: evaluation lemmas *)

Lemma Rsgn_pos (r : R) : (0 < r)%R -> Rsgn r = Gt.
Proof.
  intros Hr. unfold Rsgn.
  destruct (total_order_T r 0) as [[Hlt | Heq] | Hgt]; trivial; lra.
Qed.

Lemma Rsgn_neg (r : R) : (r < 0)%R -> Rsgn r = Lt.
Proof.
  intros Hr. unfold Rsgn.
  destruct (total_order_T r 0) as [[Hlt | Heq] | Hgt]; trivial; lra.
Qed.

Lemma Rsgn_zero : Rsgn 0 = Eq.
Proof.
  unfold Rsgn.
  destruct (total_order_T 0 0) as [[Hlt | Heq] | Hgt]; trivial; lra.
Qed.

Lemma Rsgn_Eq_inv (r : R) : Rsgn r = Eq -> r = 0%R.
Proof.
  unfold Rsgn.
  destruct (total_order_T r 0) as [[Hlt | Heq] | Hgt]; congruence.
Qed.

Lemma Rsgn_opp (r : R) : Rsgn (- r) = CompOpp (Rsgn r).
Proof.
  destruct (total_order_T r 0) as [[Hlt | Heq] | Hgt].
  - rewrite (Rsgn_neg Hlt), Rsgn_pos; trivial; lra.
  - subst r. rewrite Ropp_0, Rsgn_zero. reflexivity.
  - rewrite (Rsgn_pos Hgt), Rsgn_neg; trivial; lra.
Qed.

Lemma idiv_Fin (x y : R) : y <> 0%R -> idiv (Fin x) (Fin y) = Fin (x / y).
Proof.
  intros Hy. simpl. destruct (Rsgn y) eqn:E; trivial.
  apply Rsgn_Eq_inv in E. contradiction.
Qed.

Lemma idiv_zero_zero : idiv (Fin 0) (Fin 0) = NaN.
Proof. simpl. rewrite Rsgn_zero. reflexivity. Qed.

Lemma iltb_Fin_true (x y : R) : (x < y)%R -> iltb (Fin x) (Fin y) = true.
Proof. intros Hxy. simpl. destruct (Rlt_dec x y); trivial; lra. Qed.

Lemma iltb_Fin_false (x y : R) : (y <= x)%R -> iltb (Fin x) (Fin y) = false.
Proof. intros Hxy. simpl. destruct (Rlt_dec x y); trivial; lra. Qed.

(** ** The reliability of the PUF *)

Lemma zsum_acc (l : list Z) (a : Z) :
  fold_left Z.add l a = (a + zsum l)%Z.
Proof.
  unfold zsum. revert a.
  induction l as [| z l IH]; intros a; simpl.
  - lia.
  - rewrite IH, (IH z). lia.
Qed.

Lemma zsum_cons (z : Z) (l : list Z) : zsum (z :: l) = (z + zsum l)%Z.
Proof. unfold zsum at 1. simpl. rewrite zsum_acc. lia. Qed.

Ltac count_step :=
  cbn [count_occ length map];
  repeat match goal with
         | |- context [Z.eq_dec ?a ?b] => destruct (Z.eq_dec a b); try lia
         end.

Lemma zsum_01 (row : list Z) :
  Forall (fun z => z = 0%Z \/ z = 1%Z) row ->
  zsum row = Z.of_nat (occurrences 1 row) /\
  length row = occurrences 0 row + occurrences 1 row.
Proof.
  unfold occurrences.
  induction 1 as [| z row [Hz | Hz] _ [IHs IHl]]; [split; reflexivity | |];
    subst z; rewrite zsum_cons; count_step; rewrite IHs; split; lia.
Qed.

Lemma length_pm1 (row : list Z) :
  Forall (fun z => z = 1%Z \/ z = (-1)%Z) row ->
  length row = occurrences 1 row + occurrences (-1) row.
Proof.
  unfold occurrences.
  induction 1 as [| z row [Hz | Hz] _ IH]; [reflexivity | |];
    subst z; count_step.
Qed.

Lemma zsum_transformed (row : list Z) :
  Forall (fun z => z = 1%Z \/ z = (-1)%Z) row ->
  zsum (map (fun z => if (z =? 1)%Z then 0%Z
                      else if (z =? -1)%Z then 1%Z else z) row)
  = Z.of_nat (occurrences (-1) row).
Proof.
  unfold occurrences.
  induction 1 as [| z row [Hz | Hz] _ IH]; [reflexivity | |];
    subst z; cbn [map]; rewrite zsum_cons, IH; count_step;
    change (1 =? 1)%Z with true; change (-1 =? 1)%Z with false;
    change (-1 =? -1)%Z with true; cbv iota; lia.
Qed.

Lemma zsum_all_one (row : list Z) :
  Forall (fun z => z = 1%Z \/ z = (-1)%Z) row ->
  existsb (Z.eqb (-1)) row = false ->
  zsum row = Z.of_nat (length row) /\ occurrences (-1) row = 0.
Proof.
  unfold occurrences.
  induction 1 as [| z row [Hz | Hz] _ IH]; [split; reflexivity | |];
    subst z; simpl; intros Hex; try discriminate.
  destruct (IH Hex) as [IHs IHc].
  rewrite zsum_cons, IHs. count_step. split; lia.
Qed.

Lemma to_int8_small (M : ndarray2 Z) :
  Forall (Forall (fun z => (-1 <= z <= 1)%Z)) (rows M) ->
  map2d to_int8 M = M.
Proof.
  destruct M as [m rs]. unfold map2d. simpl. intros Hrs. f_equal.
  induction Hrs as [| row rs Hrow _ IH]; simpl; [reflexivity |].
  rewrite IH. f_equal.
  induction Hrow as [| z row Hz _ IHrow]; simpl; [reflexivity |].
  rewrite IHrow. f_equal.
  unfold to_int8. rewrite Z.mod_small; lia.
Qed.

Lemma contains_false_01 (M : ndarray2 Z) :
  encoded_01 M -> contains (-1) M = false.
Proof.
  unfold encoded_01, contains.
  induction 1 as [| row rs Hrow _ IH]; simpl; [reflexivity |].
  rewrite IH, orb_false_r.
  induction Hrow as [| z row [Hz | Hz] _ IHrow]; simpl; trivial;
    subst z; simpl; exact IHrow.
Qed.

Lemma deviation_value (m s : nat) :
  fabs (fsub (fdiv (of_Z (Z.of_nat m)) (of_Z 2)) (of_Z (Z.of_nat s)))
  = Fin (deviation m s).
Proof.
  simpl. rewrite Rsgn_pos by lra. simpl. unfold deviation.
  rewrite <- !INR_IZR_INZ. reflexivity.
Qed.

Lemma encoded_small (M : ndarray2 Z) :
  encoded_01 M \/ encoded_pm1 M ->
  Forall (Forall (fun z => (-1 <= z <= 1)%Z)) (rows M).
Proof.
  intros [HM | HM]; (eapply Forall_impl; [| exact HM]);
    intros row Hrow; (eapply Forall_impl; [| exact Hrow]);
    intros z [Hz | Hz]; lia.
Qed.

Lemma reliabilities_PUF_01 (M : ndarray2 Z) :
  encoded_01 M ->
  reliabilities_PUF M
  = map (fun row => Fin (deviation (shape1 M) (occurrences 1 row))) (rows M).
Proof.
  intros HM. unfold reliabilities_PUF.
  rewrite to_int8_small by (apply encoded_small; now left).
  rewrite (contains_false_01 HM).
  apply map_ext_in. intros row Hrow.
  unfold encoded_01 in HM. rewrite Forall_forall in HM.
  destruct (zsum_01 (HM row Hrow)) as [Hs _].
  rewrite Hs. apply deviation_value.
Qed.

Lemma deviation_mirror (m a b : nat) :
  m = a + b -> deviation m a = deviation m b.
Proof.
  intros ->. unfold deviation. rewrite plus_INR.
  replace (((INR a + INR b) / 2 - INR a)%R)
    with ((- ((INR a + INR b) / 2 - INR b))%R) by lra.
  apply Rabs_Ropp.
Qed.

Lemma contains_false_row (M : ndarray2 Z) (row : list Z) :
  contains (-1) M = false -> In row (rows M) ->
  existsb (Z.eqb (-1)) row = false.
Proof.
  unfold contains. intros Hc Hrow.
  destruct (existsb (Z.eqb (-1)) row) eqn:E; trivial.
  assert (Ht : existsb (existsb (Z.eqb (-1))) (rows M) = true)
    by (apply existsb_exists; eauto).
  congruence.
Qed.

Lemma reliabilities_PUF_pm1 (M : ndarray2 Z) :
  wf M -> encoded_pm1 M ->
  reliabilities_PUF M
  = map (fun row => Fin (deviation (shape1 M) (occurrences (-1) row)))
        (rows M).
Proof.
  intros Hwf HM. unfold reliabilities_PUF.
  rewrite to_int8_small by (apply encoded_small; now right).
  unfold encoded_pm1 in HM. rewrite Forall_forall in HM.
  unfold wf in Hwf. rewrite Forall_forall in Hwf.
  destruct (contains (-1) M) eqn:Hc.
  - unfold transform_challenge_11_to_01, map2d. cbn [rows shape1].
    rewrite map_map. apply map_ext_in. intros row Hrow.
    rewrite (zsum_transformed (HM row Hrow)). apply deviation_value.
  - apply map_ext_in. intros row Hrow.
    destruct (zsum_all_one (HM row Hrow) (contains_false_row M row Hc Hrow))
      as [Hs Hz].
    rewrite Hs, Hz, deviation_value, (Hwf row Hrow). f_equal.
    apply deviation_mirror. lia.
Qed.

Lemma occurrences_all_agree (row : list Z) (z : Z) :
  all_agree row -> occurrences z row = 0 \/ occurrences z row = length row.
Proof.
  intros Hall. unfold occurrences.
  destruct (in_dec Z.eq_dec z row) as [Hin | Hnin].
  - right.
    assert (Heq : forall a, In a row -> a = z)
      by (intros a Ha; now apply Hall).
    clear Hall Hin. induction row as [| a row IH]; [reflexivity |].
    cbn [count_occ length].
    rewrite (Heq a) by (now left).
    destruct (Z.eq_dec z z) as [_ | Hne]; [| contradiction].
    f_equal. apply IH. intros b Hb. apply Heq. now right.
  - left. now apply count_occ_not_In.
Qed.

Lemma deviation_bounds (m s : nat) :
  s <= m -> (0 <= deviation m s <= INR m / 2)%R.
Proof.
  intros Hs. apply le_INR in Hs. pose proof (pos_INR s) as Hp.
  unfold deviation. split; [apply Rabs_pos |].
  apply Rabs_le. lra.
Qed.

Lemma deviation_extreme (m s : nat) :
  s = 0 \/ s = m -> deviation m s = (INR m / 2)%R.
Proof.
  pose proof (pos_INR m) as Hp. unfold deviation.
  intros [-> | ->]; simpl INR.
  - rewrite Rabs_right; lra.
  - rewrite Rabs_left1; lra.
Qed.

Lemma deviation_half (a : nat) : deviation (a + a) a = 0%R.
Proof.
  unfold deviation. rewrite plus_INR.
  replace (((INR a + INR a) / 2 - INR a)%R) with 0%R by lra.
  apply Rabs_R0.
Qed.

Lemma occurrences_le_length (z : Z) (row : list Z) :
  occurrences z row <= length row.
Proof. apply count_occ_bound. Qed.

Lemma occurrences_absent (z : Z) (row : list Z) (P : Z -> Prop) :
  Forall P row -> ~ P z -> occurrences z row = 0.
Proof.
  intros HP Hz. apply count_occ_not_In. intros Hin.
  rewrite Forall_forall in HP. auto.
Qed.

(** C6. On a well-formed response matrix with [m] columns the estimator
    returns, challenge by challenge, [|m/2 - s|] where [s] is the sum of the
    responses normalized to {0,1}: the row sum itself for an input in {0,1},
    the number of -1 (equivalently, of +1) for an input in {+1,-1}.  The
    value lies between 0 and [m/2]; it is [m/2] on a row whose measurements
    all agree and 0 on a row split evenly between the two values. *)
Theorem reliabilities_PUF_correct (M : ndarray2 Z) :
  wf M ->
  (encoded_01 M ->
   reliabilities_PUF M
   = map (fun row => Fin (Rabs (INR (shape1 M) / 2 - IZR (zsum row))))
         (rows M)) /\
  (encoded_pm1 M ->
   reliabilities_PUF M
   = map (fun row => Fin (deviation (shape1 M) (occurrences (-1) row)))
         (rows M) /\
   reliabilities_PUF M
   = map (fun row => Fin (deviation (shape1 M) (occurrences 1 row)))
         (rows M)) /\
  (encoded_01 M \/ encoded_pm1 M ->
   forall i row, nth_error (rows M) i = Some row ->
   exists v : R,
     nth_error (reliabilities_PUF (F := inum) M) i = Some (Fin v) /\
     (0 <= v <= INR (shape1 M) / 2)%R /\
     (all_agree row -> v = (INR (shape1 M) / 2)%R) /\
     (split_evenly row -> v = 0%R)).
Proof.
  intros Hwf.
  assert (Hlen : forall row, In row (rows M) -> length row = shape1 M)
    by (apply Forall_forall; exact Hwf).
  assert (Hpm : encoded_pm1 M ->
                reliabilities_PUF M
                = map (fun row =>
                         Fin (deviation (shape1 M) (occurrences 1 row)))
                      (rows M)).
  { intros HM. rewrite (reliabilities_PUF_pm1 Hwf HM).
    apply map_ext_in. intros row Hrow. f_equal. symmetry.
    apply deviation_mirror. rewrite <- (Hlen row Hrow).
    apply length_pm1. unfold encoded_pm1 in HM.
    rewrite Forall_forall in HM. auto. }
  split; [| split].
  - intros HM. rewrite (reliabilities_PUF_01 HM).
    apply map_ext_in. intros row Hrow.
    unfold encoded_01 in HM. rewrite Forall_forall in HM.
    destruct (zsum_01 (HM row Hrow)) as [-> _].
    unfold deviation. now rewrite <- INR_IZR_INZ.
  - intros HM. split; [now apply reliabilities_PUF_pm1 | now apply Hpm].
  - intros Henc i row Hi.
    assert (Hrow : In row (rows M)) by (eapply nth_error_In; eauto).
    exists (deviation (shape1 M) (occurrences 1 row)).
    assert (Hocc : occurrences 1 row <= shape1 M)
      by (rewrite <- (Hlen row Hrow); apply occurrences_le_length).
    split; [| split; [| split]].
    + assert (Heq : reliabilities_PUF M
                    = map (fun row =>
                             Fin (deviation (shape1 M) (occurrences 1 row)))
                          (rows M))
        by (destruct Henc; [now apply reliabilities_PUF_01 | now apply Hpm]).
      rewrite Heq, nth_error_map, Hi. reflexivity.
    + now apply deviation_bounds.
    + intros Hall. apply deviation_extreme.
      rewrite <- (Hlen row Hrow). now apply occurrences_all_agree.
    + unfold split_evenly. intros Hsplit.
      assert (Hm : shape1 M = occurrences 1 row + occurrences 1 row).
      { rewrite <- (Hlen row Hrow).
        destruct Henc as [HM | HM]; unfold encoded_01, encoded_pm1 in HM;
          rewrite Forall_forall in HM; specialize (HM row Hrow).
        - rewrite (occurrences_absent (-1) HM) in Hsplit by lia.
          destruct (zsum_01 HM) as [_ Hl]. lia.
        - rewrite (occurrences_absent 0 HM) in Hsplit by lia.
          rewrite (length_pm1 HM). lia. }
      rewrite Hm at 1. apply deviation_half.
Qed.

Lemma reliabilities_PUF_correct_witness :
  wf example_responses /\
  encoded_pm1 example_responses /\
  reliabilities_PUF (F := inum) example_responses
  = map (fun row => Fin (deviation 4 (occurrences (-1) row)))
        (rows example_responses).
Proof.
  assert (Hwf : wf example_responses) by (repeat constructor).
  assert (Henc : encoded_pm1 example_responses)
    by (repeat constructor; auto).
  split; [exact Hwf | split; [exact Henc |]].
  exact (proj1 (proj1 (proj2 (reliabilities_PUF_correct Hwf)) Henc)).
Defined.

(** ** The stagnation rule *)

Section Stagnation.
Local Open Scope R_scope.

Lemma fold_max_Fin (l : list R) (a : R) :
  fold_left (fun m x => if fgtb x m then x else m) (map Fin l) (Fin a)
  = Fin (fold_left Rmax l a).
Proof.
  revert a. induction l as [| x l IH]; intros a; simpl; [reflexivity |].
  destruct (Rlt_dec a x) as [Hlt | Hge].
  - rewrite IH, Rmax_right by lra. reflexivity.
  - rewrite IH, Rmax_left by lra. reflexivity.
Qed.

Lemma fold_min_Fin (l : list R) (a : R) :
  fold_left (fun m x => if fltb x m then x else m) (map Fin l) (Fin a)
  = Fin (fold_left Rmin l a).
Proof.
  revert a. induction l as [| x l IH]; intros a; simpl; [reflexivity |].
  destruct (Rlt_dec x a) as [Hlt | Hge].
  - rewrite IH, Rmin_right by lra. reflexivity.
  - rewrite IH, Rmin_left by lra. reflexivity.
Qed.

Lemma py_max_Fin (l : list R) :
  l <> [] -> py_max (map Fin l) = Some (Fin (Rmaximum l)).
Proof.
  destruct l as [| a l]; [congruence | intros _].
  simpl. now rewrite fold_max_Fin.
Qed.

Lemma py_min_Fin (l : list R) :
  l <> [] -> py_min (map Fin l) = Some (Fin (Rminimum l)).
Proof.
  destruct l as [| a l]; [congruence | intros _].
  simpl. now rewrite fold_min_Fin.
Qed.

Lemma fold_max_ge (l : list R) (a : R) : a <= fold_left Rmax l a.
Proof.
  revert a. induction l as [| x l IH]; intros a; simpl; [lra |].
  eapply Rle_trans; [apply (Rmax_l a x) | apply IH].
Qed.

Lemma fold_min_le (l : list R) (a : R) : fold_left Rmin l a <= a.
Proof.
  revert a. induction l as [| x l IH]; intros a; simpl; [lra |].
  eapply Rle_trans; [apply IH | apply Rmin_l].
Qed.

Lemma spread_nonneg (l : list R) : 0 <= spread l.
Proof.
  unfold spread. destruct l as [| a l]; simpl; [lra |].
  pose proof (fold_max_ge l a). pose proof (fold_min_le l a). lra.
Qed.

Lemma fold_max_bound (l : list R) (a : R) :
  Forall (fun x => x <= fold_left Rmax l a) l.
Proof.
  revert a. induction l as [| x l IH]; intros a; constructor.
  - simpl. eapply Rle_trans; [apply (Rmax_r a x) | apply fold_max_ge].
  - apply IH.
Qed.

Lemma fold_max_In (l : list R) (a : R) : In (fold_left Rmax l a) (a :: l).
Proof.
  revert a. induction l as [| x l IH]; intros a; [now left |].
  cbn [fold_left]. destruct (IH (Rmax a x)) as [Heq | Hin].
  - rewrite <- Heq. unfold Rmax. destruct (Rle_dec a x); simpl; auto.
  - right. now right.
Qed.

Lemma fold_min_bound (l : list R) (a : R) :
  Forall (fun x => fold_left Rmin l a <= x) l.
Proof.
  revert a. induction l as [| x l IH]; intros a; constructor.
  - simpl. eapply Rle_trans; [apply fold_min_le | apply (Rmin_r a x)].
  - apply IH.
Qed.

Lemma fold_min_In (l : list R) (a : R) : In (fold_left Rmin l a) (a :: l).
Proof.
  revert a. induction l as [| x l IH]; intros a; [now left |].
  cbn [fold_left]. destruct (IH (Rmin a x)) as [Heq | Hin].
  - rewrite <- Heq. unfold Rmin. destruct (Rle_dec a x); simpl; auto.
  - right. now right.
Qed.

(** [Rmaximum] and [Rminimum] are the largest and the smallest entry *)
Lemma Rmaximum_greatest (l : list R) :
  l <> [] ->
  In (Rmaximum l) l /\ Forall (fun x => x <= Rmaximum l) l.
Proof.
  destruct l as [| a l]; [congruence | intros _]. cbn [Rmaximum].
  split; [apply fold_max_In |].
  constructor; [apply fold_max_ge | apply fold_max_bound].
Qed.

Lemma Rminimum_least (l : list R) :
  l <> [] ->
  In (Rminimum l) l /\ Forall (fun x => Rminimum l <= x) l.
Proof.
  destruct l as [| a l]; [congruence | intros _]. cbn [Rminimum].
  split; [apply fold_min_In |].
  constructor; [apply fold_min_le | apply fold_min_bound].
Qed.

Lemma iltb_below (x : R) (y : inum) : iltb (Fin x) y = true <-> below x y.
Proof.
  destruct y as [d | | |]; simpl; try (split; [discriminate | tauto]).
  - destruct (Rlt_dec x d); split; trivial; try discriminate; tauto.
  - tauto.
Qed.

Lemma slice_from_recent {A} (w : Z) (h : list A) :
  (1 <= w)%Z -> slice_from (- w) h = recent w h.
Proof.
  intros Hw. unfold slice_from, recent.
  replace (- w <? 0)%Z with true by (symmetry; apply Z.ltb_lt; lia).
  f_equal. lia.
Qed.

Lemma recent_nonempty {A} (w : Z) (h : list A) :
  (1 <= w)%Z -> h <> [] -> recent w h <> [].
Proof.
  intros Hw Hh Hr. apply (f_equal (@length A)) in Hr.
  destruct h as [| a h]; [congruence |].
  unfold recent in Hr. rewrite length_skipn in Hr. cbn [length] in Hr. lia.
Qed.

Lemma recent_map {A B} (f : A -> B) (w : Z) (h : list A) :
  recent w (map f h) = map f (recent w h).
Proof. unfold recent. now rewrite skipn_map, length_map. Qed.

(** The value of the predicate on a history of finite costs *)
Lemma is_iteration_stagnated_short (self : ReliabilityBasedCMAES inum)
  (h : list inum) :
  (length h < 100)%nat -> is_iteration_stagnated self h = Some false.
Proof.
  intros Hlen. unfold is_iteration_stagnated.
  now replace (length h <? 100)%nat with true
    by (symmetry; apply Nat.ltb_lt; exact Hlen).
Qed.

Lemma is_iteration_stagnated_long (self : ReliabilityBasedCMAES inum)
  (h : list R) :
  (1 <= abort_iter self)%Z -> (100 <= length h)%nat ->
  is_iteration_stagnated self (map Fin h)
  = Some (iltb (Fin (spread (recent (abort_iter self) h)))
               (abort_delta self)).
Proof.
  intros Hw Hlen. unfold is_iteration_stagnated.
  rewrite length_map.
  replace (length h <? 100)%nat with false
    by (symmetry; apply Nat.ltb_ge; exact Hlen).
  rewrite (slice_from_recent _ Hw), recent_map.
  assert (Hne : recent (abort_iter self) h <> []).
  { apply (recent_nonempty Hw). destruct h; simpl in *; [lia | congruence]. }
  rewrite (py_max_Fin Hne), (py_min_Fin Hne). cbn [bind].
  change (fabs (fsub (Fin (Rmaximum (recent (abort_iter self) h)))
                     (Fin (Rminimum (recent (abort_iter self) h)))))
    with (Fin (Rabs (Rmaximum (recent (abort_iter self) h)
                     + - Rminimum (recent (abort_iter self) h)))).
  fold (Rminus (Rmaximum (recent (abort_iter self) h))
               (Rminimum (recent (abort_iter self) h))).
  fold (spread (recent (abort_iter self) h)).
  rewrite (Rabs_right (spread _))
    by (apply Rle_ge, spread_nonneg).
  change (@fltb inum _) with iltb.
  now destruct (iltb _ _).
Qed.

Lemma strictly_decreasing_skipn (j : nat) (h : list R) :
  strictly_decreasing h -> strictly_decreasing (skipn j h).
Proof.
  unfold strictly_decreasing. revert h.
  induction j as [| j IH]; intros h Hh; [exact Hh |].
  destruct h as [| a h]; [exact Hh |].
  simpl. apply IH. now apply StronglySorted_inv in Hh.
Qed.

Lemma fold_max_dominated (l : list R) (a : R) :
  Forall (fun x => a > x) l -> fold_left Rmax l a = a.
Proof.
  induction 1 as [| x l Hx _ IH]; simpl; [reflexivity |].
  rewrite Rmax_left by lra. exact IH.
Qed.

Lemma fold_min_decreasing (l : list R) (a : R) :
  strictly_decreasing (a :: l) -> fold_left Rmin l a = last (a :: l) 0.
Proof.
  unfold strictly_decreasing. revert a.
  induction l as [| x l IH]; intros a Hs; [reflexivity |].
  apply StronglySorted_inv in Hs. destruct Hs as [Hs Ha].
  apply Forall_inv in Ha.
  cbn [fold_left]. rewrite Rmin_right by (unfold Rgt in Ha; lra).
  rewrite (IH x Hs). reflexivity.
Qed.

Lemma spread_decreasing (l : list R) :
  strictly_decreasing l -> spread l = hd 0 l - last l 0.
Proof.
  intros Hs. unfold spread. destruct l as [| a l]; [reflexivity |].
  cbn [Rmaximum Rminimum hd].
  rewrite (fold_min_decreasing Hs), fold_max_dominated; [reflexivity |].
  now apply StronglySorted_inv in Hs.
Qed.

Lemma strictly_decreasing_map_seq (f : nat -> R) (a len : nat) :
  (forall i j, (i < j)%nat -> f j < f i) ->
  strictly_decreasing (map f (seq a len)).
Proof.
  intros Hf. unfold strictly_decreasing. revert a.
  induction len as [| len IH]; intros a; simpl; constructor; [apply IH |].
  apply Forall_forall. intros x Hx.
  apply in_map_iff in Hx. destruct Hx as [j [<- Hj]].
  apply in_seq in Hj. apply Hf. lia.
Qed.

Lemma improving_history_decreasing : strictly_decreasing improving_history.
Proof.
  apply strictly_decreasing_map_seq. intros i j Hij.
  apply Rmult_lt_compat_r; [lra |].
  apply IZR_lt. lia.
Qed.

Lemma improving_history_recent :
  recent 10 improving_history
  = map (fun i => IZR (200 - Z.of_nat i) / 1000) (seq 91 10).
Proof.
  unfold recent, improving_history.
  rewrite length_map, length_seq, skipn_map, skipn_seq. reflexivity.
Qed.

(** C5 fails as stated: the 101 costs 0.2, 0.199, ..., 0.1 improve strictly,
    yet with a window of 10 and a threshold of 0.5 the predicate returns
    [True], the improvement over the window being 0.009. *)
Lemma is_iteration_stagnated_improving_counterexample :
  strictly_decreasing improving_history /\
  (100 < length improving_history)%nat /\
  is_iteration_stagnated (stagnation_learner 10 (Fin (1 / 2)))
                         (map Fin improving_history) = Some true.
Proof.
  split; [exact improving_history_decreasing | split].
  - unfold improving_history. rewrite length_map, length_seq. lia.
  - rewrite is_iteration_stagnated_long.
    + f_equal. apply iltb_Fin_true.
      rewrite spread_decreasing
        by (apply strictly_decreasing_skipn, improving_history_decreasing).
      cbn [abort_iter stagnation_learner].
      rewrite improving_history_recent. cbn [seq map hd last].
      simpl Z.sub. lra.
    + simpl. lia.
    + unfold improving_history. rewrite length_map, length_seq. lia.
Qed.

End Stagnation.

(** ** Negation of ideal floats *)

Lemma ineg_involutive (a : inum) : ineg (ineg a) = a.
Proof. destruct a; simpl; trivial. now rewrite Ropp_involutive. Qed.

Lemma map_ineg_involutive (w : list inum) : map ineg (map ineg w) = w.
Proof.
  rewrite map_map. rewrite <- (map_id w) at 2.
  apply map_ext. exact ineg_involutive.
Qed.

Lemma iltb_zero_nonnegative (a : inum) :
  nonnegative a -> iltb a (Fin 0) = false.
Proof.
  destruct a as [x | | |]; simpl; trivial; try tauto.
  intros Hx. destruct (Rlt_dec x 0); trivial; lra.
Qed.

Lemma iltb_zero_neg_positive (a : inum) :
  positive a -> iltb (ineg a) (Fin 0) = true.
Proof.
  destruct a as [x | | |]; simpl; trivial; try tauto.
  intros Hx. destruct (Rlt_dec (- x) 0); trivial; lra.
Qed.

(** ** Sign canonicalization *)

Lemma flip_chain_not_negative (w0 : inum) (rest : list inum) :
  iltb w0 (Fin 0) = false -> flip_chain (w0 :: rest) = Some (w0 :: rest).
Proof.
  intros Hw. unfold flip_chain.
  change (fltb w0 f_zero) with (iltb w0 (Fin 0)). now rewrite Hw.
Qed.

Lemma flip_chain_negative (w0 : inum) (rest : list inum) :
  iltb w0 (Fin 0) = true ->
  flip_chain (w0 :: rest) = Some (map ineg (w0 :: rest)).
Proof.
  intros Hw. unfold flip_chain.
  change (fltb w0 f_zero) with (iltb w0 (Fin 0)). now rewrite Hw.
Qed.

Lemma iltb_zero_neg (a : inum) :
  iltb a (Fin 0) = true -> iltb (ineg a) (Fin 0) = false.
Proof.
  destruct a as [x | | |]; simpl; trivial; try discriminate.
  destruct (Rlt_dec x 0); [| discriminate]. intros _.
  destruct (Rlt_dec (- x) 0); trivial; lra.
Qed.

(** C7 (amended). Canonicalization is idempotent, and it returns unchanged
    every vector whose first element is non-negative.  Canonicalizing the
    negation of a vector returns the vector when its first element is
    strictly positive; when the first element is zero, the negation is
    returned as it is. *)
Theorem flip_chain_canonical (w0 : inum) (rest : list inum) :
  (exists w', flip_chain (w0 :: rest) = Some w' /\
              flip_chain w' = Some w') /\
  (nonnegative w0 -> flip_chain (w0 :: rest) = Some (w0 :: rest)) /\
  (positive w0 -> flip_chain (map fneg (w0 :: rest)) = Some (w0 :: rest)) /\
  (w0 = Fin 0 ->
   flip_chain (map fneg (w0 :: rest)) = Some (map fneg (w0 :: rest))).
Proof.
  split; [| split; [| split]].
  - destruct (iltb w0 (Fin 0)) eqn:E.
    + exists (map ineg (w0 :: rest)).
      split; [now apply flip_chain_negative |].
      cbn [map]. apply flip_chain_not_negative. now apply iltb_zero_neg.
    + exists (w0 :: rest).
      split; now apply flip_chain_not_negative.
  - intros Hw. apply flip_chain_not_negative.
    now apply iltb_zero_nonnegative.
  - intros Hw. change (@fneg inum _) with ineg. cbn [map].
    rewrite flip_chain_negative by (now apply iltb_zero_neg_positive).
    f_equal. apply (map_ineg_involutive (w0 :: rest)).
  - intros ->. change (@fneg inum _) with ineg. cbn [map].
    apply flip_chain_not_negative.
    apply iltb_Fin_false. lra.
Qed.

(** C7 fails as stated: the first element of [0, 1] is non-negative, and
    canonicalizing its negation [-0, -1] does not give [0, 1] back. *)
Lemma flip_chain_canonical_counterexample :
  nonnegative (Fin 0) /\
  flip_chain (map fneg [Fin 0; Fin 1]) <> Some [Fin 0; Fin 1].
Proof.
  split; [simpl; lra |].
  change (@fneg inum _) with ineg. cbn [map].
  rewrite flip_chain_not_negative by (apply iltb_Fin_false; lra).
  intros Heq. injection Heq as _ Heq. lra.
Qed.

(** ** Orientation of the assembled model *)

Section Orientation.
Context {F : Type} `{Float64 F}.
Variable LTFArray_eval : LTFArray F -> ndarray2 Z -> list Z.

Lemma learn_finish_inv (self : ReliabilityBasedCMAES F) (pool : list (list F))
  (model : LTFArray F) :
  learn_finish LTFArray_eval self pool = Some model ->
  exists acc : F,
    test_model LTFArray_eval self
               {| weight_array := np_array pool;
                  ltf_transform := transform self;
                  ltf_combiner := combiner self |} = Some acc /\
    if fltb acc f_half
    then exists first others,
        pool = first :: others /\
        rows (weight_array model) = map fneg first :: others
    else rows (weight_array model) = pool.
Proof.
  unfold learn_finish.
  destruct (test_model _ _ _) as [acc |]; [| discriminate].
  cbn [bind]. intros Hm. exists acc. split; [reflexivity |].
  destruct (fltb acc f_half).
  - destruct pool as [| first others]; [discriminate |].
    injection Hm as <-. now exists first, others.
  - now injection Hm as <-.
Qed.

(** C8. When [learn] returns a model, the loop has left a pool and the
    accuracy of the model assembled from it was measured once.  If that
    accuracy is below 0.5 the returned model holds the pool with its first
    chain negated and all other chains unchanged; otherwise it holds the
    pool unchanged.  The accuracy of the rebuilt model is not consulted, so
    no second flip takes place. *)
Theorem learn_flips_first_chain_once (self : ReliabilityBasedCMAES F)
  (searches : list (list F)) (model : LTFArray F) :
  learn LTFArray_eval self searches = Some (Some model) ->
  exists (s : learn_state F) (acc : F),
    learn_loop {| self_ := self; pool := []; n_chain := 0 |} searches
    = Some (Some s) /\
    test_model LTFArray_eval (self_ s)
               {| weight_array := np_array (pool s);
                  ltf_transform := transform (self_ s);
                  ltf_combiner := combiner (self_ s) |} = Some acc /\
    if fltb acc f_half
    then exists first others,
        pool s = first :: others /\
        rows (weight_array model) = map fneg first :: others
    else rows (weight_array model) = pool s.
Proof.
  unfold learn.
  destruct (learn_loop _ searches) as [[s |] |]; cbn [bind];
    try discriminate.
  destruct (learn_finish LTFArray_eval (self_ s) (pool s)) as [m |] eqn:Hf;
    cbn [bind]; [| discriminate].
  intros Hm. injection Hm as <-.
  destruct (learn_finish_inv _ _ Hf) as [acc [Hacc Hrows]].
  now exists s, acc.
Qed.

End Orientation.

(** The example run: one chain is learnt and stored as (1, -2); the model
    agrees with no measurement, so the chain is turned into (-1, 2), once. *)
Lemma learn_flips_first_chain_once_witness :
  exists (self : ReliabilityBasedCMAES float) (model : LTFArray float),
    example_learner = Some self /\
    learn example_eval self example_searches = Some (Some model) /\
    rows (weight_array model) = [[(-1)%float; 2%float]] /\
    exists (s : learn_state float) (acc : float),
      learn_loop {| self_ := self; pool := []; n_chain := 0 |}
                 example_searches = Some (Some s) /\
      test_model example_eval (self_ s)
                 {| weight_array := np_array (pool s);
                    ltf_transform := transform (self_ s);
                    ltf_combiner := combiner (self_ s) |} = Some acc /\
      if fltb acc f_half
      then exists first others,
          pool s = first :: others /\
          rows (weight_array model) = map fneg first :: others
      else rows (weight_array model) = pool s.
Proof.
  eexists. eexists.
  split; [reflexivity |].
  split; [reflexivity |].
  split; [reflexivity |].
  apply (learn_flips_first_chain_once example_eval _ example_searches).
  reflexivity.
Defined.

(** ** Arrays: indexing lemmas *)

Unset Implicit Arguments.

Section ArrayLemmas.
Context {A B C : Type}.

Lemma nth_zip_with (f : A -> B -> C) (a : list A) (b : list B) (i : nat)
  (da : A) (db : B) (d : C) :
  i < length a -> i < length b ->
  nth i (zip_with f a b) d = f (nth i a da) (nth i b db).
Proof.
  unfold zip_with. revert b i.
  induction a as [| x a IH]; intros [| y b] [| i]; simpl; intros Ha Hb;
    try lia; [reflexivity |].
  apply IH; lia.
Qed.

Lemma zip_with_map (f : A -> B -> C) {X : Type} (g : X -> A) (h : X -> B)
  (l : list X) :
  zip_with f (map g l) (map h l) = map (fun x => f (g x) (h x)) l.
Proof.
  unfold zip_with. induction l as [| x l IH]; simpl; [reflexivity |].
  now rewrite IH.
Qed.

Lemma length_zip_with (f : A -> B -> C) (a : list A) (b : list B) :
  length (zip_with f a b) = Nat.min (length a) (length b).
Proof. unfold zip_with. now rewrite length_map, length_combine. Qed.

Lemma nth_map_in (f : A -> B) (l : list A) (i : nat) (d : B) (d' : A) :
  i < length l -> nth i (map f l) d = f (nth i l d').
Proof.
  intros Hi. rewrite (nth_indep _ d (f d')) by (now rewrite length_map).
  apply map_nth.
Qed.

Lemma map_nth_seq (f : A -> B) (l : list A) (d : A) :
  map (fun i => f (nth i l d)) (seq 0 (length l)) = map f l.
Proof.
  induction l as [| x l IH]; [reflexivity |].
  cbn [length seq map nth]. f_equal.
  rewrite <- seq_shift, map_map. exact IH.
Qed.

End ArrayLemmas.

Lemma wf_length {A} (M : ndarray2 A) (r : list A) :
  wf M -> In r (rows M) -> length r = shape1 M.
Proof. unfold wf. rewrite Forall_forall. auto. Qed.

Lemma column_transpose {A} (d : A) (M : ndarray2 A) (j : nat) :
  wf M -> j < shape0 M ->
  column d (transpose d M) j = nth j (rows M) [].
Proof.
  intros Hwf Hj. unfold column, transpose. cbn [rows].
  rewrite map_map.
  assert (Hlen : length (nth j (rows M) []) = shape1 M)
    by (eapply wf_length; [exact Hwf | apply nth_In, Hj]).
  rewrite <- Hlen.
  transitivity (map (fun a => a) (nth j (rows M) [])); [| apply map_id].
  rewrite <- (map_nth_seq (fun a => a) (nth j (rows M) []) d).
  apply map_ext. intros i.
  unfold column.
  exact (nth_map_in (fun r => nth i r d) (rows M) j d [] Hj).
Qed.

Lemma slice_to_firstn {A} (n : nat) (l : list A) :
  slice_to (Z.of_nat n) l = firstn n l.
Proof.
  unfold slice_to.
  replace (Z.of_nat n <? 0)%Z with false by (symmetry; apply Z.ltb_ge; lia).
  destruct (Nat.le_gt_cases n (length l)) as [Hle | Hgt].
  - now rewrite Z.min_l, Nat2Z.id by lia.
  - rewrite Z.min_r, Nat2Z.id by lia.
    now rewrite firstn_all, firstn_all2 by lia.
Qed.

Lemma columns_to_firstn {A} (n : nat) (M : ndarray2 A) :
  columns_to (Z.of_nat n) M
  = {| shape1 := Nat.min n (shape1 M); rows := map (firstn n) (rows M) |}.
Proof.
  unfold columns_to. f_equal.
  - now rewrite slice_to_firstn, length_firstn, repeat_length.
  - apply map_ext. intros r. apply slice_to_firstn.
Qed.

(** ** The objective, candidate by candidate *)

Section ObjectiveValue.
Context {F : Type} `{Float64 F}.

Lemma column_sub_rows (x : ndarray2 F) (m : list F) (j : nat) :
  wf x -> length m = shape1 x -> j < shape1 x ->
  column f_zero (sub_rows x m) j
  = map (fun a => fsub a (nth j m f_zero)) (column f_zero x j).
Proof.
  intros Hwf Hm Hj. unfold column, sub_rows. cbn [rows].
  rewrite !map_map. apply map_ext_in. intros r Hr.
  apply nth_zip_with; [rewrite (wf_length x r Hwf Hr) | rewrite Hm];
    exact Hj.
Qed.

Lemma column_map2d (g : F -> F) (x : ndarray2 F) (j : nat) :
  wf x -> j < shape1 x ->
  column f_zero (map2d g x) j = map g (column f_zero x j).
Proof.
  intros Hwf Hj. unfold column, map2d. cbn [rows].
  rewrite !map_map. apply map_ext_in. intros r Hr.
  apply nth_map_in. now rewrite (wf_length x r Hwf Hr).
Qed.

Lemma wf_sub_rows (x : ndarray2 F) (m : list F) :
  wf x -> length m = shape1 x -> wf (sub_rows x m).
Proof.
  unfold wf, sub_rows. cbn [rows shape1]. intros Hwf Hm.
  apply Forall_map. eapply Forall_impl; [| exact Hwf].
  intros r Hr. cbn beta. rewrite length_zip_with, Hr, Hm. apply Nat.min_id.
Qed.

Lemma tf_pearsonr_columns (x : ndarray2 F) (y : list F) :
  wf x -> length y = shape0 x ->
  tf_pearsonr x y
  = Some (map (fun j => tf_coefficient (column f_zero x j) y)
              (seq 0 (shape1 x))).
Proof.
  intros Hwf Hy. unfold tf_pearsonr, tensordot.
  assert (Hm : length (reduce_mean_axis0 x) = shape1 x)
    by (unfold reduce_mean_axis0; now rewrite length_map, length_seq).
  replace (length (map (fun a => fsub a (reduce_mean y)) y)
           =? shape0 (sub_rows x (reduce_mean_axis0 x)))
    with true.
  2:{ symmetry. apply Nat.eqb_eq. rewrite length_map, Hy.
      unfold shape0, sub_rows. cbn [rows]. now rewrite length_map. }
  cbn [bind]. f_equal.
  unfold reduce_sum_axis0. cbn [shape1 sub_rows map2d].
  rewrite map_map, zip_with_map.
  apply map_ext_in. intros j Hj. apply in_seq in Hj.
  assert (Hj' : j < shape1 x) by lia.
  rewrite (column_map2d square _ j (wf_sub_rows x _ Hwf Hm)) by exact Hj'.
  rewrite (column_sub_rows x _ j Hwf Hm Hj').
  unfold tf_coefficient, reduce_mean_axis0.
  rewrite (nth_map_in (fun j => reduce_mean (column f_zero x j))
                      (seq 0 (shape1 x)) j f_zero 0)
    by (now rewrite length_seq).
  now rewrite seq_nth.
Qed.

(** The matrix [x] of the objective: one row per challenge, one column per
    candidate *)
Lemma objective_indicators (n' : nat) (C state : ndarray2 F)
  (delay_diffs : ndarray2 F) :
  wf C -> wf state -> shape1 C = n' -> shape1 state = S n' ->
  matmul (columns_to (Z.of_nat n') state) (transpose f_zero C)
  = Some delay_diffs ->
  map2d of_bool
        (reliabilities_MODEL delay_diffs (column f_zero state n'))
  = {| shape1 := shape0 state;
       rows := map (fun c =>
                      map (fun cand =>
                             of_bool (fgtb (fabs (dot (firstn n' cand) c))
                                           (nth n' cand f_zero)))
                          (rows state))
                   (rows C) |}.
Proof.
  intros HwfC Hwfs HC Hs. rewrite columns_to_firstn. unfold matmul.
  destruct (_ =? _); [| discriminate].
  intros Hd. injection Hd as <-.
  unfold reliabilities_MODEL, greater_rows, map2d, transpose.
  cbn [rows shape1]. unfold shape0 at 1. cbn [rows].
  rewrite !length_map. f_equal.
  rewrite !map_map.
  rewrite <- (map_nth_seq _ (rows C) []).
  fold (shape0 C). apply map_ext_in. intros j Hj. apply in_seq in Hj.
  unfold column at 1. cbn [rows]. rewrite !map_map.
  change (column f_zero state n')
    with (map (fun r => nth n' r f_zero) (rows state)).
  rewrite zip_with_map, map_map.
  apply map_ext. intros cand. f_equal. f_equal.
  change {| shape1 := shape0 C;
            rows := map (column f_zero C) (seq 0 (shape1 C)) |}
    with (transpose f_zero C).
  rewrite (nth_map_in fabs _ j f_zero f_zero)
    by (rewrite length_map, length_seq; lia).
  f_equal.
  rewrite (nth_map_in _ _ j f_zero 0) by (rewrite length_seq; lia).
  rewrite seq_nth by lia. cbn [Nat.add].
  f_equal. apply column_transpose; [exact HwfC | lia].
Qed.

Lemma objective_value (self : ReliabilityBasedCMAES F) (state C : ndarray2 F)
  (n' : nat) :
  current_challenges self = Some C ->
  wf C -> wf state ->
  n self = Z.of_nat n' -> shape1 C = n' -> shape1 state = S n' ->
  length (puf_reliabilities self) = shape0 C ->
  objective self state
  = Some (map (fun cand =>
                 fabs (fsub f_one
                            (tf_coefficient (model_indicator n' C cand)
                                            (puf_reliabilities self))))
              (rows state)).
Proof.
  intros Hcur HwfC Hwfs Hn HC Hs Hy. unfold objective.
  unfold last_column. rewrite Hs, Hcur, Hn. cbn [bind].
  destruct (matmul (columns_to (Z.of_nat n') state) (transpose f_zero C))
    as [delay_diffs |] eqn:Hd.
  2:{ exfalso. revert Hd. unfold matmul. rewrite columns_to_firstn.
      cbn [shape1]. unfold shape0, transpose. cbn [rows].
      rewrite length_map, length_seq, Hs, HC.
      replace (Nat.min n' (S n') =? n') with true; [discriminate |].
      symmetry. apply Nat.eqb_eq. lia. }
  cbn [bind].
  rewrite (objective_indicators n' C state delay_diffs HwfC Hwfs HC Hs Hd).
  rewrite tf_pearsonr_columns.
  - cbn [bind shape1]. f_equal. rewrite map_map.
    unfold shape0. rewrite <- (map_nth_seq _ (rows state) []).
    apply map_ext_in. intros p Hp. apply in_seq in Hp.
    f_equal. f_equal. f_equal.
    unfold column, model_indicator, indicator_bits. cbn [rows].
    rewrite !map_map. apply map_ext. intros c.
    now rewrite (nth_map_in _ (rows state) p f_zero []) by lia.
  - unfold wf. cbn [rows shape1]. apply Forall_map, Forall_forall.
    intros c _. now rewrite length_map.
  - unfold shape0. cbn [rows]. rewrite length_map. exact Hy.
Qed.

End ObjectiveValue.

(** ** Real vectors: sums, Cauchy-Schwarz, the correlation coefficient *)

Section RealVectors.
Local Open Scope R_scope.

Lemma sum_squares_nonneg (l : list R) : 0 <= sum_squares l.
Proof.
  unfold sum_squares. induction l as [| a l IH]; simpl; [lra | nra].
Qed.

Lemma sum_squares_cons (a : R) (l : list R) :
  sum_squares (a :: l) = a * a + sum_squares l.
Proof. reflexivity. Qed.

Lemma cauchy_schwarz (a b : list R) :
  Rsum (zip_with Rmult a b) * Rsum (zip_with Rmult a b)
  <= sum_squares a * sum_squares b.
Proof.
  revert b. induction a as [| x a IH]; intros b.
  - simpl. pose proof (sum_squares_nonneg b). unfold sum_squares at 1.
    simpl. lra.
  - destruct b as [| y b].
    + pose proof (sum_squares_nonneg (x :: a)). unfold sum_squares at 2.
      simpl. lra.
    + rewrite !sum_squares_cons.
      change (Rsum (zip_with Rmult (x :: a) (y :: b)))
        with (x * y + Rsum (zip_with Rmult a b)).
      specialize (IH b).
      pose proof (sum_squares_nonneg a) as HA.
      pose proof (sum_squares_nonneg b) as HB.
      revert IH HA HB.
      generalize (Rsum (zip_with Rmult a b)) (sum_squares a) (sum_squares b).
      clear. intros c A B IH HA HB.
      assert (Hmix : 2 * (x * y * c) <= x * x * B + A * (y * y)).
      { destruct (Req_dec A 0) as [HA0 | HA0].
        - assert (Hc : c = 0) by nra. rewrite Hc, HA0. nra.
        - assert (HApos : 0 < A) by lra.
          apply Rmult_le_reg_l with A; [exact HApos |].
          assert (Hsq : 0 <= (A * y - x * c) * (A * y - x * c))
            by (apply Rle_0_sqr).
          assert (Hx : 0 <= x * x * (A * B - c * c))
            by (apply Rmult_le_pos; [apply Rle_0_sqr | lra]).
          lra. }
      lra.
Qed.

Lemma sqrt_unique (v c : R) : 0 <= c -> c * c = v -> R_sqrt.sqrt v = c.
Proof. intros Hc <-. now apply sqrt_square. Qed.

Lemma variation_nonneg (l : list R) : 0 <= variation l.
Proof. apply sum_squares_nonneg. Qed.

Lemma covariation_bound (x y : list R) :
  Rabs (covariation x y) <= R_sqrt.sqrt (variation x * variation y).
Proof.
  pose proof (cauchy_schwarz (centered x) (centered y)) as Hcs.
  fold (covariation x y) in Hcs. fold (variation x) (variation y) in Hcs.
  rewrite <- sqrt_Rsqr_abs. apply sqrt_le_1_alt. exact Hcs.
Qed.

Lemma Rsum_zip_comm (a b : list R) :
  Rsum (zip_with Rmult a b) = Rsum (zip_with Rmult b a).
Proof.
  revert b. induction a as [| x a IH]; intros [| y b]; trivial.
  change (x * y + Rsum (zip_with Rmult a b)
          = y * x + Rsum (zip_with Rmult b a)).
  rewrite IH. lra.
Qed.

End RealVectors.

(** ** Ideal floats on finite vectors *)

Section IdealVectors.
Local Open Scope R_scope.

Lemma fold_iadd_Fin (l : list R) (a : R) :
  fold_left iadd (map Fin l) (Fin a) = Fin (a + Rsum l).
Proof.
  revert a. induction l as [| x l IH]; intros a; simpl.
  - now rewrite Rplus_0_r.
  - rewrite IH. f_equal. lra.
Qed.

Lemma reduce_sum_Fin (l : list R) : reduce_sum (map Fin l) = Fin (Rsum l).
Proof.
  unfold reduce_sum. change (@fadd inum _) with iadd.
  change (@f_zero inum _) with (Fin 0).
  rewrite fold_iadd_Fin. now rewrite Rplus_0_l.
Qed.

Lemma reduce_mean_Fin (l : list R) :
  l <> [] -> reduce_mean (map Fin l) = Fin (Rmean l).
Proof.
  intros Hl. unfold reduce_mean. rewrite reduce_sum_Fin, length_map.
  change (@fdiv inum _) with idiv.
  change (@of_Z inum _ (Z.of_nat (length l)))
    with (Fin (IZR (Z.of_nat (length l)))).
  rewrite <- INR_IZR_INZ. apply idiv_Fin.
  apply not_0_INR. destruct l; [congruence | discriminate].
Qed.

Lemma centered_Fin (l : list R) :
  l <> [] ->
  map (fun a => fsub a (reduce_mean (map Fin l))) (map Fin l)
  = map Fin (centered l).
Proof.
  intros Hl. rewrite (reduce_mean_Fin l Hl). unfold centered.
  rewrite !map_map. reflexivity.
Qed.

Lemma dot_Fin (a b : list R) :
  dot (map Fin a) (map Fin b) = Fin (Rsum (zip_with Rmult a b)).
Proof.
  unfold dot. rewrite <- reduce_sum_Fin. f_equal.
  unfold zip_with. revert b.
  induction a as [| x a IH]; intros [| y b]; simpl; trivial.
  now rewrite IH.
Qed.

Lemma squares_Fin (l : list R) :
  reduce_sum (map square (map Fin l)) = Fin (sum_squares l).
Proof.
  unfold sum_squares. rewrite <- reduce_sum_Fin. f_equal.
  now rewrite !map_map.
Qed.

Lemma isqrt_Fin (v : R) : 0 <= v -> isqrt (Fin v) = Fin (R_sqrt.sqrt v).
Proof.
  intros Hv. simpl. destruct (Rsgn v) eqn:E; trivial.
  unfold Rsgn in E.
  destruct (total_order_T v 0) as [[Hlt | Heq] | Hgt]; try discriminate.
  lra.
Qed.

(** What the column-wise computation of [tf_pearsonr] gives on two finite,
    non-empty vectors *)
Lemma tf_coefficient_Fin (x y : list R) :
  x <> [] -> y <> [] ->
  tf_coefficient (map Fin x) (map Fin y)
  = idiv (Fin (covariation x y))
         (Fin (R_sqrt.sqrt (variation x * variation y))).
Proof.
  intros Hx Hy. unfold tf_coefficient.
  rewrite (centered_Fin x Hx), (centered_Fin y Hy), dot_Fin, !squares_Fin.
  change (@fdiv inum _) with idiv. change (@fsqrt inum _) with isqrt.
  change (fmul (Fin (sum_squares (centered x)))
               (Fin (sum_squares (centered y))))
    with (Fin (variation x * variation y)).
  rewrite isqrt_Fin.
  - unfold covariation. now rewrite Rsum_zip_comm.
  - apply Rmult_le_pos; apply variation_nonneg.
Qed.

Lemma variation_constant (x : list R) : all_agree x -> variation x = 0.
Proof.
  intros Hall. unfold variation.
  assert (Hz : Forall (fun a => a = 0) (centered x)).
  { unfold centered. apply Forall_map, Forall_forall. intros a Ha.
    destruct x as [| b x]; [contradiction |].
    assert (Heq : forall c, In c (b :: x) -> c = a)
      by (intros c Hc; now apply Hall).
    unfold Rmean.
    assert (Hs : Rsum (b :: x) = INR (length (b :: x)) * a).
    { clear Ha Hall. induction (b :: x) as [| c l IH].
      - simpl. lra.
      - change (c + Rsum l = INR (S (length l)) * a).
        rewrite S_INR, IH by (intros e He; apply Heq; now right).
        rewrite (Heq c) by (now left). lra. }
    rewrite Hs. field. apply not_0_INR. discriminate. }
  unfold sum_squares. induction Hz as [| a l Ha _ IH]; simpl; [reflexivity |].
  rewrite IH, Ha. lra.
Qed.

Lemma covariation_zero_l (x y : list R) :
  variation x = 0 -> covariation x y = 0.
Proof.
  intros Hx.
  pose proof (covariation_bound x y) as Hb. rewrite Hx, Rmult_0_l, sqrt_0 in Hb.
  pose proof (Rabs_pos (covariation x y)) as Hp.
  destruct (Req_dec (covariation x y) 0) as [Hc | Hc]; [exact Hc |].
  apply Rabs_pos_lt in Hc. lra.
Qed.

(** A constant column, or a constant oracle vector, makes the coefficient
    0/0 *)
Lemma tf_coefficient_degenerate (x y : list R) :
  length x = length y ->
  variation x = 0 \/ variation y = 0 ->
  tf_coefficient (map Fin x) (map Fin y) = NaN.
Proof.
  intros Hlen Hdeg.
  destruct x as [| a x].
  - destruct y; [| discriminate]. unfold tf_coefficient.
    cbn -[IZR Rsgn R_sqrt.sqrt].
    replace (0 * 0) with 0 by lra.
    rewrite Rsgn_zero, sqrt_0, !Rsgn_zero. reflexivity.
  - assert (Hy : y <> []) by (destruct y; [discriminate | congruence]).
    rewrite tf_coefficient_Fin by (congruence || exact Hy).
    assert (Hc : covariation (a :: x) y = 0).
    { destruct Hdeg as [Hx | Hyz]; [now apply covariation_zero_l |].
      unfold covariation. rewrite Rsum_zip_comm.
      now apply (covariation_zero_l y (a :: x)). }
    assert (Hv : variation (a :: x) * variation y = 0)
      by (destruct Hdeg as [-> | ->]; lra).
    rewrite Hc, Hv, sqrt_0. apply idiv_zero_zero.
Qed.

Lemma model_indicator_Fin (n' : nat) (C : ndarray2 inum) (cand : list inum) :
  model_indicator n' C cand
  = map Fin (map R_of_bool (indicator_bits n' C cand)).
Proof.
  unfold model_indicator. rewrite map_map.
  apply map_ext. now intros [|].
Qed.

End IdealVectors.

(** ** The objective *)

Section Objective.
Local Open Scope R_scope.

(** C1 (amended). For a population of rows of length [n + 1], challenges
    of length [n] and one oracle reliability per challenge, the objective
    returns one cost per candidate, and the cost of a candidate is
    [abs(1 - corr)], computed in floating point, where [corr] is the
    coefficient that [tf_pearsonr] computes from the indicator vector of
    that candidate and the oracle vector: the sum of the products of the
    deviations over the square root of the product of the sums of their
    squares.  It is not [1 - abs(corr)].  (The statement holds for every
    float arithmetic, binary64 included; it gives no exact value, since
    [corr] carries the rounding errors of these sums.) *)
Theorem objective_cost {F : Type} `{Float64 F}
  (self : ReliabilityBasedCMAES F) (state C : ndarray2 F) (n' : nat) :
  current_challenges self = Some C ->
  wf C -> wf state ->
  n self = Z.of_nat n' -> shape1 C = n' -> shape1 state = S n' ->
  length (puf_reliabilities self) = shape0 C ->
  exists costs : list F,
    objective self state = Some costs /\
    length costs = shape0 state /\
    forall (p : nat) (cand : list F),
      nth_error (rows state) p = Some cand ->
      nth_error costs p
      = Some (fabs (fsub f_one
                         (tf_coefficient (model_indicator n' C cand)
                                         (puf_reliabilities self)))).
Proof.
  intros Hcur HwfC Hwfs Hn HC Hs Hlen.
  eexists. split; [| split].
  - apply (objective_value self state C n' Hcur HwfC Hwfs Hn HC Hs Hlen).
  - unfold shape0. now rewrite length_map.
  - intros p cand Hp. rewrite nth_error_map, Hp. reflexivity.
Qed.

(** C2 (amended). Under the same conditions on the shapes the objective
    does not raise.  A candidate whose indicator vector is constant receives
    the cost NaN (from 0/0), not a number; every candidate's cost is
    computed from its own row only, so the costs of the other candidates are
    not affected. *)
Theorem objective_constant_indicator (self : ReliabilityBasedCMAES inum)
  (state C : ndarray2 inum) (n' : nat) (yr : list R) :
  current_challenges self = Some C ->
  wf C -> wf state ->
  n self = Z.of_nat n' -> shape1 C = n' -> shape1 state = S n' ->
  puf_reliabilities self = map Fin yr -> length yr = shape0 C ->
  exists costs : list inum,
    objective self state = Some costs /\
    length costs = shape0 state /\
    (forall (p : nat) (cand : list inum),
        nth_error (rows state) p = Some cand ->
        all_agree (indicator_bits n' C cand) ->
        nth_error costs p = Some NaN) /\
    (forall (q : nat) (cand : list inum),
        nth_error (rows state) q = Some cand ->
        nth_error costs q
        = Some (fabs (fsub f_one
                           (tf_coefficient (model_indicator n' C cand)
                                           (map Fin yr))))).
Proof.
  intros Hcur HwfC Hwfs Hn HC Hs Hy Hlen.
  eexists. split; [| split; [| split]].
  - apply (objective_value self state C n' Hcur HwfC Hwfs Hn HC Hs).
    now rewrite Hy, length_map.
  - now rewrite length_map.
  - intros p cand Hp Hall.
    rewrite nth_error_map, Hp. cbn [option_map].
    rewrite Hy, model_indicator_Fin, tf_coefficient_degenerate.
    + reflexivity.
    + rewrite length_map. unfold indicator_bits.
      now rewrite length_map, Hlen.
    + left. apply variation_constant.
      intros a b Ha Hb. apply in_map_iff in Ha, Hb.
      destruct Ha as [a' [<- Ha]]. destruct Hb as [b' [<- Hb]].
      f_equal. now apply Hall.
  - intros q cand Hq. rewrite nth_error_map, Hq, Hy. reflexivity.
Qed.

End Objective.

Lemma length_slice_to {A} (stop : Z) (l : list A) :
  exists m : nat,
    (m <= length l)%nat /\
    forall (B : Type) (r : list B),
      length r = length l -> slice_to stop r = firstn m r.
Proof.
  exists (Z.to_nat (if (stop <? 0)%Z
                    then Z.max (stop + Z.of_nat (length l)) 0
                    else Z.min stop (Z.of_nat (length l)))).
  split.
  - destruct (Z.ltb_spec stop 0); lia.
  - intros B r Hr. unfold slice_to. now rewrite Hr.
Qed.

(** Two slices [state[:, :n1]] and [state[:, :n2]] with as many columns
    are the same matrix. *)
Lemma columns_to_same {A} (n1 n2 : Z) (M : ndarray2 A) :
  wf M ->
  shape1 (columns_to n1 M) = shape1 (columns_to n2 M) ->
  columns_to n1 M = columns_to n2 M.
Proof.
  intros Hwf Hs. unfold columns_to in *. cbn [shape1] in Hs.
  rewrite Hs. f_equal.
  destruct (length_slice_to n1 (repeat tt (shape1 M))) as [m1 [Hm1 H1]].
  destruct (length_slice_to n2 (repeat tt (shape1 M))) as [m2 [Hm2 H2]].
  rewrite repeat_length in Hm1, Hm2.
  rewrite (H1 unit _ eq_refl), (H2 unit _ eq_refl) in Hs.
  rewrite !length_firstn, repeat_length in Hs.
  assert (Hm : m1 = m2) by lia.
  apply map_ext_in. intros r Hr.
  unfold wf in Hwf. rewrite Forall_forall in Hwf.
  rewrite (H1 A r), (H2 A r), Hm;
    rewrite ?repeat_length; auto.
Qed.

(** C10. Two learners that agree on the stored oracle reliability vector
    and on the current challenge matrix return the same cost vector on the
    same population whenever both return one, whatever their other
    attributes (the generator, the counters, the training set, even [n])
    are.  The only other attribute the objective reads is [n], which decides
    whether the weights [state[:, :n]] fit the challenges, hence whether the
    objective raises: with the same [n] the two results agree in that
    respect too. *)
Theorem objective_deterministic {F : Type} `{Float64 F}
  (self1 self2 : ReliabilityBasedCMAES F) (state : ndarray2 F) :
  puf_reliabilities self1 = puf_reliabilities self2 ->
  current_challenges self1 = current_challenges self2 ->
  wf state ->
  (forall costs1 costs2 : list F,
      objective self1 state = Some costs1 ->
      objective self2 state = Some costs2 ->
      costs1 = costs2) /\
  (n self1 = n self2 -> objective self1 state = objective self2 state).
Proof.
  intros Hy Hc Hwf. split.
  - intros costs1 costs2. unfold objective. rewrite Hy, Hc.
    destruct (last_column f_zero state) as [epsilon |]; cbn [bind];
      [| discriminate].
    destruct (current_challenges self2) as [current |]; cbn [bind];
      [| discriminate].
    destruct (matmul (columns_to (n self1) state) _) as [D1 |] eqn:H1;
      cbn [bind]; [| discriminate].
    destruct (matmul (columns_to (n self2) state) _) as [D2 |] eqn:H2;
      cbn [bind]; [| discriminate].
    assert (Hs : shape1 (columns_to (n self1) state)
                 = shape1 (columns_to (n self2) state)).
    { revert H1 H2. unfold matmul.
      destruct (Nat.eqb_spec (shape1 (columns_to (n self1) state))
                             (shape0 (transpose f_zero current)));
        [| discriminate].
      destruct (Nat.eqb_spec (shape1 (columns_to (n self2) state))
                             (shape0 (transpose f_zero current)));
        [| discriminate].
      congruence. }
    rewrite (columns_to_same (n self1) (n self2) state Hwf Hs) in H1.
    rewrite H1 in H2. injection H2 as <-.
    intros E1 E2. rewrite E1 in E2. now injection E2.
  - intros Hn. unfold objective. now rewrite Hn, Hy, Hc.
Qed.

(** *** The objective on the example *)

Section ObjectiveExample.
Local Open Scope R_scope.

Ltac decide_Rlt :=
  repeat match goal with
         | |- context [Rlt_dec ?a ?b] =>
             let H := fresh in
             destruct (Rlt_dec a b) as [H | H];
             [try (exfalso; revert H; unfold Rabs;
                   repeat destruct (Rcase_abs _); lra)
             | try (exfalso; apply H; unfold Rabs;
                    repeat destruct (Rcase_abs _); lra)]
         end.

Ltac unfold_pearson :=
  unfold pearson, covariation, variation, centered, sum_squares, Rmean,
    Rsum, zip_with;
  cbn [map combine fold_right length fst snd INR].

Lemma example_bits :
  let C := map2d (@of_Z inum _) (challenges example_training_set) in
  indicator_bits 2 C (map of_Z [1; 1; 1]%Z) = [true; false] /\
  indicator_bits 2 C (map of_Z [1; -1; 1]%Z) = [false; true] /\
  indicator_bits 2 C (map of_Z [0; 0; 1]%Z) = [false; false].
Proof. cbn -[IZR Rabs Rlt_dec]. decide_Rlt. repeat split. Qed.

Lemma example_reliabilities (seed pop : Z) :
  puf_reliabilities (objective_learner (F := inum) seed pop)
  = map Fin [3 / 2; 1 / 2].
Proof.
  cbn [puf_reliabilities objective_learner].
  rewrite reliabilities_PUF_pm1 by (repeat constructor; auto).
  cbn [map rows shape1 responses example_training_set].
  unfold deviation, occurrences. cbn -[IZR Rabs Rdiv].
  repeat f_equal; unfold Rabs; destruct (Rcase_abs _); lra.
Qed.

Lemma example_shapes :
  wf (map2d (@of_Z inum _) (challenges example_training_set)) /\
  wf (@objective_state inum _).
Proof. split; repeat constructor. Qed.

(** On the example, in binary64: the second candidate (1, -1 | 1) has the
    indicator vector (0, 1); its coefficient with the oracle vector
    (1.5, 0.5) is computed as -1 and its cost as 2. *)
Lemma objective_cost_witness :
  let self := objective_learner (F := float) 0 0 in
  let C := map2d of_Z (challenges example_training_set) in
  exists costs : list float,
    objective self objective_state = Some costs /\
    length costs = 3%nat /\
    nth_error costs 1
    = Some (fabs (fsub f_one
                       (tf_coefficient
                          (model_indicator 2 C (map of_Z [1; -1; 1]%Z))
                          (puf_reliabilities self)))) /\
    tf_coefficient (model_indicator 2 C (map of_Z [1; -1; 1]%Z))
                   (puf_reliabilities self) = (-1)%float /\
    nth_error costs 1 = Some 2%float.
Proof.
  intros self C.
  assert (HwfC : wf C) by (repeat constructor).
  assert (Hwfs : wf (@objective_state float _)) by (repeat constructor).
  destruct (objective_cost self objective_state C 2
              eq_refl HwfC Hwfs eq_refl eq_refl eq_refl eq_refl)
    as [costs [Hobj [Hlen Hcost]]].
  exists costs. split; [exact Hobj |]. split; [exact Hlen |].
  pose proof (Hcost 1%nat (map of_Z [1; -1; 1]%Z) eq_refl) as H1.
  split; [exact H1 |]. split; [reflexivity |].
  rewrite H1. reflexivity.
Defined.

(** On the example the third candidate has the constant indicator (0, 0)
    and receives NaN. *)
Lemma objective_constant_indicator_witness :
  exists costs : list inum,
    objective (objective_learner 0 0) objective_state = Some costs /\
    length costs = 3%nat /\
    nth_error costs 2 = Some NaN.
Proof.
  destruct (objective_constant_indicator
              (objective_learner 0 0) objective_state
              (map2d of_Z (challenges example_training_set)) 2
              [3 / 2; 1 / 2]
              eq_refl (proj1 example_shapes) (proj2 example_shapes)
              eq_refl eq_refl eq_refl (example_reliabilities 0 0) eq_refl)
    as [costs [Hobj [Hlen [Hnan _]]]].
  destruct example_bits as [_ [_ Hb2]].
  exists costs. split; [exact Hobj | split; [exact Hlen |]].
  apply (Hnan 2%nat _ eq_refl).
  change (indicator_bits _ _ _)
    with (indicator_bits 2
            (map2d (@of_Z inum _) (challenges example_training_set))
            (map of_Z [0; 0; 1]%Z)).
  rewrite Hb2.
  intros a b [<- | [<- | []]] [<- | [<- | []]]; reflexivity.
Defined.

End ObjectiveExample.

(** *** The same example on machine floats *)

(** C1 fails as stated: the second candidate (1, -1, 1) has the indicator
    vector (0, 1), whose correlation with the oracle vector (1.5, 0.5) is
    -1; one minus the absolute correlation is 0, and the objective returns
    2. *)
Lemma objective_cost_counterexample :
  let self := objective_learner (F := float) 0 0 in
  let x := model_indicator 2 (map2d of_Z (challenges example_training_set))
                           (map of_Z [1; -1; 1]%Z) in
  let r := pearson_coefficient x (puf_reliabilities self) in
  x = [0%float; 1%float] /\
  r = (-1)%float /\
  fsub f_one (fabs r) = 0%float /\
  objective self objective_state = Some [0%float; 2%float; nan] /\
  nth_error [0%float; 2%float; nan] 1 <> Some (fsub f_one (fabs r)).
Proof.
  repeat split.
  intros Heq.
  apply (f_equal (fun o => match o with
                           | Some c => PrimFloat.ltb 0%float c
                           | None => false
                           end)) in Heq.
  vm_compute in Heq. discriminate.
Qed.

(** C2 fails as stated: the third candidate (0, 0, 1) has the constant
    indicator vector (0, 0); the objective does not raise, and the cost of
    that candidate is NaN. *)
Lemma objective_constant_indicator_counterexample :
  let self := objective_learner (F := float) 0 0 in
  indicator_bits 2 (map2d of_Z (challenges example_training_set))
                 (map (@of_Z float _) [0; 0; 1]%Z) = [false; false] /\
  objective self objective_state = Some [0%float; 2%float; nan] /\
  PrimFloat.is_nan (nth 2 [0%float; 2%float; nan] 0%float) = true.
Proof. repeat split. Qed.

(** Two learners with different generators, counters and [n]: with
    [n = 2] and with [n = -1] the weights are the first two of the three
    columns of the population, and the costs are the same. *)
Lemma objective_deterministic_witness :
  prng (objective_learner (F := float) 1 10)
  <> prng (objective_learner_back (F := float) 2 20) /\
  n (objective_learner (F := float) 1 10)
  <> n (objective_learner_back (F := float) 2 20) /\
  objective (objective_learner 1 10) objective_state
  = Some [0%float; 2%float; nan] /\
  objective (objective_learner_back 2 20) objective_state
  = Some [0%float; 2%float; nan] /\
  [0%float; 2%float; nan] = [0%float; 2%float; nan].
Proof.
  split; [discriminate |]. split; [discriminate |].
  split; [reflexivity |]. split; [reflexivity |].
  refine (proj1 (objective_deterministic
                   (objective_learner (F := float) 1 10)
                   (objective_learner_back (F := float) 2 20)
                   objective_state eq_refl eq_refl _) _ _ eq_refl eq_refl).
  repeat constructor.
Defined.

(** ** Construction of the learner *)

Section Construction.
Context {F : Type} `{Float64 F}.

Lemma length_reliabilities_PUF (M : ndarray2 Z) :
  length (reliabilities_PUF (F := F) M) = shape0 M.
Proof.
  unfold reliabilities_PUF, shape0. rewrite length_map.
  destruct (contains (-1) (map2d to_int8 M)); cbn [rows map2d
    transform_challenge_11_to_01]; now rewrite ?length_map.
Qed.

Lemma matmul_shape1 (A B D : ndarray2 F) :
  matmul A B = Some D -> shape1 D = shape1 B.
Proof.
  unfold matmul. destruct (shape1 A =? shape0 B); [| discriminate].
  now intros [= <-].
Qed.

(** A number of oracle reliabilities different from the number of current
    challenges makes every evaluation of the objective raise. *)
Lemma objective_mismatch (self : ReliabilityBasedCMAES F)
  (C state : ndarray2 F) :
  current_challenges self = Some C ->
  length (puf_reliabilities self) <> shape0 C ->
  objective self state = None.
Proof.
  intros Hcur Hlen. unfold objective.
  destruct (last_column f_zero state) as [epsilon |]; [| reflexivity].
  rewrite Hcur. cbn [bind].
  destruct (matmul _ _) as [D |] eqn:HD; [| reflexivity].
  cbn [bind]. apply matmul_shape1 in HD.
  unfold tf_pearsonr, tensordot.
  replace (length (map (fun a => fsub a (reduce_mean (puf_reliabilities self)))
                       (puf_reliabilities self))
           =? shape0 (sub_rows (map2d of_bool
                                       (reliabilities_MODEL D epsilon))
                               (reduce_mean_axis0
                                  (map2d of_bool
                                         (reliabilities_MODEL D epsilon)))))
    with false; [reflexivity |].
  symmetry. apply Nat.eqb_neq. rewrite length_map.
  unfold shape0 at 1, sub_rows, map2d, reliabilities_MODEL, greater_rows,
    transpose.
  cbn [rows shape1]. rewrite !length_map, length_seq.
  change (shape1 (map2d fabs D)) with (shape1 D). rewrite HD.
  exact Hlen.
Qed.

(** C9 (amended). The constructor checks no shape of the training set: it
    raises exactly when the seed is outside [0, 2**32), [k] or [n] is
    negative, or the transform raises, and otherwise stores one oracle
    reliability per response row, whatever the number of challenges is.  A
    number of response rows different from the number of current challenges
    is met by the objective only, which then raises on every population. *)
Theorem init_checks_no_shapes (ts : TrainingSet) (k n : Z)
  (transform : transform_t) (combiner : combiner_t F)
  (pop_size : Z) (abort_delta : F) (abort_iter random_seed : Z) :
  (__init__ ts k n transform combiner pop_size abort_delta abort_iter
            random_seed = None
   <-> (random_seed < 0)%Z \/ (2 ^ 32 <= random_seed)%Z \/
       (k < 0)%Z \/ (n < 0)%Z \/ transform (challenges ts) k = None) /\
  (forall self : ReliabilityBasedCMAES F,
      __init__ ts k n transform combiner pop_size abort_delta abort_iter
               random_seed = Some self ->
      length (puf_reliabilities self) = shape0 (responses ts) /\
      transform (challenges ts) k = Some (linearized_challenges self) /\
      current_challenges self = None) /\
  (forall (self : ReliabilityBasedCMAES F) (C state : ndarray2 F),
      current_challenges self = Some C ->
      length (puf_reliabilities self) <> shape0 C ->
      objective self state = None).
Proof.
  split; [| split].
  - unfold __init__, RandomState, np_zeros.
    destruct (random_seed <? 0)%Z eqn:Hs0;
      [split; [intros _; left; now apply Z.ltb_lt | reflexivity] |].
    destruct (2 ^ 32 <=? random_seed)%Z eqn:Hs1;
      [split; [intros _; right; left; now apply Z.leb_le | reflexivity] |].
    destruct (k <? 0)%Z eqn:Hk;
      [split; [intros _; do 2 right; left; now apply Z.ltb_lt
              | reflexivity] |].
    destruct (n <? 0)%Z eqn:Hn;
      [split; [intros _; do 3 right; left; now apply Z.ltb_lt
              | reflexivity] |].
    cbn [orb bind].
    apply Z.ltb_ge in Hs0, Hk, Hn. apply Z.leb_gt in Hs1.
    destruct (transform (challenges ts) k) as [T |]; cbn [bind].
    + split; [discriminate |].
      intros [Hs | [Hs | [Hk' | [Hn' | HT]]]]; try lia; discriminate.
    + split; [intros _; do 4 right; reflexivity | reflexivity].
  - intros self. unfold __init__.
    destruct (RandomState random_seed) as [g |]; cbn [bind];
      [| discriminate].
    destruct (np_zeros k n) as [Z0 |]; cbn [bind]; [| discriminate].
    destruct (transform (challenges ts) k) as [T |]; cbn [bind];
      [| discriminate].
    intros [= <-]. cbn [puf_reliabilities linearized_challenges
                        current_challenges].
    split; [apply length_reliabilities_PUF | split; reflexivity].
  - exact objective_mismatch.
Qed.

End Construction.

(** C9 fails as stated: a training set with two challenges and one row of
    responses, [k = 1] and [n = 2], is accepted by the constructor; the
    first pass of [learn] sets the current challenges, and from then on the
    objective raises. *)
Lemma init_checks_no_shapes_counterexample :
  shape0 (responses mismatched_training_set)
  <> shape0 (challenges mismatched_training_set) /\
  exists (self : ReliabilityBasedCMAES float) (s : learn_state float),
    __init__ mismatched_training_set 1 2 example_transform example_combiner
             10 0.125%float 10 42 = Some self /\
    learn_body {| self_ := self; pool := []; n_chain := 0 |}
               [(-1)%float; 2%float; 2%float] = Some s /\
    objective (self_ s) objective_state = None.
Proof.
  split; [discriminate |].
  eexists. eexists.
  split; [reflexivity | split; reflexivity].
Qed.

(** ** Negation and symmetry of the correlation, on ideal floats *)

Section IdealCorrelation.

Lemma signed_inf_opp (c : comparison) :
  signed_inf (CompOpp c) = ineg (signed_inf c).
Proof. now destruct c. Qed.

Lemma ineg_iadd (a b : inum) : ineg (iadd a b) = iadd (ineg a) (ineg b).
Proof.
  destruct a, b; simpl; trivial. now rewrite Ropp_plus_distr.
Qed.

Lemma imul_comm (a b : inum) : imul a b = imul b a.
Proof.
  destruct a, b; simpl; trivial. now rewrite Rmult_comm.
Qed.

Lemma imul_ineg_l (a b : inum) : imul (ineg a) b = ineg (imul a b).
Proof.
  destruct a as [x | | |], b as [y | | |]; simpl; trivial;
    rewrite ?Rsgn_opp, ?signed_inf_opp, ?CompOpp_involutive,
      ?ineg_involutive; trivial.
  f_equal. ring.
Qed.

Lemma imul_ineg_ineg (a : inum) : imul (ineg a) (ineg a) = imul a a.
Proof.
  rewrite imul_ineg_l, (imul_comm a (ineg a)), imul_ineg_l.
  apply ineg_involutive.
Qed.

Lemma idiv_ineg_l (a b : inum) : idiv (ineg a) b = ineg (idiv a b).
Proof.
  destruct a as [x | | |], b as [y | | |]; simpl; trivial;
    try (now rewrite Ropp_0); try (now destruct (Rsgn y)).
  destruct (Rsgn y); rewrite ?Rsgn_opp, ?signed_inf_opp; trivial;
    simpl; f_equal; unfold Rdiv; ring.
Qed.

Lemma iabs_ineg (a : inum) : iabs (ineg a) = iabs a.
Proof. destruct a; simpl; trivial. now rewrite Rabs_Ropp. Qed.

Lemma fold_iadd_ineg (l : list inum) (a : inum) :
  fold_left iadd (map ineg l) (ineg a) = ineg (fold_left iadd l a).
Proof.
  revert a. induction l as [| x l IH]; intros a; simpl; [reflexivity |].
  now rewrite <- ineg_iadd, IH.
Qed.

Lemma reduce_sum_ineg (l : list inum) :
  reduce_sum (map ineg l) = ineg (reduce_sum l).
Proof.
  unfold reduce_sum. change (@fadd inum _) with iadd.
  rewrite <- fold_iadd_ineg. f_equal.
  change (@f_zero inum _) with (Fin 0). simpl. now rewrite Ropp_0.
Qed.

Lemma reduce_mean_ineg (l : list inum) :
  reduce_mean (map ineg l) = ineg (reduce_mean l).
Proof.
  unfold reduce_mean. rewrite reduce_sum_ineg, length_map.
  apply idiv_ineg_l.
Qed.

Lemma centered_ineg (l : list inum) :
  map (fun a => fsub a (reduce_mean (map ineg l))) (map ineg l)
  = map ineg (map (fun a => fsub a (reduce_mean l)) l).
Proof.
  rewrite reduce_mean_ineg, !map_map. apply map_ext. intros a.
  change (iadd (ineg a) (ineg (ineg (reduce_mean l)))
          = ineg (iadd a (ineg (reduce_mean l)))).
  now rewrite ineg_iadd.
Qed.

Lemma dot_ineg_l (a b : list inum) :
  dot (map ineg a) b = ineg (dot a b).
Proof.
  unfold dot. rewrite <- reduce_sum_ineg. f_equal.
  unfold zip_with. revert b.
  induction a as [| x a IH]; intros [| y b]; simpl; trivial.
  rewrite IH. f_equal. apply imul_ineg_l.
Qed.

Lemma dot_comm (a b : list inum) : dot a b = dot b a.
Proof.
  unfold dot. f_equal. unfold zip_with. revert b.
  induction a as [| x a IH]; intros [| y b]; simpl; trivial.
  rewrite IH. f_equal. apply imul_comm.
Qed.

Lemma squares_ineg (l : list inum) :
  map square (map ineg l) = map square l.
Proof.
  rewrite map_map. apply map_ext. intros a. apply imul_ineg_ineg.
Qed.

Lemma pearson_coefficient_ineg_l (x y : list inum) :
  pearson_coefficient (map ineg x) y = ineg (pearson_coefficient x y).
Proof.
  unfold pearson_coefficient.
  rewrite centered_ineg, dot_ineg_l, squares_ineg.
  apply idiv_ineg_l.
Qed.

Lemma pearson_coefficient_comm (x y : list inum) :
  pearson_coefficient x y = pearson_coefficient y x.
Proof.
  unfold pearson_coefficient.
  rewrite (dot_comm (map _ x) (map _ y)).
  f_equal. f_equal. apply imul_comm.
Qed.

Lemma pearsonr_comm (x y : list inum) : pearsonr x y = pearsonr y x.
Proof.
  unfold pearsonr.
  rewrite (Nat.eqb_sym (length x) (length y)).
  destruct (length y =? length x) eqn:E; cbn [negb]; [| reflexivity].
  apply Nat.eqb_eq in E. rewrite E.
  destruct (length x <? 2); [reflexivity |].
  now rewrite pearson_coefficient_comm.
Qed.

Lemma apart_sym (v w : list inum) : apart v w -> apart w v.
Proof. unfold apart. now rewrite (pearsonr_comm w v). Qed.

Lemma apart_ineg_l (v w : list inum) : apart v w -> apart (map ineg v) w.
Proof.
  unfold apart, pearsonr. rewrite length_map.
  destruct (negb (length v =? length w)); [intros [r [Hr _]]; discriminate |].
  destruct (length v <? 2); [intros [r [Hr _]]; discriminate |].
  intros [r [[= <-] Hr]].
  exists (ineg (pearson_coefficient v w)).
  split; [now rewrite pearson_coefficient_ineg_l |].
  unfold fgtb in *. change (@fabs inum _) with iabs in *.
  now rewrite iabs_ineg.
Qed.

End IdealCorrelation.

(** ** The pool of accepted chains *)

Section Pool.

Lemma uncorrelated_nil : uncorrelated (F := inum) [].
Proof. intros [| i] j v w _ Hv; discriminate. Qed.

Lemma correlated_to_pool_false (w : list inum) (pool : list (list inum)) :
  correlated_to_pool w pool = Some false -> Forall (apart w) pool.
Proof.
  induction pool as [| v pool IH]; [constructor |].
  cbn [correlated_to_pool].
  destruct (pearsonr w v) as [r |] eqn:Hr; cbn [bind]; [| discriminate].
  destruct (fgtb (fabs r) f_half) eqn:Hgt; [discriminate |].
  intros Hrest. constructor; [now exists r | now apply IH].
Qed.

Lemma uncorrelated_append (pool : list (list inum)) (w : list inum) :
  uncorrelated pool -> Forall (apart w) pool -> uncorrelated (pool ++ [w]).
Proof.
  intros Hpool Hw i j v' w' Hij Hi Hj.
  rewrite Forall_forall in Hw.
  assert (Hlast : forall (m : nat) (u : list inum),
             nth_error (pool ++ [w]) m = Some u ->
             (m < length pool /\ nth_error pool m = Some u) \/
             (m = length pool /\ u = w)).
  { intros m u Hm.
    destruct (Nat.lt_ge_cases m (length pool)) as [Hlt | Hge].
    - left. split; [exact Hlt |]. now rewrite nth_error_app1 in Hm.
    - right. rewrite nth_error_app2 in Hm by exact Hge.
      destruct (m - length pool) as [| d] eqn:Hd.
      + split; [lia | now injection Hm].
      + destruct d; discriminate. }
  destruct (Hlast i v' Hi) as [[Hil Hiv] | [Hil ->]];
    destruct (Hlast j w' Hj) as [[Hjl Hjw] | [Hjl ->]].
  - exact (Hpool i j v' w' Hij Hiv Hjw).
  - apply apart_sym, Hw. eapply nth_error_In. exact Hiv.
  - apply Hw. eapply nth_error_In. exact Hjw.
  - lia.
Qed.

Lemma learn_body_pool (s s' : learn_state inum) (best : list inum) :
  learn_body s best = Some s' ->
  pool s' = pool s \/
  exists w : list inum,
    pool s' = pool s ++ [w] /\ Forall (apart w) (pool s).
Proof.
  unfold learn_body.
  destruct (middle_slice _ _) as [current |]; cbn [bind]; [| discriminate].
  destruct (flip_chain _) as [w |]; cbn [bind]; [| discriminate].
  destruct (correlated_to_pool w (pool s)) as [[|] |] eqn:Hc; cbn [bind];
    try discriminate; intros [= <-]; cbn [pool]; [now left | right].
  exists w. split; [reflexivity | now apply correlated_to_pool_false].
Qed.

Lemma learn_body_uncorrelated (s s' : learn_state inum) (best : list inum) :
  learn_body s best = Some s' ->
  uncorrelated (pool s) -> uncorrelated (pool s').
Proof.
  intros Hbody Hpool.
  destruct (learn_body_pool s s' best Hbody) as [-> | [w [-> Hw]]];
    [exact Hpool | now apply uncorrelated_append].
Qed.

Lemma learn_reaches_uncorrelated (s0 s : learn_state inum) :
  learn_reaches s0 s -> uncorrelated (pool s0) -> uncorrelated (pool s).
Proof.
  induction 1 as [| s s' best _ IH _ Hbody]; intros H0; [exact H0 |].
  eapply learn_body_uncorrelated; [exact Hbody | now apply IH].
Qed.

Lemma learn_loop_reaches (s0 : learn_state inum)
  (searches : list (list inum)) :
  forall s s' : learn_state inum,
    learn_reaches s0 s ->
    learn_loop s searches = Some (Some s') ->
    learn_reaches s0 s'.
Proof.
  induction searches as [| best searches IH]; intros s s' Hs;
    cbn [learn_loop]; destruct (n_chain s <? k (self_ s))%Z eqn:Hk;
    try discriminate; try (now intros [= <-]).
  destruct (learn_body s best) as [s1 |] eqn:Hbody; cbn [bind];
    [| discriminate].
  apply IH. eapply reaches_pass; eauto.
Qed.

Lemma uncorrelated_flip_first (first : list inum)
  (others : list (list inum)) :
  uncorrelated (first :: others) ->
  uncorrelated (map fneg first :: others).
Proof.
  intros Hpool i j v w Hij Hi Hj.
  destruct i as [| i], j as [| j]; cbn [nth_error] in Hi, Hj.
  - contradiction.
  - injection Hi as <-. apply apart_ineg_l.
    exact (Hpool 0 (S j) first w Hij eq_refl Hj).
  - injection Hj as <-. apply apart_sym, apart_ineg_l, apart_sym.
    exact (Hpool (S i) 0 v first Hij Hi eq_refl).
  - exact (Hpool (S i) (S j) v w Hij Hi Hj).
Qed.

Lemma learn_model_rows
  (LTFArray_eval : LTFArray inum -> ndarray2 Z -> list Z)
  (self : ReliabilityBasedCMAES inum) (searches : list (list inum))
  (model : LTFArray inum) :
  learn LTFArray_eval self searches = Some (Some model) ->
  exists s : learn_state inum,
    learn_loop {| self_ := self; pool := []; n_chain := 0 |} searches
    = Some (Some s) /\
    (rows (weight_array model) = pool s \/
     exists first others,
       pool s = first :: others /\
       rows (weight_array model) = map fneg first :: others).
Proof.
  unfold learn.
  destruct (learn_loop _ searches) as [[s |] |]; cbn [bind];
    try discriminate.
  destruct (learn_finish LTFArray_eval (self_ s) (pool s)) as [m |] eqn:Hf;
    cbn [bind]; [| discriminate].
  intros [= <-]. exists s. split; [reflexivity |].
  destruct (learn_finish_inv LTFArray_eval _ _ Hf) as [acc [_ Hrows]].
  destruct (fltb acc f_half); [right | left]; exact Hrows.
Qed.

(** C3. Every state the loop of [learn] goes through holds a pool in which
    no two distinct members have an absolute Pearson correlation above 0.5,
    and so does the model that [learn] returns, whether its first chain was
    negated or not.  A pass of the loop leaves the pool as it is or appends
    one chain, and it appends a chain only when the comparison with every
    member of the pool was made and none exceeded 0.5. *)
Theorem learn_pool_uncorrelated (self : ReliabilityBasedCMAES inum) :
  (forall s : learn_state inum,
      learn_reaches {| self_ := self; pool := []; n_chain := 0 |} s ->
      uncorrelated (pool s)) /\
  (forall (LTFArray_eval : LTFArray inum -> ndarray2 Z -> list Z)
          (searches : list (list inum)) (model : LTFArray inum),
      learn LTFArray_eval self searches = Some (Some model) ->
      uncorrelated (rows (weight_array model))) /\
  (forall (s s' : learn_state inum) (best : list inum),
      learn_body s best = Some s' ->
      pool s' = pool s \/
      exists w : list inum,
        pool s' = pool s ++ [w] /\ Forall (apart w) (pool s)).
Proof.
  split; [| split].
  - intros s Hs.
    apply (learn_reaches_uncorrelated _ s Hs). apply uncorrelated_nil.
  - intros LTFArray_eval searches model Hlearn.
    destruct (learn_model_rows LTFArray_eval self searches model Hlearn)
      as [s [Hloop Hrows]].
    assert (Hpool : uncorrelated (pool s)).
    { apply (learn_reaches_uncorrelated
               {| self_ := self; pool := []; n_chain := 0 |} s);
        [| apply uncorrelated_nil].
      eapply learn_loop_reaches; [apply reaches_start | exact Hloop]. }
    destruct Hrows as [-> | [first [others [Hp ->]]]]; [exact Hpool |].
    apply uncorrelated_flip_first. now rewrite <- Hp.
  - exact learn_body_pool.
Qed.

End Pool.

(** ** Runs on machine floats *)

(** With [k = 2] and three optimizer runs: (1, 0, -1) is accepted; the
    second solution (-2, 0, 2) is canonicalized to (2, 0, -2), correlates
    perfectly with the first chain and is rejected; (1, -2, 1) has
    correlation 0 with the first chain and is accepted.  The model agrees
    with no measurement, and its first chain is negated. *)
Example learn_two_chains :
  option_map (option_map (fun m => rows (weight_array m)))
             (learn example_eval two_chain_learner two_chain_searches)
  = Some (Some [[-1; -0; 1]; [1; -2; 1]]%float).
Proof. reflexivity. Qed.

Example learn_rejects_rediscovery :
  correlated_to_pool [2; 0; -2]%float [[1; 0; -1]%float] = Some true /\
  correlated_to_pool [1; -2; 1]%float [[1; 0; -1]%float] = Some false.
Proof. split; reflexivity. Qed.

(** The majority vote: the most frequent response, the smaller one on a
    tie *)
Example mode_majority :
  map mode [[1; 1; 1]; [-1; -1; 1]; [1; -1; 1; -1]; [0; 1; 1; 0; 1]]%Z
  = [1; -1; -1; 1]%Z.
Proof. reflexivity. Qed.

(** The estimator on three challenges measured four times: full agreement,
    an even split, and three against one *)
Example reliabilities_PUF_float :
  reliabilities_PUF example_responses = [2; 0; 1]%float.
Proof. reflexivity. Qed.

(** The negation of (0, 1) is returned as it is *)
Example flip_chain_float :
  flip_chain (map fneg [0; 1]%float) = Some [-0; -1]%float /\
  flip_chain [-0.5; 1]%float = Some [0.5; -1]%float.
Proof. split; reflexivity. Qed.

(** A history of 101 costs that improves by 0.001 per generation is
    declared stagnated with a window of 10 and a threshold of 0.5; its first
    99 entries are not, whatever the threshold *)
Example is_iteration_stagnated_float :
  let history :=
    map (fun i => PrimFloat.div (of_Z (200 - Z.of_nat i)) 1000%float)
        (seq 0 101) in
  is_iteration_stagnated (objective_learner 0 0) history = Some true /\
  is_iteration_stagnated two_chain_learner (firstn 99 history) = Some false.
Proof. split; reflexivity. Qed.

(** * Further properties of the learner *)

(** ** When the objective raises *)

Section ObjectiveErrors.
Context {F : Type} `{Float64 F}.

Lemma length_tf_pearsonr (x : ndarray2 F) (y corr : list F) :
  tf_pearsonr x y = Some corr -> length corr = shape1 x.
Proof.
  unfold tf_pearsonr, tensordot.
  destruct (_ =? _); cbn [bind]; [| discriminate].
  intros [= <-]. unfold reduce_sum_axis0.
  rewrite length_zip_with, !length_map, !length_seq.
  cbn [shape1 sub_rows map2d]. apply Nat.min_id.
Qed.

Lemma tf_pearsonr_raises (x : ndarray2 F) (y : list F) :
  tf_pearsonr x y = None <-> length y <> shape0 x.
Proof.
  unfold tf_pearsonr, tensordot. rewrite length_map.
  change (shape0 (sub_rows x (reduce_mean_axis0 x)))
    with (length (map (fun r => zip_with fsub r (reduce_mean_axis0 x))
                      (rows x))).
  rewrite length_map. fold (shape0 x).
  destruct (length y =? shape0 x) eqn:E; cbn [bind].
  - apply Nat.eqb_eq in E. split; [discriminate | contradiction].
  - apply Nat.eqb_neq in E. split; [intros _; exact E | reflexivity].
Qed.

Lemma matmul_raises (A B : ndarray2 F) :
  matmul A B = None <-> shape1 A <> shape0 B.
Proof.
  unfold matmul. destruct (shape1 A =? shape0 B) eqn:E.
  - apply Nat.eqb_eq in E. split; [discriminate | contradiction].
  - apply Nat.eqb_neq in E. split; [intros _; exact E | reflexivity].
Qed.

Lemma matmul_shape0 (A B D : ndarray2 F) :
  matmul A B = Some D -> shape0 D = shape0 A.
Proof.
  unfold matmul. destruct (shape1 A =? shape0 B); [| discriminate].
  intros [= <-]. unfold shape0. cbn [rows]. apply length_map.
Qed.

Lemma shape_indicators (D : ndarray2 F) (epsilon : list F) :
  shape0 (map2d of_bool (reliabilities_MODEL D epsilon)) = shape1 D /\
  shape1 (map2d of_bool (reliabilities_MODEL D epsilon)) = shape0 D.
Proof.
  unfold shape0, map2d, reliabilities_MODEL, greater_rows, transpose.
  cbn [rows shape1]. rewrite !length_map, length_seq.
  split; [reflexivity | apply length_map].
Qed.

(** X1. The objective raises exactly when the population has no column,
    when [learn] has not yet set the current challenges, when the number
    of weight columns [state[:, :n]] differs from the length of the
    challenges, or when the number of oracle reliabilities differs from the
    number of challenges.  When it returns, it returns one cost per
    candidate. *)
Theorem objective_raises_iff (self : ReliabilityBasedCMAES F)
  (state : ndarray2 F) :
  (objective self state = None <->
   shape1 state = 0 \/
   match current_challenges self with
   | None => True
   | Some C =>
       shape1 (columns_to (n self) state) <> shape1 C \/
       length (puf_reliabilities self) <> shape0 C
   end) /\
  (forall costs : list F,
      objective self state = Some costs -> length costs = shape0 state).
Proof.
  unfold objective, last_column.
  destruct (shape1 state) as [| c] eqn:Hs; cbn [bind].
  { split; [split; [intros _; now left | reflexivity] | discriminate]. }
  destruct (current_challenges self) as [C |]; cbn [bind].
  2:{ split; [split; [intros _; now right | reflexivity] | discriminate]. }
  destruct (matmul (columns_to (n self) state) (transpose f_zero C))
    as [D |] eqn:HD; cbn [bind].
  2:{ apply matmul_raises in HD.
      assert (HT : shape0 (transpose f_zero C) = shape1 C)
        by (unfold shape0, transpose; cbn [rows];
            now rewrite length_map, length_seq).
      rewrite HT in HD.
      split; [split; [intros _; right; now left | reflexivity]
             | discriminate]. }
  assert (HD1 : shape1 D = shape0 C) by (now apply matmul_shape1 in HD).
  assert (HD0 : shape0 D = shape0 state).
  { apply matmul_shape0 in HD. rewrite HD.
    unfold shape0, columns_to. cbn [rows]. apply length_map. }
  assert (HW : shape1 (columns_to (n self) state) = shape1 C).
  { destruct (Nat.eq_dec (shape1 (columns_to (n self) state)) (shape1 C))
      as [He | Hne]; [exact He | exfalso].
    assert (Hr : matmul (columns_to (n self) state) (transpose f_zero C)
                 = None).
    { apply matmul_raises. unfold shape0 at 1, transpose. cbn [rows].
      now rewrite length_map, length_seq. }
    congruence. }
  destruct (shape_indicators D (column f_zero state c)) as [Hx0 Hx1].
  destruct (tf_pearsonr _ _) as [corr |] eqn:Hcorr; cbn [bind].
  - split.
    + split; [discriminate |].
      intros [Hz | [Hw | Hy]]; [discriminate | contradiction |].
      assert (Hn : tf_pearsonr
                     (map2d of_bool
                        (reliabilities_MODEL D (column f_zero state c)))
                     (puf_reliabilities self) = None)
        by (apply tf_pearsonr_raises; now rewrite Hx0, HD1).
      congruence.
    + intros costs [= <-]. apply length_tf_pearsonr in Hcorr.
      now rewrite length_map, Hcorr, Hx1, HD0.
  - apply tf_pearsonr_raises in Hcorr. rewrite Hx0, HD1 in Hcorr.
    split; [split; [intros _; right; now right | reflexivity]
           | discriminate].
Qed.

End ObjectiveErrors.

(** ** The objective does not see the sign of a chain *)

Section ObjectiveSign.

Lemma length_negate_weights (n' : nat) (cand : list inum) :
  length (negate_weights n' cand) = length cand.
Proof.
  unfold negate_weights.
  rewrite length_app, length_map, <- length_app, firstn_skipn. reflexivity.
Qed.

Lemma firstn_negate_weights (n' : nat) (cand : list inum) :
  firstn n' (negate_weights n' cand) = map fneg (firstn n' cand).
Proof.
  unfold negate_weights.
  destruct (Nat.le_gt_cases n' (length cand)) as [Hle | Hgt].
  - rewrite firstn_app, length_map, length_firstn, Nat.min_l by exact Hle.
    rewrite Nat.sub_diag. cbn [firstn]. rewrite app_nil_r.
    apply firstn_all2. rewrite length_map, length_firstn. lia.
  - rewrite skipn_all2, app_nil_r by lia.
    apply firstn_all2. rewrite length_map, length_firstn. lia.
Qed.

Lemma nth_negate_weights (n' : nat) (cand : list inum) (d : inum) :
  nth n' (negate_weights n' cand) d = nth n' cand d.
Proof.
  unfold negate_weights.
  destruct (Nat.le_gt_cases n' (length cand)) as [Hle | Hgt].
  - rewrite app_nth2; rewrite length_map, length_firstn, Nat.min_l by lia;
      [| lia].
    rewrite Nat.sub_diag. rewrite <- (firstn_skipn n' cand) at 2.
    rewrite app_nth2; rewrite length_firstn, Nat.min_l by lia; [| lia].
    now rewrite Nat.sub_diag.
  - rewrite skipn_all2, app_nil_r by lia.
    rewrite !nth_overflow; trivial; [lia |].
    rewrite length_map, length_firstn. lia.
Qed.

Lemma indicator_bits_negate_weights (n' : nat) (C : ndarray2 inum)
  (cand : list inum) :
  indicator_bits n' C (negate_weights n' cand) = indicator_bits n' C cand.
Proof.
  unfold indicator_bits.
  rewrite firstn_negate_weights, nth_negate_weights.
  apply map_ext. intros c. f_equal.
  change (@fneg inum _) with ineg. rewrite dot_ineg_l.
  apply iabs_ineg.
Qed.

(** X2. The cost of a candidate does not depend on the sign of its weight
    vector: negating the [n] weights of any candidates of the population,
    their epsilon kept, leaves the result of the objective unchanged. *)
Theorem objective_sign_invariant (self : ReliabilityBasedCMAES inum)
  (state C : ndarray2 inum) (n' : nat) (sel : list inum -> bool) :
  current_challenges self = Some C ->
  wf C -> wf state ->
  n self = Z.of_nat n' -> shape1 C = n' -> shape1 state = S n' ->
  length (puf_reliabilities self) = shape0 C ->
  objective self
            {| shape1 := shape1 state;
               rows := map (fun cand => if sel cand
                                        then negate_weights n' cand
                                        else cand)
                           (rows state) |}
  = objective self state.
Proof.
  intros Hcur HwfC Hwfs Hn HC Hs Hy.
  rewrite (objective_value self state C n' Hcur HwfC Hwfs Hn HC Hs Hy).
  rewrite (objective_value self _ C n' Hcur HwfC); trivial.
  - cbn [rows]. rewrite map_map. f_equal. apply map_ext. intros cand.
    destruct (sel cand); [| reflexivity].
    unfold model_indicator. now rewrite indicator_bits_negate_weights.
  - unfold wf in *. cbn [rows shape1]. apply Forall_map.
    eapply Forall_impl; [| exact Hwfs].
    intros cand Hc. cbn beta.
    destruct (sel cand); [rewrite length_negate_weights |]; exact Hc.
Qed.

Lemma objective_sign_invariant_witness :
  objective (objective_learner (F := inum) 0 0)
            {| shape1 := 3;
               rows := map (negate_weights 2) (rows objective_state) |}
  = objective (objective_learner 0 0) objective_state.
Proof.
  apply (objective_sign_invariant
           (objective_learner 0 0) objective_state
           (map2d of_Z (challenges example_training_set)) 2
           (fun _ => true)
           eq_refl (proj1 example_shapes) (proj2 example_shapes)
           eq_refl eq_refl eq_refl).
  cbn [puf_reliabilities objective_learner].
  now rewrite length_reliabilities_PUF.
Defined.

End ObjectiveSign.

(** ** What [tf_pearsonr] computes *)

Lemma nth_error_map_seq {A : Type} (f : nat -> A) (len j : nat) :
  (j < len)%nat -> nth_error (map f (seq 0 len)) j = Some (f j).
Proof.
  intros Hj. rewrite nth_error_map, nth_error_seq.
  destruct (Nat.ltb_spec j len); [reflexivity | lia].
Qed.

Section PearsonColumns.
Context {F : Type} `{Float64 F}.

(** X3. On a well-formed matrix [x], [tf_pearsonr] raises exactly when
    [y] has not one entry per row of [x].  Otherwise it returns one value
    per column of [x], and the value of a column is computed from that
    column and [y] alone: the sum of the products of their deviations from
    the mean over the square root of the product of the sums of the squared
    deviations, in floating point.  So two matrices that share a column
    share its value: a candidate's coefficient does not depend on the rest
    of the population.  (No bound is stated: with rounding the value can
    leave the interval from -1 to 1.) *)
Theorem tf_pearsonr_columnwise (x : ndarray2 F) (y : list F) :
  wf x ->
  (tf_pearsonr x y = None <-> length y <> shape0 x) /\
  (length y = shape0 x ->
   exists cs : list F,
     tf_pearsonr x y = Some cs /\
     length cs = shape1 x /\
     (forall j : nat,
         j < shape1 x ->
         nth_error cs j = Some (tf_coefficient (column f_zero x j) y)) /\
     (forall (x' : ndarray2 F) (cs' : list F) (j j' : nat),
         wf x' -> tf_pearsonr x' y = Some cs' ->
         j < shape1 x -> j' < shape1 x' ->
         column f_zero x' j' = column f_zero x j ->
         nth_error cs' j' = nth_error cs j)).
Proof.
  intros Hwf. split; [apply tf_pearsonr_raises |].
  intros Hlen. eexists. split; [now apply tf_pearsonr_columns |].
  split; [now rewrite length_map, length_seq |]. split.
  - intros j Hj.
    now apply (nth_error_map_seq
                 (fun j => tf_coefficient (column f_zero x j) y)).
  - intros x' cs' j j' Hwf' Hcs' Hj Hj' Hcol.
    assert (Hlen' : length y = shape0 x').
    { destruct (Nat.eq_dec (length y) (shape0 x')) as [E | E]; [exact E |].
      apply tf_pearsonr_raises in E. congruence. }
    rewrite (tf_pearsonr_columns x' y Hwf' Hlen') in Hcs'.
    injection Hcs' as <-.
    rewrite (nth_error_map_seq
               (fun j => tf_coefficient (column f_zero x' j) y) _ _ Hj').
    rewrite (nth_error_map_seq
               (fun j => tf_coefficient (column f_zero x j) y) _ _ Hj).
    now rewrite Hcol.
Qed.

End PearsonColumns.

(** In binary64: the column (0, 0, 1) and the vector (2.5, 2.5, 0) are
    exactly anticorrelated, and the value computed for them is below -1. *)
Lemma tf_pearsonr_columnwise_witness :
  exists cs : list float,
    tf_pearsonr rounding_matrix rounding_vector = Some cs /\
    length cs = 1 /\
    nth_error cs 0
    = Some (tf_coefficient [0; 0; 1]%float rounding_vector) /\
    tf_coefficient [0; 0; 1]%float rounding_vector
    = (-0x1.0000000000001p+0)%float /\
    PrimFloat.ltb (tf_coefficient [0; 0; 1]%float rounding_vector)
                  (-1)%float = true.
Proof.
  assert (Hwf : wf rounding_matrix) by (repeat constructor).
  destruct (proj2 (tf_pearsonr_columnwise rounding_matrix rounding_vector
                     Hwf) eq_refl) as [cs [Hcs [Hlen [Hj _]]]].
  exists cs. split; [exact Hcs |]. split; [exact Hlen |].
  split; [exact (Hj 0 ltac:(cbn; lia)) |].
  split; reflexivity.
Defined.

(** ** The window of the stagnation rule *)

Section WindowEdges.
Context {F : Type} `{Float64 F}.

Lemma slice_from_all {A : Type} (w : Z) (h : list A) :
  (w = 0 \/ Z.of_nat (length h) <= w)%Z -> slice_from (- w) h = h.
Proof.
  intros Hw. unfold slice_from.
  destruct (- w <? 0)%Z eqn:E.
  - apply Z.ltb_lt in E. replace (Z.to_nat _) with 0%nat by lia. reflexivity.
  - apply Z.ltb_ge in E. replace (Z.to_nat _) with 0%nat by lia. reflexivity.
Qed.

Lemma slice_from_drop {A : Type} (w : Z) (h : list A) :
  (w < 0)%Z -> slice_from (- w) h = skipn (Z.to_nat (- w)) h.
Proof.
  intros Hw. unfold slice_from.
  replace (- w <? 0)%Z with false by (symmetry; apply Z.ltb_ge; lia).
  destruct (Z.le_gt_cases (- w) (Z.of_nat (length h))) as [Hle | Hgt].
  - now rewrite Z.min_l by exact Hle.
  - rewrite Z.min_r, Nat2Z.id by lia.
    now rewrite skipn_all, skipn_all2 by lia.
Qed.

(** X6. The window [hist[-abort_iter:]] at its edges.  With
    [abort_iter = 0] the window is the whole history, as with any
    [abort_iter] of at least its length.  With a negative [abort_iter] the
    window is the history without its first [-abort_iter] entries, and on a
    history of at least 100 entries the predicate raises exactly when that
    leaves nothing.  On fewer than 100 entries the predicate returns
    [False] and never raises. *)
Theorem is_iteration_stagnated_window_edges
  (self self' : ReliabilityBasedCMAES F) (h : list F) :
  abort_delta self' = abort_delta self ->
  (abort_iter self = 0%Z ->
   (Z.of_nat (length h) <= abort_iter self')%Z ->
   is_iteration_stagnated self h = is_iteration_stagnated self' h) /\
  ((abort_iter self < 0)%Z -> 100 <= length h ->
   (is_iteration_stagnated self h = None <->
    (Z.of_nat (length h) <= - abort_iter self)%Z)) /\
  (length h < 100 -> is_iteration_stagnated self h = Some false).
Proof.
  intros Hd. split; [| split].
  - intros H0 Hlen. unfold is_iteration_stagnated.
    rewrite !slice_from_all, Hd by auto. reflexivity.
  - intros Hneg Hlen. unfold is_iteration_stagnated.
    replace (length h <? 100) with false
      by (symmetry; apply Nat.ltb_ge; exact Hlen).
    rewrite slice_from_drop by exact Hneg.
    destruct (skipn (Z.to_nat (- abort_iter self)) h) as [| a l] eqn:Hs.
    + cbn [py_max bind]. split; [intros _ | reflexivity].
      apply (f_equal (@length F)) in Hs. rewrite length_skipn in Hs.
      cbn [length] in Hs. lia.
    + cbn [py_max py_min bind]. split.
      * destruct (fltb _ _); discriminate.
      * intros Hle. exfalso.
        rewrite skipn_all2 in Hs by lia. discriminate.
  - intros Hlen. unfold is_iteration_stagnated.
    now replace (length h <? 100) with true
      by (symmetry; apply Nat.ltb_lt; exact Hlen).
Qed.

End WindowEdges.

Lemma is_iteration_stagnated_window_edges_witness :
  is_iteration_stagnated (stagnation_learner 0 (Fin 1))
                         (map Fin improving_history)
  = is_iteration_stagnated (stagnation_learner 101 (Fin 1))
                           (map Fin improving_history).
Proof.
  apply (is_iteration_stagnated_window_edges
           (stagnation_learner 0 (Fin 1)) (stagnation_learner 101 (Fin 1))
           (map Fin improving_history) eq_refl).
  - reflexivity.
  - unfold improving_history. rewrite !length_map, length_seq. simpl. lia.
Defined.

Section WindowSize.
Local Open Scope R_scope.

Lemma In_skipn {A : Type} (j : nat) (l : list A) (x : A) :
  In x (skipn j l) -> In x l.
Proof.
  intros Hx. rewrite <- (firstn_skipn j l). apply in_or_app. now right.
Qed.

Lemma spread_skipn (j : nat) (l : list R) :
  skipn j l <> [] -> spread (skipn j l) <= spread l.
Proof.
  intros Hne.
  assert (Hl : l <> []) by (intros ->; apply Hne; now destruct j).
  destruct (Rmaximum_greatest Hne) as [Hmax _].
  destruct (Rminimum_least Hne) as [Hmin _].
  destruct (Rmaximum_greatest Hl) as [_ Hub].
  destruct (Rminimum_least Hl) as [_ Hlb].
  rewrite Forall_forall in Hub, Hlb.
  pose proof (Hub _ (In_skipn j l _ Hmax)).
  pose proof (Hlb _ (In_skipn j l _ Hmin)).
  unfold spread. lra.
Qed.

Lemma recent_recent (w w' : Z) (h : list R) :
  (1 <= w' <= w)%Z ->
  recent w' h
  = skipn (length h - Z.to_nat w' - (length h - Z.to_nat w)) (recent w h).
Proof.
  intros Hw. unfold recent. rewrite skipn_skipn. f_equal. lia.
Qed.

Lemma below_le (x x' : R) (y : inum) : x' <= x -> below x y -> below x' y.
Proof. destruct y; simpl; trivial. lra. Qed.

Lemma is_iteration_stagnated_true_long (self : ReliabilityBasedCMAES inum)
  (h : list inum) :
  is_iteration_stagnated self h = Some true -> (100 <= length h)%nat.
Proof.
  intros Ht. destruct (Nat.lt_ge_cases (length h) 100) as [Hlt | Hge];
    [| exact Hge].
  rewrite is_iteration_stagnated_short in Ht by exact Hlt. discriminate.
Qed.

(** X7. A shorter window is a weaker criterion: on a history of finite
    costs, if the predicate returns [True] with a window size, it returns
    [True] with every smaller window size of at least one, the threshold
    being the same. *)
Theorem is_iteration_stagnated_window_monotone
  (self self' : ReliabilityBasedCMAES inum) (h : list R) :
  abort_delta self' = abort_delta self ->
  (1 <= abort_iter self' <= abort_iter self)%Z ->
  is_iteration_stagnated self (map Fin h) = Some true ->
  is_iteration_stagnated self' (map Fin h) = Some true.
Proof.
  intros Hd Hw Ht.
  assert (Hlen : (100 <= length h)%nat)
    by (apply is_iteration_stagnated_true_long in Ht;
        now rewrite length_map in Ht).
  rewrite is_iteration_stagnated_long in Ht by (lia || exact Hlen).
  rewrite is_iteration_stagnated_long by (lia || exact Hlen).
  injection Ht as Ht. f_equal. rewrite Hd.
  apply iltb_below. apply iltb_below in Ht.
  eapply below_le; [| exact Ht].
  rewrite (recent_recent (abort_iter self) (abort_iter self') h Hw).
  apply spread_skipn.
  rewrite <- (recent_recent (abort_iter self) (abort_iter self') h Hw).
  apply recent_nonempty; [lia |].
  destruct h; [simpl in Hlen; lia | discriminate].
Qed.

Lemma improving_history_stagnated :
  is_iteration_stagnated (stagnation_learner 10 (Fin (1 / 2)))
                         (map Fin improving_history) = Some true.
Proof.
  rewrite is_iteration_stagnated_long.
  - f_equal. apply iltb_Fin_true.
    rewrite spread_decreasing
      by (apply strictly_decreasing_skipn, improving_history_decreasing).
    cbn [abort_iter stagnation_learner].
    rewrite improving_history_recent. cbn [seq map hd last].
    simpl Z.sub. lra.
  - simpl. lia.
  - unfold improving_history. rewrite length_map, length_seq. lia.
Qed.

Lemma is_iteration_stagnated_window_monotone_witness :
  is_iteration_stagnated (stagnation_learner 3 (Fin (1 / 2)))
                         (map Fin improving_history) = Some true.
Proof.
  apply (is_iteration_stagnated_window_monotone
           (stagnation_learner 10 (Fin (1 / 2)))
           (stagnation_learner 3 (Fin (1 / 2)))
           improving_history eq_refl).
  - simpl. lia.
  - exact improving_history_stagnated.
Defined.

Lemma spread_constant (l : list R) : all_agree l -> spread l = 0.
Proof.
  intros Hall. destruct l as [| a l]; [unfold spread; simpl; lra |].
  destruct (@Rmaximum_greatest (a :: l)) as [Hmax _]; [discriminate |].
  destruct (@Rminimum_least (a :: l)) as [Hmin _]; [discriminate |].
  unfold spread. rewrite (Hall _ _ Hmax Hmin). lra.
Qed.

(** X8. A history of at least 100 finite costs whose last [abort_iter]
    entries are all equal triggers the rule exactly when the threshold is
    positive: the predicate returns [True] if [0 < abort_delta] and [False]
    otherwise. *)
Theorem is_iteration_stagnated_constant_window
  (self : ReliabilityBasedCMAES inum) (h : list R) :
  (1 <= abort_iter self)%Z ->
  (100 <= length h)%nat ->
  all_agree (recent (abort_iter self) h) ->
  exists b : bool,
    is_iteration_stagnated self (map Fin h) = Some b /\
    (b = true <-> below 0 (abort_delta self)).
Proof.
  intros Hw Hlen Hall. eexists.
  split; [apply is_iteration_stagnated_long; assumption |].
  rewrite (spread_constant _ Hall). apply iltb_below.
Qed.

Lemma is_iteration_stagnated_constant_window_witness :
  exists b : bool,
    is_iteration_stagnated (stagnation_learner 10 (Fin (1 / 1000)))
                           (map Fin flat_history) = Some b /\
    (b = true <-> below 0 (Fin (1 / 1000))).
Proof.
  apply (is_iteration_stagnated_constant_window
           (stagnation_learner 10 (Fin (1 / 1000))) flat_history).
  - simpl. lia.
  - unfold flat_history. rewrite repeat_length. lia.
  - intros a b Ha Hb. apply In_skipn in Ha, Hb.
    apply repeat_spec in Ha, Hb. congruence.
Defined.

End WindowSize.

(** ** The stagnation rule in floating point *)

(** *** The comparison of binary64 numbers is a strict order *)

Lemma SFltb_trans (a b c : spec_float) :
  SFltb a b = true -> SFltb b c = true -> SFltb a c = true.
Proof.
  unfold SFltb, SFcompare.
  destruct a as [sa | sa | | sa ma ea], b as [sb | sb | | sb mb eb],
    c as [sc | sc | | sc mc ec];
    try destruct sa; try destruct sb; try destruct sc;
    try discriminate; try reflexivity;
    destruct (Z.compare_spec ea eb), (Z.compare_spec eb ec),
      (Z.compare_spec ea ec); subst; try lia; try discriminate;
      try reflexivity;
    fold (Pos.compare ma mb); fold (Pos.compare mb mc);
    fold (Pos.compare ma mc);
    destruct (Pos.compare_spec ma mb), (Pos.compare_spec mb mc),
      (Pos.compare_spec ma mc); subst; simpl; try lia; try discriminate;
      try reflexivity.
Qed.

Lemma SFltb_irrefl (a : spec_float) : SFltb a a = false.
Proof.
  unfold SFltb, SFcompare.
  destruct a as [sa | sa | | sa ma ea]; try destruct sa; try reflexivity;
    rewrite Z.compare_refl; fold (Pos.compare ma ma);
    rewrite Pos.compare_refl; reflexivity.
Qed.

Lemma float_strict_order : strict_order (F := float).
Proof.
  split.
  - intros a. cbn [fltb prim_float64]. rewrite ltb_spec.
    apply SFltb_irrefl.
  - intros a b c. cbn [fltb prim_float64]. rewrite !ltb_spec.
    apply SFltb_trans.
Qed.

Section FloatStagnation.
Context {F : Type} `{Float64 F}.
Hypothesis fltb_order : strict_order (F := F).

Lemma fltb_irrefl (a : F) : fltb a a = false.
Proof. apply fltb_order. Qed.

Lemma fltb_trans (a b c : F) :
  fltb a b = true -> fltb b c = true -> fltb a c = true.
Proof. apply fltb_order. Qed.

Lemma fltb_asym (a b : F) : fltb a b = true -> fltb b a = false.
Proof.
  intros Hab. destruct (fltb b a) eqn:Hba; [| reflexivity].
  rewrite <- (fltb_irrefl a). symmetry. now apply fltb_trans with b.
Qed.

(** The scan of [max]: the item kept is among the items seen, and none of
    them compares greater. *)
Lemma fold_max_greatest (l : list F) :
  forall (seen : list F) (m : F),
    In m seen -> Forall (fun x => fltb m x = false) seen ->
    greatest (seen ++ l)
             (fold_left (fun m x => if fgtb x m then x else m) l m).
Proof.
  induction l as [| x l IH]; intros seen m Hin Hall; cbn [fold_left].
  - rewrite app_nil_r. now split.
  - replace (seen ++ x :: l) with ((seen ++ [x]) ++ l)
      by (now rewrite <- app_assoc).
    unfold fgtb. destruct (fltb m x) eqn:Hmx; apply IH.
    + apply in_or_app. right. now left.
    + apply Forall_app. split; [| constructor; [apply fltb_irrefl |
                                               constructor]].
      eapply Forall_impl; [| exact Hall]. intros y Hy. cbv beta in Hy.
      destruct (fltb x y) eqn:Hxy; [| reflexivity].
      rewrite <- Hy. symmetry. now apply fltb_trans with x.
    + apply in_or_app. now left.
    + apply Forall_app. split; [exact Hall |]. now repeat constructor.
Qed.

Lemma fold_min_least (l : list F) :
  forall (seen : list F) (m : F),
    In m seen -> Forall (fun x => fltb x m = false) seen ->
    least (seen ++ l)
          (fold_left (fun m x => if fltb x m then x else m) l m).
Proof.
  induction l as [| x l IH]; intros seen m Hin Hall; cbn [fold_left].
  - rewrite app_nil_r. now split.
  - replace (seen ++ x :: l) with ((seen ++ [x]) ++ l)
      by (now rewrite <- app_assoc).
    destruct (fltb x m) eqn:Hxm; apply IH.
    + apply in_or_app. right. now left.
    + apply Forall_app. split; [| constructor; [apply fltb_irrefl |
                                               constructor]].
      eapply Forall_impl; [| exact Hall]. intros y Hy. cbv beta in Hy.
      destruct (fltb y x) eqn:Hyx; [| reflexivity].
      rewrite <- Hy. symmetry. now apply fltb_trans with x.
    + apply in_or_app. now left.
    + apply Forall_app. split; [exact Hall |]. now repeat constructor.
Qed.

Lemma py_max_greatest (w : list F) :
  w <> [] -> exists hi : F, py_max w = Some hi /\ greatest w hi.
Proof.
  destruct w as [| a l]; [congruence | intros _].
  eexists. split; [reflexivity |].
  apply (fold_max_greatest l [a] a); [now left |].
  constructor; [apply fltb_irrefl | constructor].
Qed.

Lemma py_min_least (w : list F) :
  w <> [] -> exists lo : F, py_min w = Some lo /\ least w lo.
Proof.
  destruct w as [| a l]; [congruence | intros _].
  eexists. split; [reflexivity |].
  apply (fold_min_least l [a] a); [now left |].
  constructor; [apply fltb_irrefl | constructor].
Qed.

Lemma is_iteration_stagnated_window (self : ReliabilityBasedCMAES F)
  (h : list F) :
  (0 <= abort_iter self)%Z ->
  slice_from (- abort_iter self) h
  = if (abort_iter self =? 0)%Z then h else recent (abort_iter self) h.
Proof.
  intros Hw. destruct (Z.eqb_spec (abort_iter self) 0) as [E | E].
  - apply slice_from_all. now left.
  - apply slice_from_recent. lia.
Qed.

(** C4 (amended). For every history, every threshold and every window size
    [abort_iter >= 0]: the predicate raises nothing; on fewer than 100
    entries it returns [False]; on at least 100 entries it returns [True]
    exactly when [abs(hi - lo)], computed in floating point, is strictly
    below [abort_delta], where [hi] and [lo] are the entries that [max] and
    [min] find in the window: an entry that no entry of the window compares
    greater than, and one that no entry compares less than.  The window is
    the last [abort_iter] entries when [abort_iter >= 1], and the whole
    history when [abort_iter = 0].  The difference [hi - lo] is rounded
    before it is compared: the rule is not the comparison of the exact
    spread with the threshold. *)
Theorem is_iteration_stagnated_correct (self : ReliabilityBasedCMAES F)
  (h : list F) :
  (0 <= abort_iter self)%Z ->
  let w := if (abort_iter self =? 0)%Z then h
           else recent (abort_iter self) h in
  exists b : bool,
    is_iteration_stagnated self h = Some b /\
    (length h < 100 -> b = false) /\
    (100 <= length h ->
     exists hi lo : F,
       py_max w = Some hi /\ py_min w = Some lo /\
       greatest w hi /\ least w lo /\
       b = fltb (fabs (fsub hi lo)) (abort_delta self)).
Proof.
  intros Hw w. unfold is_iteration_stagnated.
  rewrite (is_iteration_stagnated_window self h Hw). fold w.
  destruct (Nat.ltb_spec (length h) 100) as [Hlt | Hge].
  - exists false. split; [reflexivity |]. split; [reflexivity | lia].
  - assert (Hne : w <> []).
    { unfold w. destruct (Z.eqb_spec (abort_iter self) 0) as [E | E].
      - destruct h; [simpl in Hge; lia | discriminate].
      - apply recent_nonempty; [lia |].
        destruct h; [simpl in Hge; lia | discriminate]. }
    destruct (py_max_greatest w Hne) as [hi [Hhi Hgr]].
    destruct (py_min_least w Hne) as [lo [Hlo Hle]].
    rewrite Hhi, Hlo. cbn [bind].
    exists (fltb (fabs (fsub hi lo)) (abort_delta self)).
    split; [now destruct (fltb _ _) |].
    split; [lia |]. intros _. now exists hi, lo.
Qed.

(** *** Improving histories *)

Lemma improving_tail (a : F) (l : list F) :
  improving (a :: l) = true -> improving l = true.
Proof.
  destruct l as [| b l]; [reflexivity |].
  cbn [improving]. intros Hi. now apply andb_true_iff in Hi.
Qed.

Lemma improving_skipn (j : nat) (h : list F) :
  improving h = true -> improving (skipn j h) = true.
Proof.
  revert h. induction j as [| j IH]; intros h Hh; [exact Hh |].
  destruct h as [| a h]; [exact Hh |].
  cbn [skipn]. apply IH. now apply improving_tail with a.
Qed.

Lemma improving_below (a : F) (l : list F) :
  improving (a :: l) = true -> Forall (fun x => fltb x a = true) l.
Proof.
  revert a. induction l as [| b l IH]; intros a Hi; [constructor |].
  cbn [improving] in Hi. apply andb_true_iff in Hi.
  destruct Hi as [Hba Hi]. constructor; [exact Hba |].
  eapply Forall_impl; [| apply (IH b Hi)].
  intros x Hx. now apply fltb_trans with b.
Qed.

Lemma fold_max_first (l : list F) (a : F) :
  Forall (fun x => fltb x a = true) l ->
  fold_left (fun m x => if fgtb x m then x else m) l a = a.
Proof.
  induction 1 as [| x l Hx _ IH]; cbn [fold_left]; [reflexivity |].
  change (fgtb x a) with (fltb a x). now rewrite (fltb_asym x a Hx).
Qed.

Lemma fold_min_last (l : list F) (a : F) :
  improving (a :: l) = true ->
  fold_left (fun m x => if fltb x m then x else m) l a
  = last (a :: l) f_zero.
Proof.
  revert a. induction l as [| b l IH]; intros a Hi; [reflexivity |].
  cbn [improving] in Hi. apply andb_true_iff in Hi.
  destruct Hi as [Hba Hi].
  cbn [fold_left]. rewrite Hba, (IH b Hi). reflexivity.
Qed.

(** C5 (amended). On a strictly improving history of at least 100 costs,
    each comparing below the one before it, and with a window size of at
    least one, [max] and [min] find the oldest and the newest entry of the
    window, and the predicate returns [True] exactly when
    [abs(oldest - newest)], computed in floating point, is strictly below
    [abort_delta]: an improving history does trigger the rule when its
    improvement over the window is small. *)
Theorem is_iteration_stagnated_improving (self : ReliabilityBasedCMAES F)
  (h : list F) :
  improving h = true ->
  100 <= length h ->
  (1 <= abort_iter self)%Z ->
  let w := recent (abort_iter self) h in
  py_max w = Some (hd f_zero w) /\
  py_min w = Some (last w f_zero) /\
  is_iteration_stagnated self h
  = Some (fltb (fabs (fsub (hd f_zero w) (last w f_zero)))
               (abort_delta self)).
Proof.
  intros Hi Hlen Hw w.
  assert (Hiw : improving w = true) by (apply improving_skipn; exact Hi).
  assert (Hne : w <> []).
  { apply recent_nonempty; [exact Hw |].
    destruct h; [simpl in Hlen; lia | discriminate]. }
  destruct w as [| a l] eqn:Ew; [congruence |].
  assert (Hmax : py_max (a :: l) = Some a).
  { cbn [py_max]. f_equal. apply fold_max_first.
    now apply improving_below. }
  assert (Hmin : py_min (a :: l) = Some (last (a :: l) f_zero)).
  { cbn [py_min]. f_equal. now apply fold_min_last. }
  split; [exact Hmax |]. split; [exact Hmin |].
  unfold is_iteration_stagnated.
  replace (length h <? 100) with false
    by (symmetry; apply Nat.ltb_ge; exact Hlen).
  rewrite (slice_from_recent h Hw). fold w. rewrite Ew, Hmax, Hmin.
  cbn [bind hd]. now destruct (fltb _ _).
Qed.

End FloatStagnation.

(** In binary64, on 100 costs whose last ten are 1: [max] and [min] find
    1 and 1, and the rule holds for the threshold 1. *)
Lemma is_iteration_stagnated_correct_witness :
  exists b : bool,
    is_iteration_stagnated (float_stagnation_learner 10 1%float)
                           rounded_history = Some b /\
    (length rounded_history < 100 -> b = false) /\
    (100 <= length rounded_history ->
     exists hi lo : float,
       py_max (recent 10 rounded_history) = Some hi /\
       py_min (recent 10 rounded_history) = Some lo /\
       greatest (recent 10 rounded_history) hi /\
       least (recent 10 rounded_history) lo /\
       b = fltb (fabs (fsub hi lo)) 1%float).
Proof.
  apply (is_iteration_stagnated_correct float_strict_order
           (float_stagnation_learner 10 1%float) rounded_history).
  cbn. lia.
Defined.

(** C4 fails as stated: the last two of the 100 costs are 1 and 2^-60, so
    the spread of the window of size 2 is 1 - 2^-60, strictly below the
    threshold 1, and the rule of the claim, applied to the exact numbers,
    holds; but the difference computed in binary64 is 1, and the predicate
    returns [False]. *)
Lemma is_iteration_stagnated_correct_counterexample :
  length rounded_history = 100%nat /\
  recent 2 rounded_history = [1%float; 0x1p-60%float] /\
  PrimFloat.ltb 0%float 0x1p-60%float = true /\
  PrimFloat.sub 1%float 0x1p-60%float = 1%float /\
  is_iteration_stagnated (float_stagnation_learner 2 1%float)
                         rounded_history = Some false /\
  is_iteration_stagnated (stagnation_learner 2 (Fin 1))
                         (map Fin exact_history) = Some true.
Proof.
  repeat split.
  rewrite is_iteration_stagnated_long.
  - f_equal. apply iltb_Fin_true.
    change (Rmax 1 (/ 2 ^ 60) - Rmin 1 (/ 2 ^ 60) < 1)%R.
    assert (Hpos : (0 < / 2 ^ 60 < 1)%R).
    { split; [apply Rinv_0_lt_compat; apply pow_lt; lra |].
      rewrite <- Rinv_1. apply Rinv_lt_contravar; [| ].
      - rewrite Rmult_1_l. apply pow_lt. lra.
      - apply Rlt_pow_R1; [lra | lia]. }
    rewrite Rmax_left, Rmin_right by lra. lra.
  - simpl. lia.
  - unfold exact_history. rewrite length_app, repeat_length. simpl. lia.
Qed.

(** In binary64, on the costs 200, 199, ..., 100 with a window of 10: the
    oldest entry of the window is 109, the newest 100, and the rule holds
    for the threshold 10 since 9 < 10. *)
Lemma is_iteration_stagnated_improving_witness :
  py_max (recent 10 float_improving_history) = Some 109%float /\
  py_min (recent 10 float_improving_history) = Some 100%float /\
  is_iteration_stagnated (float_stagnation_learner 10 10%float)
                         float_improving_history
  = Some true.
Proof.
  exact (is_iteration_stagnated_improving float_strict_order
           (float_stagnation_learner 10 10%float) float_improving_history
           eq_refl ltac:(cbn; lia) ltac:(cbn; lia)).
Defined.

(** ** The canonical sign *)

Lemma flip_chain_sign (w w' : list inum) :
  flip_chain w = Some w' -> fltb (hd f_zero w') f_zero = false.
Proof.
  destruct w as [| w0 rest]; [discriminate |].
  destruct (iltb w0 (Fin 0)) eqn:E.
  - rewrite (@flip_chain_negative w0 rest E). intros [= <-].
    cbn [map hd]. now apply iltb_zero_neg.
  - rewrite (@flip_chain_not_negative w0 rest E). intros [= <-]. exact E.
Qed.

(** X9. The sign canonicalization raises exactly on the empty vector.
    Otherwise it returns the vector or its negation, of the same length,
    and the first element of the result is not negative. *)
Theorem flip_chain_result (w : list inum) :
  (flip_chain w = None <-> w = []) /\
  (forall w' : list inum,
      flip_chain w = Some w' ->
      (w' = w \/ w' = map fneg w) /\
      length w' = length w /\
      fltb (hd f_zero w') f_zero = false).
Proof.
  destruct w as [| w0 rest].
  - split; [split; reflexivity | discriminate].
  - split; [split; discriminate |].
    intros w' Hw'. pose proof (flip_chain_sign _ _ Hw') as Hsign.
    revert Hw'. destruct (iltb w0 (Fin 0)) eqn:E.
    + rewrite (@flip_chain_negative w0 rest E). intros [= <-].
      split; [now right | split; [apply (length_map ineg (w0 :: rest)) |]].
      exact Hsign.
    + rewrite (@flip_chain_not_negative w0 rest E). intros [= <-].
      split; [now left | split; [reflexivity | exact Hsign]].
Qed.

(** ** The loop of [learn] *)

Section LearnLoop.
Context {F : Type} `{Float64 F}.
Variable LTFArray_eval : LTFArray F -> ndarray2 Z -> list Z.

(** A pass changes no attribute of the learner but [current_challenges] *)
Lemma learn_body_frame (s s' : learn_state F) (best : list F) :
  learn_body s best = Some s' ->
  (forall c : ndarray2 F,
      set_current_challenges (self_ s') c
      = set_current_challenges (self_ s) c) /\
  (exists current : ndarray2 Z,
      middle_slice (linearized_challenges (self_ s)) (n_chain s)
      = Some current /\
      current_challenges (self_ s') = Some (map2d of_Z current)) /\
  ((pool s' = pool s /\ n_chain s' = n_chain s) \/
   (exists w : list F,
       pool s' = pool s ++ [w] /\ n_chain s' = (n_chain s + 1)%Z)).
Proof.
  unfold learn_body.
  destruct (middle_slice _ _) as [current |]; cbn [bind]; [| discriminate].
  destruct (flip_chain _) as [w |]; cbn [bind]; [| discriminate].
  destruct (correlated_to_pool w (pool s)) as [[|] |]; cbn [bind];
    try discriminate; intros [= <-]; cbn [self_ pool n_chain];
    (split; [reflexivity | split; [now exists current |]]).
  - now left.
  - right. now exists w.
Qed.

Lemma set_current_challenges_k (a b : ReliabilityBasedCMAES F) :
  (forall c, set_current_challenges a c = set_current_challenges b c) ->
  k a = k b /\ transform a = transform b /\ combiner a = combiner b /\
  linearized_challenges a = linearized_challenges b /\
  puf_reliabilities a = puf_reliabilities b /\
  training_set a = training_set b /\ n a = n b.
Proof.
  intros Heq.
  specialize (Heq {| shape1 := 0; rows := [] |}).
  repeat split.
  - exact (f_equal (@k F) Heq).
  - exact (f_equal (@transform F) Heq).
  - exact (f_equal (@combiner F) Heq).
  - exact (f_equal (@linearized_challenges F) Heq).
  - exact (f_equal (@puf_reliabilities F) Heq).
  - exact (f_equal (@training_set F) Heq).
  - exact (f_equal (@n F) Heq).
Qed.

Lemma learn_reaches_added (s0 s : learn_state F) :
  learn_reaches s0 s ->
  (forall c : ndarray2 F,
      set_current_challenges (self_ s) c
      = set_current_challenges (self_ s0) c) /\
  exists added : list (list F),
    pool s = pool s0 ++ added /\
    n_chain s = (n_chain s0 + Z.of_nat (length added))%Z.
Proof.
  induction 1 as [| s s' best _ [IHf [added [IHp IHn]]] _ Hbody].
  - split; [reflexivity |]. exists []. rewrite app_nil_r.
    split; [reflexivity | simpl; lia].
  - destruct (learn_body_frame s s' best Hbody)
      as [Hf [_ [[Hp Hn] | [w [Hp Hn]]]]].
    + split; [intros c; now rewrite Hf |].
      exists added. now rewrite Hp, Hn.
    + split; [intros c; now rewrite Hf |].
      exists (added ++ [w]). rewrite Hp, Hn, IHp, IHn, app_assoc.
      split; [reflexivity |]. rewrite length_app. simpl. lia.
Qed.

(** X10. Whatever the optimizer returns, the loop of [learn] assigns no
    attribute of the learner but [current_challenges]: the training set,
    [k], [n], the transform, the combiner, the parameters, the counters,
    the reliabilities of the PUF and the linearized challenges stay as the
    constructor left them.  (The generator [self.prng] is advanced by two
    draws in every pass; its state is not part of the embedding, and
    nothing is stated about it.)  And the loop only appends to the pool: the
    chains accepted so far stay in place unchanged, and [n_chain] counts
    the chains appended. *)
Theorem learn_reaches_frame (s0 s : learn_state F) :
  learn_reaches s0 s ->
  (training_set (self_ s) = training_set (self_ s0) /\
   k (self_ s) = k (self_ s0) /\ n (self_ s) = n (self_ s0) /\
   transform (self_ s) = transform (self_ s0) /\
   combiner (self_ s) = combiner (self_ s0) /\
   pop_size (self_ s) = pop_size (self_ s0) /\
   abort_delta (self_ s) = abort_delta (self_ s0) /\
   abort_iter (self_ s) = abort_iter (self_ s0) /\
   chains_learned (self_ s) = chains_learned (self_ s0) /\
   num_iterations (self_ s) = num_iterations (self_ s0) /\
   num_abortions (self_ s) = num_abortions (self_ s0) /\
   num_learned (self_ s) = num_learned (self_ s0) /\
   puf_reliabilities (self_ s) = puf_reliabilities (self_ s0) /\
   linearized_challenges (self_ s) = linearized_challenges (self_ s0)) /\
  exists added : list (list F),
    pool s = pool s0 ++ added /\
    n_chain s = (n_chain s0 + Z.of_nat (length added))%Z.
Proof.
  intros Hr. destruct (learn_reaches_added s0 s Hr) as [Hf Hadd].
  split; [| exact Hadd].
  specialize (Hf {| shape1 := 0; rows := [] |}).
  repeat split.
  - exact (f_equal (@training_set F) Hf).
  - exact (f_equal (@k F) Hf).
  - exact (f_equal (@n F) Hf).
  - exact (f_equal (@transform F) Hf).
  - exact (f_equal (@combiner F) Hf).
  - exact (f_equal (@pop_size F) Hf).
  - exact (f_equal (@abort_delta F) Hf).
  - exact (f_equal (@abort_iter F) Hf).
  - exact (f_equal (@chains_learned F) Hf).
  - exact (f_equal (@num_iterations F) Hf).
  - exact (f_equal (@num_abortions F) Hf).
  - exact (f_equal (@num_learned F) Hf).
  - exact (f_equal (@puf_reliabilities F) Hf).
  - exact (f_equal (@linearized_challenges F) Hf).
Qed.

Lemma learn_loop_exit (searches : list (list F)) :
  forall s s' : learn_state F,
    learn_loop s searches = Some (Some s') ->
    learn_reaches s s' /\
    (n_chain s' <? k (self_ s'))%Z = false /\
    (n_chain s' - n_chain s <= Z.of_nat (length searches))%Z /\
    ((n_chain s <= k (self_ s))%Z -> n_chain s' = k (self_ s)).
Proof.
  induction searches as [| best searches IH]; intros s s';
    cbn [learn_loop]; destruct (n_chain s <? k (self_ s))%Z eqn:Hk;
    try discriminate.
  - intros [= <-]. apply Z.ltb_ge in Hk.
    repeat split; [apply reaches_start | now apply Z.ltb_ge | simpl; lia
                  | lia].
  - destruct (learn_body s best) as [s1 |] eqn:Hbody; cbn [bind];
      [| discriminate].
    intros Hloop. destruct (IH s1 s' Hloop) as [Hr [Hex [Hlen Hfin]]].
    destruct (learn_body_frame s s1 best Hbody) as [Hf [_ Hstep]].
    destruct (set_current_challenges_k _ _ Hf) as [Hkk _].
    apply Z.ltb_lt in Hk.
    assert (Hreach : learn_reaches s s').
    { clear - Hr Hbody Hk. induction Hr as [| a b best' _ IHr Hka Hb].
      - eapply reaches_pass; [apply reaches_start | | exact Hbody].
        now apply Z.ltb_lt.
      - eapply reaches_pass; [exact IHr | exact Hka | exact Hb]. }
    repeat split; trivial.
    + cbn [length]. destruct Hstep as [[_ Hn] | [w [_ Hn]]]; lia.
    + intros _. rewrite <- Hkk. apply Hfin.
      destruct Hstep as [[_ Hn] | [w [_ Hn]]]; lia.
  - intros [= <-]. apply Z.ltb_ge in Hk.
    repeat split; [apply reaches_start | now apply Z.ltb_ge | lia | lia].
Qed.

Lemma learn_finish_shape (self : ReliabilityBasedCMAES F)
  (chains : list (list F)) (model : LTFArray F) :
  learn_finish LTFArray_eval self chains = Some model ->
  shape0 (weight_array model) = length chains /\
  ltf_transform model = transform self /\
  ltf_combiner model = combiner self.
Proof.
  unfold learn_finish.
  destruct (test_model _ _ _) as [acc |]; cbn [bind]; [| discriminate].
  destruct (fltb acc f_half).
  - destruct chains as [| first others]; [discriminate |].
    intros [= <-]. repeat split.
  - intros [= <-]. repeat split.
Qed.

(** X11. A model returned by [learn] has exactly [k] chains (none when
    [k] is negative) and carries the transform and the combiner of the
    learner; and [learn] returns no model from fewer than [k] optimizer
    runs. *)
Theorem learn_returns_k_chains (self : ReliabilityBasedCMAES F)
  (searches : list (list F)) (model : LTFArray F) :
  learn LTFArray_eval self searches = Some (Some model) ->
  shape0 (weight_array model) = Z.to_nat (k self) /\
  ltf_transform model = transform self /\
  ltf_combiner model = combiner self /\
  Z.to_nat (k self) <= length searches.
Proof.
  unfold learn.
  destruct (learn_loop _ searches) as [[s |] |] eqn:Hloop; cbn [bind];
    try discriminate.
  destruct (learn_finish LTFArray_eval (self_ s) (pool s)) as [m |] eqn:Hf;
    cbn [bind]; [| discriminate].
  intros [= <-].
  destruct (learn_loop_exit searches _ s Hloop) as [Hr [Hex [Hlen Hfin]]].
  destruct (learn_reaches_added _ s Hr) as [Hfr [added [Hp Hn]]].
  destruct (set_current_challenges_k _ _ Hfr) as [Hk [Ht [Hc _]]].
  cbn [self_ pool n_chain] in *.
  destruct (learn_finish_shape _ _ _ Hf) as [Hs0 [Htr Hco]].
  apply Z.ltb_ge in Hex.
  repeat split.
  - rewrite Hs0, Hp. cbn [app].
    destruct (Z.le_gt_cases 0 (k self)) as [Hk0 | Hk0].
    + specialize (Hfin Hk0). lia.
    + assert (Hadd : length added = 0%nat); [| lia].
      destruct searches as [| best searches]; cbn [learn_loop] in Hloop;
        cbn [self_ n_chain] in Hloop;
        replace (0 <? k self)%Z with false in Hloop
          by (symmetry; apply Z.ltb_ge; lia);
        injection Hloop as <-; cbn [n_chain] in Hn; lia.
  - congruence.
  - congruence.
  - lia.
Qed.

End LearnLoop.

Lemma learn_reaches_frame_witness :
  exists added : list (list float),
    pool one_chain_state
    = pool {| self_ := two_chain_learner; pool := []; n_chain := 0 |}
      ++ added /\
    n_chain one_chain_state = (0 + Z.of_nat (length added))%Z.
Proof.
  refine (proj2 (learn_reaches_frame
                   {| self_ := two_chain_learner; pool := [];
                      n_chain := 0 |}
                   {| self_ := set_current_challenges two_chain_learner
                                 (map2d of_Z {| shape1 := 3;
                                     rows := [[1; 1; 1]; [1; -1; 1]]%Z |});
                      pool := [[1; 0; -1]%float]; n_chain := 1 |} _)).
  eapply reaches_pass with (best := [1; 0; -1; 2]%float);
    [apply reaches_start | reflexivity | reflexivity].
Defined.

Lemma learn_returns_k_chains_witness :
  exists model : LTFArray float,
    learn example_eval two_chain_learner two_chain_searches
    = Some (Some model) /\
    shape0 (weight_array model) = 2 /\
    2 <= length two_chain_searches.
Proof.
  eexists. split; [reflexivity |].
  pose proof (learn_returns_k_chains
                example_eval two_chain_learner two_chain_searches _ eq_refl)
    as [Hs [_ [_ Hl]]].
  split; [exact Hs | exact Hl].
Defined.

Section Rediscovery.
Context {F : Type} `{Float64 F}.

(** X12. The loop has no bound on its attempts: from a state with fewer
    than [k] chains, optimizer runs that all return a chain correlated with
    the pool leave the pool and [n_chain] as they are, and the loop is
    still running after any number of them. *)
Theorem learn_loop_rediscoveries (s : learn_state F)
  (current : ndarray2 Z) (searches : list (list F)) :
  (n_chain s < k (self_ s))%Z ->
  middle_slice (linearized_challenges (self_ s)) (n_chain s) = Some current ->
  Forall (fun best =>
            exists w : list F,
              flip_chain (slice_to (-1) best) = Some w /\
              correlated_to_pool w (pool s) = Some true)
         searches ->
  learn_loop s searches = Some None /\
  forall best : list F,
    In best searches ->
    learn_body s best
    = Some {| self_ := set_current_challenges (self_ s) (map2d of_Z current);
              pool := pool s; n_chain := n_chain s |}.
Proof.
  intros Hk Hmid Hall.
  assert (Hbody : forall best,
             (exists w : list F,
                 flip_chain (slice_to (-1) best) = Some w /\
                 correlated_to_pool w (pool s) = Some true) ->
             learn_body s best
             = Some {| self_ := set_current_challenges (self_ s)
                                  (map2d of_Z current);
                       pool := pool s; n_chain := n_chain s |}).
  { intros best [w [Hw Hc]]. unfold learn_body.
    rewrite Hmid. cbn [bind]. rewrite Hw. cbn [bind]. now rewrite Hc. }
  split.
  - revert s Hk Hmid Hall Hbody.
    induction searches as [| best searches IH];
      intros s Hk Hmid Hall Hbody; cbn [learn_loop];
      replace (n_chain s <? k (self_ s))%Z with true
        by (symmetry; now apply Z.ltb_lt); [reflexivity |].
    rewrite (Hbody best (Forall_inv Hall)). cbn [bind].
    apply IH; cbn [self_ pool n_chain set_current_challenges k
                   linearized_challenges]; trivial.
    exact (Forall_inv_tail Hall).
  - intros best Hin. apply Hbody.
    rewrite Forall_forall in Hall. now apply Hall.
Qed.

End Rediscovery.

Lemma learn_loop_rediscoveries_witness :
  learn_loop one_chain_state rediscoveries = Some None.
Proof.
  refine (proj1 (learn_loop_rediscoveries one_chain_state
                   {| shape1 := 3; rows := [[1; 1; 1]; [1; -1; 1]]%Z |}
                   rediscoveries _ eq_refl _)).
  - reflexivity.
  - unfold rediscoveries. cbn [repeat].
    repeat (apply Forall_cons;
            [exists [2; -0; -2]%float; split; reflexivity |]).
    apply Forall_nil.
Defined.

(** ** The sign of the chains of the model *)

Section ModelSigns.

Lemma learn_reaches_canonical (s0 s : learn_state inum) :
  learn_reaches s0 s ->
  Forall (fun w => fltb (hd f_zero w) f_zero = false) (pool s0) ->
  Forall (fun w => fltb (hd f_zero w) f_zero = false) (pool s).
Proof.
  induction 1 as [| s s' best _ IH _ Hbody]; intros H0; [exact H0 |].
  specialize (IH H0). revert Hbody. unfold learn_body.
  destruct (middle_slice _ _) as [current |]; cbn [bind]; [| discriminate].
  destruct (flip_chain _) as [w |] eqn:Hw; cbn [bind]; [| discriminate].
  destruct (correlated_to_pool w (pool s)) as [[|] |]; cbn [bind];
    try discriminate; intros [= <-]; cbn [pool]; [exact IH |].
  apply Forall_app. split; [exact IH |].
  constructor; [| constructor].
  exact (flip_chain_sign _ _ Hw).
Qed.

(** X13. Every chain of a model returned by [learn] but the first has a
    first weight that is not negative.  The first chain either has one too
    or is the negation of a chain that has: the orientation step is the
    only place where a chain leaves the canonical sign. *)
Theorem learn_model_signs
  (LTFArray_eval : LTFArray inum -> ndarray2 Z -> list Z)
  (self : ReliabilityBasedCMAES inum) (searches : list (list inum))
  (model : LTFArray inum) :
  learn LTFArray_eval self searches = Some (Some model) ->
  match rows (weight_array model) with
  | [] => True
  | first :: others =>
      Forall (fun w => fltb (hd f_zero w) f_zero = false) others /\
      (fltb (hd f_zero first) f_zero = false \/
       exists chain : list inum,
         first = map fneg chain /\ fltb (hd f_zero chain) f_zero = false)
  end.
Proof.
  intros Hlearn.
  destruct (learn_model_rows LTFArray_eval self searches model Hlearn)
    as [s [Hloop Hrows]].
  assert (Hcan : Forall (fun w => fltb (hd f_zero w) f_zero = false)
                        (pool s)).
  { apply (learn_reaches_canonical
             {| self_ := self; pool := []; n_chain := 0 |} s);
      [| constructor].
    eapply learn_loop_reaches; [apply reaches_start | exact Hloop]. }
  destruct Hrows as [-> | [first [others [Hp ->]]]].
  - destruct (pool s) as [| first others]; [exact I |].
    split; [exact (Forall_inv_tail Hcan) | left; exact (Forall_inv Hcan)].
  - rewrite Hp in Hcan.
    split; [exact (Forall_inv_tail Hcan) |].
    right. exists first. split; [reflexivity | exact (Forall_inv Hcan)].
Qed.

End ModelSigns.

(** *** A run of [learn] on ideal floats *)

Section IdealRun.
Local Open Scope R_scope.

Lemma learn_loop_pass {F : Type} `{Float64 F} (s s' : learn_state F)
  (best : list F) (searches : list (list F)) :
  (n_chain s < k (self_ s))%Z ->
  learn_body s best = Some s' ->
  learn_loop s (best :: searches) = learn_loop s' searches.
Proof.
  intros Hk Hbody. cbn [learn_loop].
  replace (n_chain s <? k (self_ s))%Z with true
    by (symmetry; now apply Z.ltb_lt).
  now rewrite Hbody.
Qed.

Lemma learn_loop_done {F : Type} `{Float64 F} (s : learn_state F)
  (searches : list (list F)) :
  (k (self_ s) <= n_chain s)%Z -> learn_loop s searches = Some (Some s).
Proof.
  intros Hk.
  destruct searches; cbn [learn_loop];
    now replace (n_chain s <? k (self_ s))%Z with false
      by (symmetry; now apply Z.ltb_ge).
Qed.

Lemma ideal_learn_body :
  learn_body {| self_ := objective_learner 0 0; pool := []; n_chain := 0 |}
             (map of_Z [-1; 2; 2]%Z)
  = Some {| self_ := objective_learner 0 0;
            pool := [map ineg [Fin (-1); Fin 2]];
            n_chain := 1 |}.
Proof.
  unfold learn_body. cbn [self_ pool n_chain].
  change (middle_slice (linearized_challenges (objective_learner 0 0)) 0)
    with (Some {| shape1 := 2; rows := [[1; 1]; [1; -1]]%Z |}).
  cbn [bind].
  change (slice_to (-1) (map of_Z [-1; 2; 2]%Z)) with [Fin (-1); Fin 2].
  rewrite flip_chain_negative by (apply iltb_Fin_true; lra).
  cbn [bind correlated_to_pool app]. reflexivity.
Qed.

Lemma ideal_learn :
  exists model : LTFArray inum,
    learn ideal_eval (objective_learner 0 0) ideal_searches
    = Some (Some model) /\
    rows (weight_array model) = [map fneg (map ineg [Fin (-1); Fin 2])].
Proof.
  eexists. split.
  - unfold learn, ideal_searches.
    rewrite (fun Hk => learn_loop_pass _ _ _ [] Hk ideal_learn_body)
      by (cbn; lia).
    rewrite learn_loop_done by (simpl; lia).
    cbn [bind self_ pool]. unfold learn_finish, test_model.
    cbn -[IZR idiv iltb Rdiv].
    rewrite idiv_Fin by lra.
    rewrite iltb_Fin_true by lra.
    reflexivity.
  - reflexivity.
Qed.

End IdealRun.

Lemma learn_model_signs_witness :
  exists model : LTFArray inum,
    learn ideal_eval (objective_learner 0 0) ideal_searches
    = Some (Some model) /\
    match rows (weight_array model) with
    | [] => True
    | first :: others =>
        Forall (fun w => fltb (hd f_zero w) f_zero = false) others /\
        (fltb (hd f_zero first) f_zero = false \/
         exists chain : list inum,
           first = map fneg chain /\ fltb (hd f_zero chain) f_zero = false)
    end.
Proof.
  destruct ideal_learn as [model [Hlearn _]].
  exists model. split; [exact Hlearn |].
  exact (learn_model_signs ideal_eval (objective_learner 0 0)
                           ideal_searches model Hlearn).
Defined.

(** ** The accuracy test *)

Lemma filter_map_id {A} (f : A -> bool) (l : list A) :
  length (filter (fun b : bool => b) (map f l)) = length (filter f l).
Proof.
  induction l as [| a l IH]; cbn [map filter]; [reflexivity |].
  destruct (f a); cbn [length]; now rewrite IH.
Qed.

Lemma agreements_le (a b : list Z) : (agreements a b <= length a)%nat.
Proof.
  unfold agreements.
  etransitivity; [apply filter_length_le |].
  rewrite length_combine. apply Nat.le_min_l.
Qed.

Lemma agreements_all (a b : list Z) :
  length b = length a -> (agreements a b = length a <-> b = a).
Proof.
  unfold agreements. revert b.
  induction a as [| x a IH]; intros [| y b] Hlen; try discriminate.
  - split; reflexivity.
  - cbn [combine filter fst snd length] in *.
    injection Hlen as Hlen.
    destruct (Z.eqb_spec x y) as [-> | Hxy]; cbn [length].
    + split.
      * intros Hc. injection Hc as Hc. f_equal. now apply IH.
      * intros Hc. injection Hc as Hc. f_equal. now apply IH.
    + split.
      * intros Hc. exfalso.
        assert (Hle := filter_length_le (fun p => (fst p =? snd p)%Z)
                                        (combine a b)).
        rewrite length_combine, Hlen, Nat.min_id in Hle. lia.
      * intros Hc. injection Hc as Hc _. congruence.
Qed.

Section Accuracy.
Variable LTFArray_eval : LTFArray inum -> ndarray2 Z -> list Z.
Local Open Scope R_scope.

Lemma np_equal_same (a b : list Z) :
  length b = length a -> np_equal a b = Some (zip_with Z.eqb a b).
Proof. intros Hlen. unfold np_equal. now rewrite Hlen, Nat.eqb_refl. Qed.

Lemma np_equal_raises (a b : list Z) :
  np_equal a b = None ->
  length b <> length a /\ length b <> 1%nat /\ length a <> 1%nat.
Proof.
  unfold np_equal.
  destruct (Nat.eqb_spec (length a) (length b)) as [E | E];
    [discriminate |].
  destruct a as [| x [| x' a]], b as [| y [| y' b]]; try discriminate;
    intros _; cbn [length] in *; repeat split; lia.
Qed.

Lemma filter_eqb_l (x : Z) (l : list Z) :
  length (filter (fun b : bool => b) (map (Z.eqb x) l)) = occurrences x l.
Proof.
  unfold occurrences.
  induction l as [| z l IH]; [reflexivity |].
  cbn [map filter count_occ].
  destruct (Z.eqb_spec x z) as [E | E], (Z.eq_dec z x) as [E' | E'];
    try congruence; cbn [length]; now rewrite IH.
Qed.

Lemma filter_eqb_r (y : Z) (l : list Z) :
  length (filter (fun b : bool => b) (map (fun x => Z.eqb x y) l))
  = occurrences y l.
Proof.
  rewrite <- filter_eqb_l. f_equal. f_equal. apply map_ext.
  intros x. apply Z.eqb_sym.
Qed.

Lemma idiv_fraction (a m : nat) :
  (a <= m)%nat ->
  fdiv (of_Z (Z.of_nat a)) (of_Z (Z.of_nat m))
  = if Nat.eqb m 0 then NaN else Fin (INR a / INR m).
Proof.
  intros Ha. cbn [fdiv of_Z inum_float64]. rewrite <- !INR_IZR_INZ.
  destruct (Nat.eqb_spec m 0) as [E | E].
  - subst m. replace a with 0%nat by lia. cbn [INR]. apply idiv_zero_zero.
  - apply idiv_Fin. apply not_0_INR. exact E.
Qed.

Lemma test_model_value (self : ReliabilityBasedCMAES inum)
  (model : LTFArray inum) :
  let Y_true := map mode (rows (responses (training_set self))) in
  let Y_test := LTFArray_eval model (challenges (training_set self)) in
  length Y_test = length Y_true ->
  test_model LTFArray_eval self model
  = Some (if Nat.eqb (length Y_true) 0 then NaN
          else Fin (INR (agreements Y_true Y_test) / INR (length Y_true))).
Proof.
  intros Y_true Y_test Hlen. unfold test_model.
  fold Y_true. fold Y_test.
  rewrite (np_equal_same Y_true Y_test Hlen). cbn [bind]. f_equal.
  unfold zip_with. rewrite filter_map_id, length_map, length_combine.
  rewrite Hlen, Nat.min_id. fold (agreements Y_true Y_test).
  apply idiv_fraction, agreements_le.
Qed.

(** X14. With one prediction per challenge the accuracy test returns the
    fraction of the challenges on which the prediction equals the majority
    vote of the measurements, which is NaN on an empty training set; all
    predictions agree with the votes exactly when the predictions are the
    votes.  The number of predictions is not checked: a single prediction
    for several challenges is compared with every vote, and the fraction of
    the votes equal to it is returned; a single vote is compared with every
    prediction.  The test can raise only when the two numbers differ and
    neither is 1. *)
Theorem test_model_accuracy (self : ReliabilityBasedCMAES inum)
  (model : LTFArray inum) :
  let Y_true := map mode (rows (responses (training_set self))) in
  let Y_test := LTFArray_eval model (challenges (training_set self)) in
  (length Y_test = length Y_true ->
   test_model LTFArray_eval self model
   = Some (if Nat.eqb (length Y_true) 0 then NaN
           else Fin (INR (agreements Y_true Y_test) / INR (length Y_true))))
  /\
  (forall y : Z,
      Y_test = [y] -> length Y_true <> 1%nat ->
      test_model LTFArray_eval self model
      = Some (if Nat.eqb (length Y_true) 0 then NaN
              else Fin (INR (occurrences y Y_true) / INR (length Y_true))))
  /\
  (forall x : Z,
      Y_true = [x] -> length Y_test <> 1%nat ->
      test_model LTFArray_eval self model
      = Some (if Nat.eqb (length Y_test) 0 then NaN
              else Fin (INR (occurrences x Y_test) / INR (length Y_test))))
  /\
  (test_model LTFArray_eval self model = None ->
   length Y_test <> length Y_true /\
   length Y_test <> 1%nat /\ length Y_true <> 1%nat) /\
  (0 <= INR (agreements Y_true Y_test) <= INR (length Y_true)) /\
  (length Y_test = length Y_true ->
   (agreements Y_true Y_test = length Y_true <-> Y_test = Y_true)).
Proof.
  intros Y_true Y_test.
  split; [apply test_model_value |].
  split; [| split; [| split; [| split; [split |]]]].
  - intros y Hy Hn. unfold test_model. fold Y_true. fold Y_test.
    rewrite Hy. unfold np_equal.
    replace (length Y_true =? length [y])%nat with false
      by (symmetry; apply Nat.eqb_neq; exact Hn).
    destruct Y_true as [| x [| x' rest]]; [| now contradiction Hn |];
      cbn [bind]; rewrite filter_eqb_r, length_map;
      f_equal; apply idiv_fraction, occurrences_le_length.
  - intros x Hx Hn. unfold test_model. fold Y_true. fold Y_test.
    rewrite Hx. unfold np_equal.
    replace (length [x] =? length Y_test)%nat with false
      by (symmetry; apply Nat.eqb_neq; cbn [length]; congruence).
    cbn [bind]. rewrite filter_eqb_l, length_map.
    f_equal. apply idiv_fraction, occurrences_le_length.
  - unfold test_model. fold Y_true. fold Y_test.
    destruct (np_equal Y_true Y_test) as [agree |] eqn:E;
      [discriminate | intros _].
    now apply np_equal_raises.
  - apply pos_INR.
  - apply le_INR, agreements_le.
  - now apply agreements_all.
Qed.

(** X15. With one prediction per challenge, the model returned after the loop
    holds the pool with its first chain negated when fewer than half of the
    predictions agree with the majority votes, and the pool unchanged
    otherwise; on an empty training set nothing is negated.  An empty pool
    whose model is wrong on more than half of the challenges raises. *)
Theorem learn_finish_majority (self : ReliabilityBasedCMAES inum)
  (pool : list (list inum)) :
  let model := {| weight_array := np_array pool;
                  ltf_transform := transform self;
                  ltf_combiner := combiner self |} in
  let Y_true := map mode (rows (responses (training_set self))) in
  let Y_test := LTFArray_eval model (challenges (training_set self)) in
  length Y_test = length Y_true ->
  learn_finish LTFArray_eval self pool
  = if (2 * agreements Y_true Y_test <? length Y_true)%nat
    then match pool with
         | [] => None
         | first :: others =>
             Some {| weight_array := np_array (map fneg first :: others);
                     ltf_transform := transform self;
                     ltf_combiner := combiner self |}
         end
    else Some model.
Proof.
  intros model Y_true Y_test Hlen. unfold learn_finish. fold model.
  rewrite (test_model_value self model Hlen). fold Y_true. fold Y_test.
  cbn [bind].
  assert (Hle := agreements_le Y_true Y_test).
  destruct (Nat.eqb_spec (length Y_true) 0) as [E | E].
  - replace (2 * agreements Y_true Y_test <? length Y_true)%nat with false
      by (symmetry; apply Nat.ltb_ge; lia).
    reflexivity.
  - assert (HN : 0 < INR (length Y_true))
      by (apply lt_0_INR; lia).
    destruct (Nat.ltb_spec (2 * agreements Y_true Y_test) (length Y_true))
      as [Hlt | Hge].
    + cbn [fltb f_half inum_float64].
      rewrite iltb_Fin_true; [reflexivity |].
      apply lt_INR in Hlt. rewrite mult_INR in Hlt. cbn [INR] in Hlt.
      apply Rmult_lt_reg_r with (INR (length Y_true)); [exact HN |].
      field_simplify; lra.
    + cbn [fltb f_half inum_float64].
      rewrite iltb_Fin_false; [reflexivity |].
      apply le_INR in Hge. rewrite mult_INR in Hge. cbn [INR] in Hge.
      apply Rmult_le_reg_r with (INR (length Y_true)); [exact HN |].
      field_simplify; lra.
Qed.

End Accuracy.

Lemma learn_finish_majority_witness :
  learn_finish ideal_eval (objective_learner 0 0) [[Fin 1; Fin (-2)]]
  = Some {| weight_array := np_array [map fneg [Fin 1; Fin (-2)]];
            ltf_transform := example_transform;
            ltf_combiner := example_combiner |}.
Proof.
  exact (learn_finish_majority ideal_eval (objective_learner 0 0)
                               [[Fin 1; Fin (-2)]] eq_refl).
Defined.

(** ** [learn] without exceptions *)

Section LearnSafety.
Context {F : Type} `{Float64 F}.
Variable LTFArray_eval : LTFArray F -> ndarray2 Z -> list Z.

Lemma length_flip_chain (w w' : list F) :
  flip_chain w = Some w' -> length w' = length w.
Proof.
  destruct w as [| w0 rest]; cbn [flip_chain]; [discriminate |].
  intros [= <-].
  destruct (fltb w0 f_zero);
    [exact (length_map fneg (w0 :: rest)) | reflexivity].
Qed.

Lemma length_slice_to_last (best : list F) (L : nat) :
  length best = S L -> length (slice_to (-1) best) = L.
Proof.
  intros Hlen. unfold slice_to. rewrite Hlen. cbn [Z.ltb Z.compare].
  rewrite length_firstn, Hlen. lia.
Qed.

Lemma correlated_to_pool_defined (w : list F) (pool : list (list F)) :
  2 <= length w ->
  Forall (fun v => length v = length w) pool ->
  exists found : bool, correlated_to_pool w pool = Some found.
Proof.
  intros Hw Hpool.
  induction Hpool as [| v pool Hv _ IH]; cbn [correlated_to_pool].
  - now exists false.
  - unfold pearsonr. rewrite Hv, Nat.eqb_refl. cbn [negb].
    replace (length w <? 2) with false by (symmetry; apply Nat.ltb_ge; lia).
    cbn [bind].
    destruct (fgtb _ f_half); [now exists true | exact IH].
Qed.

Lemma learn_body_defined (s : learn_state F) (best : list F) (L : nat) :
  (n_chain s < Z.of_nat (shape1_3 (linearized_challenges (self_ s))))%Z ->
  length best = S L -> 2 <= L ->
  Forall (fun v => length v = L) (pool s) ->
  exists s' : learn_state F,
    learn_body s best = Some s' /\
    Forall (fun v => length v = L) (pool s').
Proof.
  intros Hc Hbest HL Hpool. unfold learn_body, middle_slice.
  replace (Z.of_nat (shape1_3 (linearized_challenges (self_ s)))
           <=? n_chain s)%Z with false
    by (symmetry; apply Z.leb_gt; exact Hc).
  cbn [bind].
  assert (Hw := length_slice_to_last best L Hbest).
  destruct (flip_chain (slice_to (-1) best)) as [w |] eqn:Hflip.
  2:{ destruct (slice_to (-1) best); [simpl in Hw; lia | discriminate]. }
  cbn [bind].
  apply length_flip_chain in Hflip. rewrite Hw in Hflip.
  destruct (correlated_to_pool_defined w (pool s)) as [found Hfound].
  { lia. }
  { rewrite Hflip. exact Hpool. }
  rewrite Hfound. cbn [bind].
  destruct found; eexists; (split; [reflexivity |]); cbn [pool].
  - exact Hpool.
  - apply Forall_app. split; [exact Hpool | now constructor].
Qed.

Lemma learn_loop_defined (L : nat) (searches : list (list F)) :
  2 <= L ->
  Forall (fun best => length best = S L) searches ->
  forall s : learn_state F,
    (k (self_ s)
     <= Z.of_nat (shape1_3 (linearized_challenges (self_ s))))%Z ->
    Forall (fun v => length v = L) (pool s) ->
    exists r : option (learn_state F), learn_loop s searches = Some r.
Proof.
  intros HL Hs.
  induction Hs as [| best searches Hbest _ IH]; intros s Hk Hpool;
    cbn [learn_loop]; destruct (n_chain s <? k (self_ s))%Z eqn:Hlt;
    try (eexists; reflexivity).
  apply Z.ltb_lt in Hlt.
  destruct (learn_body_defined s best L) as [s' [Hbody Hpool']];
    trivial; [lia |].
  rewrite Hbody. cbn [bind].
  destruct (learn_body_frame s s' best Hbody) as [Hf _].
  destruct (set_current_challenges_k _ _ Hf) as [Hkk [_ [_ [Hlin _]]]].
  apply IH; [rewrite Hkk, Hlin; exact Hk | exact Hpool'].
Qed.

(** X16. [learn] raises no exception when the transformed challenges hold
    at least [k >= 1] chains, every optimizer run returns a solution of the
    same length with at least two weights before the threshold entry, and
    the model answers with one prediction per challenge. *)
Theorem learn_raises_nothing (self : ReliabilityBasedCMAES F)
  (searches : list (list F)) (L : nat) :
  (1 <= k self <= Z.of_nat (shape1_3 (linearized_challenges self)))%Z ->
  2 <= L ->
  Forall (fun best => length best = S L) searches ->
  (forall model : LTFArray F,
      length (LTFArray_eval model (challenges (training_set self)))
      = shape0 (responses (training_set self))) ->
  learn LTFArray_eval self searches <> None.
Proof.
  intros [Hk1 Hk] HL Hs Heval. unfold learn.
  destruct (learn_loop_defined L searches HL Hs
              {| self_ := self; pool := []; n_chain := 0 |})
    as [r Hloop]; [exact Hk | constructor |].
  rewrite Hloop. cbn [bind].
  destruct r as [s |]; [| discriminate].
  destruct (learn_loop_exit searches _ s Hloop) as [Hr [_ [_ Hfin]]].
  destruct (learn_reaches_added _ s Hr) as [Hfr [added [Hp Hn]]].
  destruct (set_current_challenges_k _ _ Hfr) as [_ [_ [_ [_ [_ [Hts _]]]]]].
  cbn [self_ pool n_chain] in *.
  specialize (Hfin ltac:(lia)).
  unfold learn_finish, test_model. rewrite Hts.
  rewrite np_equal_same
    by (rewrite Heval; unfold shape0; now rewrite length_map).
  cbn [bind].
  destruct (fltb _ f_half); [| discriminate].
  destruct (pool s) as [| first others] eqn:Hpool; [| discriminate].
  cbn [app] in Hp. subst added. cbn [length] in Hn. lia.
Qed.

End LearnSafety.

Lemma learn_raises_nothing_witness :
  learn example_eval two_chain_learner two_chain_searches <> None.
Proof.
  apply (learn_raises_nothing example_eval two_chain_learner
                              two_chain_searches 3).
  - cbn. lia.
  - lia.
  - repeat constructor.
  - intros model. reflexivity.
Defined.

(** ** The experiment: unreliable challenges *)

Lemma Rsum_IZR (l : list Z) : Rsum (map IZR l) = IZR (zsum l).
Proof.
  induction l as [| z l IH]; [reflexivity |].
  cbn [map Rsum fold_right]. fold (Rsum (map IZR l)).
  rewrite IH, zsum_cons, plus_IZR. reflexivity.
Qed.

Lemma zsum_pm1 (row : list Z) :
  Forall (fun z => z = 1%Z \/ z = (-1)%Z) row ->
  zsum row = (Z.of_nat (occurrences 1 row)
              - Z.of_nat (occurrences (-1) row))%Z.
Proof.
  unfold occurrences.
  induction 1 as [| z row [Hz | Hz] _ IH]; [reflexivity | |];
    subst z; rewrite zsum_cons, IH; count_step.
Qed.

Lemma reduce_sum_of_Z (row : list Z) :
  reduce_sum (map of_Z row) = Fin (IZR (zsum row)).
Proof.
  rewrite <- Rsum_IZR, <- reduce_sum_Fin, map_map. reflexivity.
Qed.

(** X17. On well-formed responses in {+1,-1} the experiment calls a
    challenge unreliable exactly when the reliability that the learner
    computes for it is below a quarter of the number of measurements. *)
Theorem isUnreliable_reliabilities (M : ndarray2 Z) :
  wf M -> encoded_pm1 M ->
  isUnreliable (F := inum) M
  = map (fun r : inum => fltb r (fdiv (of_Z (Z.of_nat (shape1 M))) (of_Z 4)))
        (reliabilities_PUF M).
Proof.
  intros Hwf HM.
  rewrite (@reliabilities_PUF_pm1 M Hwf HM), map_map.
  unfold isUnreliable. apply map_ext_in. intros row Hrow.
  unfold encoded_pm1 in HM. rewrite Forall_forall in HM.
  unfold wf in Hwf. rewrite Forall_forall in Hwf.
  specialize (HM row Hrow). specialize (Hwf row Hrow).
  rewrite reduce_sum_of_Z, (zsum_pm1 row HM).
  assert (Hm := length_pm1 HM). rewrite Hwf in Hm.
  set (p := occurrences 1 row) in *. set (q := occurrences (-1) row) in *.
  cbn [fltb fabs fdiv of_Z f_half inum_float64].
  rewrite (@idiv_Fin _ 4%R) by lra.
  rewrite minus_IZR, <- !INR_IZR_INZ, Hm, plus_INR.
  assert (Hp := pos_INR p). assert (Hq := pos_INR q).
  unfold deviation. rewrite plus_INR.
  destruct (Req_dec (INR p + INR q) 0) as [E | E].
  - assert (INR p = 0%R) by lra. assert (INR q = 0%R) by lra.
    replace (INR p) with 0%R. replace (INR q) with 0%R.
    rewrite Rminus_0_r, Rplus_0_r, idiv_zero_zero. cbn [iabs iltb].
    replace (0 / 2 - 0)%R with 0%R by lra. rewrite Rabs_R0.
    destruct (Rlt_dec 0 (0 / 4)); [lra | reflexivity].
  - rewrite idiv_Fin by exact E. cbn [iabs iltb].
    assert (Hpos : (0 < INR p + INR q)%R) by lra.
    replace ((INR p + INR q) / 2 - INR q)%R
      with ((INR p - INR q) / 2)%R by lra.
    set (a := Rabs (INR p - INR q)).
    assert (H1 : Rabs ((INR p - INR q) / (INR p + INR q))
                 = (a * / (INR p + INR q))%R).
    { unfold Rdiv. rewrite Rabs_mult. f_equal.
      apply Rabs_pos_eq. left. now apply Rinv_0_lt_compat. }
    assert (H2 : Rabs ((INR p - INR q) / 2) = (a * / 2)%R).
    { unfold Rdiv. rewrite Rabs_mult. f_equal. apply Rabs_pos_eq. lra. }
    rewrite H1, H2. clear H1 H2.
    assert (Hiff : (a * / (INR p + INR q) < 1 / 2
                    <-> a * / 2 < (INR p + INR q) / 4)%R).
    { split; intros Hlt.
      - apply (Rmult_lt_compat_r (INR p + INR q)) in Hlt; [| exact Hpos].
        rewrite Rmult_assoc, Rinv_l in Hlt by exact E. lra.
      - apply (Rmult_lt_reg_r (INR p + INR q)); [exact Hpos |].
        rewrite Rmult_assoc, Rinv_l by exact E. lra. }
    destruct (Rlt_dec (a * / (INR p + INR q)) (1 / 2)) as [H1 | H1];
      destruct (Rlt_dec (a * / 2) ((INR p + INR q) / 4)) as [H2 | H2];
      trivial; tauto.
Qed.

Lemma isUnreliable_reliabilities_witness :
  isUnreliable (F := inum) example_responses
  = map (fun r : inum =>
           fltb r (fdiv (of_Z (Z.of_nat (shape1 example_responses)))
                        (of_Z 4)))
        (reliabilities_PUF example_responses).
Proof.
  apply isUnreliable_reliabilities.
  - repeat constructor.
  - unfold encoded_pm1. cbn [rows example_responses].
    repeat first [apply Forall_nil | apply Forall_cons
                 | left; reflexivity | right; reflexivity].
Defined.

(** ** The experiment: reliable challenges *)

Section ReliableChallenges.
Context {F : Type} `{Float64 F}.

Lemma length_select {A} (l : list A) (mask : list bool) :
  length mask = length l ->
  length (select l mask) = length (filter (fun b : bool => b) mask).
Proof.
  revert mask. induction l as [| x l IH]; intros [| b mask] Hlen;
    try discriminate; [reflexivity |].
  injection Hlen as Hlen. cbn [select filter].
  destruct b; cbn [length]; now rewrite IH.
Qed.

Lemma mask_rows_inv {A} (M M' : ndarray2 A) (mask : list bool) :
  mask_rows M mask = Some M' ->
  length mask = shape0 M /\ shape1 M' = shape1 M /\
  rows M' = select (rows M) mask.
Proof.
  unfold mask_rows.
  destruct (Nat.eqb_spec (length mask) (shape0 M)) as [E | E];
    [| discriminate].
  intros [= <-]. repeat split. exact E.
Qed.

Lemma vstack_inv {A} (M N P : ndarray2 A) :
  vstack M N = Some P ->
  shape1 M = shape1 N /\ shape1 P = shape1 M /\ rows P = rows M ++ rows N.
Proof.
  unfold vstack.
  destruct (Nat.eqb_spec (shape1 M) (shape1 N)) as [E | E];
    [| discriminate].
  intros [= <-]. repeat split. exact E.
Qed.

Lemma slice_to_nonneg {A} (stop : Z) (l : list A) :
  (0 <= stop)%Z -> slice_to stop l = firstn (Z.to_nat stop) l.
Proof.
  intros Hs. rewrite <- (Z2Nat.id stop Hs) at 1. apply slice_to_firstn.
Qed.

Lemma length_reliable (ts : TrainingSet) :
  length (reliable_mask ts) = shape0 (challenges ts) ->
  length (reliable_resps ts) = length (reliable_chals ts).
Proof.
  intros Hlen. unfold reliable_resps, reliable_chals.
  rewrite !length_select; trivial.
  unfold reliable_mask, isUnreliable, map2d. cbn [rows].
  now rewrite !length_map.
Qed.

Lemma reliable_inv_start (num_chals : Z) :
  reliable_inv num_chals []
    {| chal_count := 0; candidate_chals := None; candidate_resps := None |}.
Proof. repeat split. intros Hne. now contradiction Hne. Qed.

(** A pass of the loop keeps the invariant *)
Lemma reliable_body_inv (num_chals : Z) (seen : list TrainingSet)
  (st st' : reliable_state) (ts : TrainingSet) :
  (chal_count st <= num_chals)%Z ->
  reliable_inv num_chals seen st ->
  reliable_body num_chals st ts = Some st' ->
  reliable_inv num_chals (seen ++ [ts]) st'.
Proof.
  intros Hle [Hcount [Hlen Hcand]]. unfold reliable_body.
  fold (reliable_mask ts).
  destruct (mask_rows (challenges ts) (reliable_mask ts))
    as [rel_chals |] eqn:HC; cbn [bind]; [| discriminate].
  destruct (mask_rows (responses ts) (reliable_mask ts))
    as [rel_resps |] eqn:HR; cbn [bind]; [| discriminate].
  apply mask_rows_inv in HC. destruct HC as [HmC [_ HrC]].
  apply mask_rows_inv in HR. destruct HR as [_ [_ HrR]].
  fold (reliable_chals ts) in HrC. fold (reliable_resps ts) in HrR.
  assert (Hrel := length_reliable ts HmC).
  assert (Hs0 : shape0 rel_chals = length (reliable_chals ts))
    by (unfold shape0; now rewrite HrC).
  assert (HflatC : flat_map reliable_chals (seen ++ [ts])
                   = flat_map reliable_chals seen ++ reliable_chals ts)
    by (rewrite flat_map_app; cbn [flat_map]; now rewrite app_nil_r).
  assert (HflatR : flat_map reliable_resps (seen ++ [ts])
                   = flat_map reliable_resps seen ++ reliable_resps ts)
    by (rewrite flat_map_app; cbn [flat_map]; now rewrite app_nil_r).
  assert (Hnum : (0 <= num_chals)%Z) by lia.
  destruct (Z.eqb_spec (chal_count st) 0) as [E0 | E0].
  - intros [= <-]. unfold reliable_inv.
    cbn [chal_count candidate_chals candidate_resps].
    rewrite HflatC, HflatR, !length_app, Hs0, Hrel, Hlen.
    split; [lia |]. split; [reflexivity |]. intros _.
    assert (HeC : flat_map reliable_chals seen = [])
      by (apply length_zero_iff_nil; lia).
    assert (HeR : flat_map reliable_resps seen = [])
      by (apply length_zero_iff_nil; lia).
    rewrite HeC, HeR. cbn [app].
    eexists _, _. split; [reflexivity |]. split; [reflexivity |].
    unfold rows_to. cbn [rows].
    rewrite !slice_to_nonneg, HrC, HrR by exact Hnum. now split.
  - assert (Hne : seen <> []).
    { intros ->. cbn [flat_map length] in Hcount. lia. }
    destruct (Hcand Hne) as [c [r [Hc [Hr [Hrc Hrr]]]]].
    rewrite Hc, Hr. cbn [bind].
    destruct (vstack c _) as [new_chals |] eqn:HvC; cbn [bind];
      [| discriminate].
    destruct (vstack r _) as [new_resps |] eqn:HvR; cbn [bind];
      [| discriminate].
    apply vstack_inv in HvC. destruct HvC as [_ [_ HvC]].
    apply vstack_inv in HvR. destruct HvR as [_ [_ HvR]].
    intros [= <-]. unfold reliable_inv.
    cbn [chal_count candidate_chals candidate_resps].
    rewrite HflatC, HflatR, !length_app, Hs0, Hrel, Hlen.
    split; [lia |]. split; [reflexivity |]. intros _.
    eexists _, _. split; [reflexivity |]. split; [reflexivity |].
    rewrite HvC, HvR. unfold rows_to. cbn [rows].
    rewrite !slice_to_nonneg, HrC, HrR, Hrc, Hrr by lia.
    rewrite !firstn_app, Hlen.
    replace (Z.to_nat (num_chals - chal_count st))
      with (Z.to_nat num_chals - length (flat_map reliable_chals seen))
      by lia.
    now split.
Qed.

(** When the loop leaves, it has passed over a first part of the training
    sets and counted more than [num_chals] reliable challenges *)
Lemma reliable_loop_inv (num_chals : Z) (batches : list TrainingSet) :
  forall (seen : list TrainingSet) (st st' : reliable_state),
    reliable_inv num_chals seen st ->
    reliable_loop num_chals st batches = Some (Some st') ->
    exists used rest : list TrainingSet,
      batches = used ++ rest /\
      reliable_inv num_chals (seen ++ used) st' /\
      (num_chals < chal_count st')%Z.
Proof.
  induction batches as [| ts batches IH]; intros seen st st' Hinv;
    cbn [reliable_loop];
    destruct (Z.leb_spec (chal_count st) num_chals) as [Hle | Hgt];
    try discriminate.
  - intros [= <-]. exists [], []. rewrite (app_nil_r seen).
    split; [reflexivity | split; [exact Hinv | exact Hgt]].
  - destruct (reliable_body num_chals st ts) as [st1 |] eqn:Hbody;
      cbn [bind]; [| discriminate].
    intros Hloop.
    destruct (IH (seen ++ [ts]) st1 st'
                 (reliable_body_inv _ _ _ _ _ Hle Hinv Hbody) Hloop)
      as [used [rest [Hb [Hi Hn]]]].
    exists (ts :: used), rest. rewrite <- app_assoc in Hi.
    split; [now rewrite Hb | now split].
  - intros [= <-]. exists [], (ts :: batches). rewrite (app_nil_r seen).
    split; [reflexivity | split; [exact Hinv | exact Hgt]].
Qed.

Lemma firstn_app_short {A} (n : nat) (l1 l2 : list A) :
  n <= length l1 -> firstn n (l1 ++ l2) = firstn n l1.
Proof.
  intros Hn. rewrite firstn_app.
  replace (n - length l1) with 0 by lia.
  cbn [firstn]. apply app_nil_r.
Qed.

Lemma generate_reliable_inv (num_chals : Z) (batches : list TrainingSet)
  (chals resps : option (ndarray2 Z)) :
  generate_reliable_challenges_for_IPUF num_chals batches
  = Some (Some (chals, resps)) ->
  (0 <= num_chals)%Z ->
  (num_chals < Z.of_nat (length (flat_map reliable_chals batches)))%Z /\
  exists c r : ndarray2 Z,
    chals = Some c /\ resps = Some r /\
    rows c = firstn (Z.to_nat num_chals) (flat_map reliable_chals batches) /\
    rows r = firstn (Z.to_nat num_chals) (flat_map reliable_resps batches) /\
    shape0 c = Z.to_nat num_chals /\ shape0 r = Z.to_nat num_chals.
Proof.
  unfold generate_reliable_challenges_for_IPUF.
  destruct (reliable_loop _ _ batches) as [[st |] |] eqn:Hloop;
    cbn [bind option_map]; try discriminate.
  intros [= <- <-] Hnum.
  destruct (reliable_loop_inv num_chals batches [] _ st
              (reliable_inv_start num_chals) Hloop)
    as [used [rest [-> [[Hcount [Hlen Hcand]] Hexit]]]].
  cbn [app] in *.
  assert (Hne : used <> []).
  { intros ->. cbn [flat_map length] in Hcount. lia. }
  destruct (Hcand Hne) as [c [r [Hc [Hr [Hrc Hrr]]]]].
  rewrite !flat_map_app, length_app.
  split; [lia |].
  exists c, r. rewrite !firstn_app_short by lia.
  repeat split; trivial; unfold shape0.
  - rewrite Hrc, length_firstn. lia.
  - rewrite Hrr, length_firstn. lia.
Qed.

(** X18. When [generate_reliable_challenges_for_IPUF] returns for a
    [num_chals >= 0], the training sets it was given hold more than
    [num_chals] reliable challenges, and it returns exactly the first
    [num_chals] of them, in the order drawn, each with its own responses.
    For a negative [num_chals] it returns the pair (None, None). *)
Theorem generate_reliable_first (num_chals : Z)
  (batches : list TrainingSet)
  (chals resps : option (ndarray2 Z)) :
  generate_reliable_challenges_for_IPUF num_chals batches
  = Some (Some (chals, resps)) ->
  ((num_chals < 0)%Z -> chals = None /\ resps = None) /\
  ((0 <= num_chals)%Z ->
   (num_chals < Z.of_nat (length (flat_map reliable_chals batches)))%Z /\
   exists c r : ndarray2 Z,
     chals = Some c /\ resps = Some r /\
     rows c = firstn (Z.to_nat num_chals) (flat_map reliable_chals batches) /\
     rows r = firstn (Z.to_nat num_chals) (flat_map reliable_resps batches) /\
     shape0 c = Z.to_nat num_chals /\ shape0 r = Z.to_nat num_chals).
Proof.
  intros Hgen. split; [| now apply generate_reliable_inv].
  intros Hneg. revert Hgen.
  unfold generate_reliable_challenges_for_IPUF.
  destruct batches; cbn [reliable_loop chal_count];
    replace (0 <=? num_chals)%Z with false
      by (symmetry; apply Z.leb_gt; exact Hneg);
    cbn [bind option_map candidate_chals candidate_resps];
    intros [= <- <-]; now split.
Qed.

End ReliableChallenges.

Lemma generate_reliable_first_witness :
  (3 < Z.of_nat (length (flat_map (reliable_chals (F := float))
                                  [example_batch; example_batch])))%Z /\
  exists c r : ndarray2 Z,
    Some {| shape1 := 2; rows := [[1; 1]; [-1; 1]; [1; 1]]%Z |} = Some c /\
    Some {| shape1 := 4;
            rows := [[1; 1; 1; 1]; [-1; -1; -1; 1]; [1; 1; 1; 1]]%Z |}
    = Some r /\
    rows c = firstn 3 (flat_map (reliable_chals (F := float))
                                [example_batch; example_batch]) /\
    rows r = firstn 3 (flat_map (reliable_resps (F := float))
                                [example_batch; example_batch]) /\
    shape0 c = 3 /\ shape0 r = 3.
Proof.
  refine (proj2 (generate_reliable_first (F := float) 3
                   [example_batch; example_batch] _ _ eq_refl) _).
  lia.
Defined.

Section ReliableReturns.
Context {F : Type} `{Float64 F}.
Variables cC cR : nat.

Lemma length_reliable_mask (ts : TrainingSet) :
  length (reliable_mask ts) = shape0 (responses ts).
Proof.
  unfold reliable_mask, isUnreliable, map2d, shape0. cbn [rows].
  now rewrite !length_map.
Qed.

Lemma mask_rows_defined {A} (M : ndarray2 A) (mask : list bool) :
  length mask = shape0 M ->
  mask_rows M mask
  = Some {| shape1 := shape1 M; rows := select (rows M) mask |}.
Proof. intros E. unfold mask_rows. now rewrite E, Nat.eqb_refl. Qed.

(** On training sets of one shape a pass of the loop raises nothing, and
    the candidates have that shape. *)
Lemma reliable_body_defined (num_chals : Z) (seen : list TrainingSet)
  (st : reliable_state) (ts : TrainingSet) :
  consistent cC cR ts ->
  reliable_inv num_chals seen st ->
  (forall c r, candidate_chals st = Some c -> candidate_resps st = Some r ->
               shape1 c = cC /\ shape1 r = cR) ->
  exists st' : reliable_state,
    reliable_body num_chals st ts = Some st' /\
    (forall c r,
        candidate_chals st' = Some c -> candidate_resps st' = Some r ->
        shape1 c = cC /\ shape1 r = cR).
Proof.
  intros [Hs0 [HsC HsR]] [Hcount [_ Hcand]] Hshape. unfold reliable_body.
  fold (reliable_mask ts).
  rewrite !mask_rows_defined
    by (rewrite length_reliable_mask; congruence). cbn [bind].
  destruct (Z.eqb_spec (chal_count st) 0) as [E0 | E0].
  - eexists. split; [reflexivity |].
    cbn [candidate_chals candidate_resps]. intros c r [= <-] [= <-].
    now split.
  - assert (Hne : seen <> []).
    { intros ->. cbn [flat_map length] in Hcount. lia. }
    destruct (Hcand Hne) as [c [r [Hc [Hr _]]]].
    destruct (Hshape c r Hc Hr) as [Hc1 Hr1].
    rewrite Hc, Hr. cbn [bind]. unfold vstack, rows_to. cbn [shape1 rows].
    rewrite Hc1, Hr1, HsC, HsR, !Nat.eqb_refl. cbn [bind].
    eexists. split; [reflexivity |].
    cbn [candidate_chals candidate_resps]. intros c' r' [= <-] [= <-].
    now split.
Qed.

(** The candidates once more than [num_chals] reliable challenges were
    counted *)
Lemma reliable_exit (num_chals : Z) (seen rest : list TrainingSet)
  (st : reliable_state) :
  (0 <= num_chals < chal_count st)%Z ->
  reliable_inv num_chals seen st ->
  (forall c r, candidate_chals st = Some c -> candidate_resps st = Some r ->
               shape1 c = cC /\ shape1 r = cR) ->
  (num_chals
   < Z.of_nat (length (flat_map reliable_chals (seen ++ rest))))%Z /\
  candidate_chals st
  = Some {| shape1 := cC;
            rows := firstn (Z.to_nat num_chals)
                           (flat_map reliable_chals (seen ++ rest)) |} /\
  candidate_resps st
  = Some {| shape1 := cR;
            rows := firstn (Z.to_nat num_chals)
                           (flat_map reliable_resps (seen ++ rest)) |}.
Proof.
  intros Hnum [Hcount [Hlen Hcand]] Hshape.
  assert (Hne : seen <> []).
  { intros ->. cbn [flat_map length] in Hcount. lia. }
  destruct (Hcand Hne) as [c [r [Hc [Hr [Hrc Hrr]]]]].
  destruct (Hshape c r Hc Hr) as [Hc1 Hr1].
  rewrite !flat_map_app, length_app, !firstn_app_short by lia.
  split; [lia |].
  rewrite Hc, Hr. destruct c as [c1 crows], r as [r1 rrows].
  cbn [shape1 rows] in *. subst. now split.
Qed.

Lemma reliable_loop_consistent (num_chals : Z)
  (batches : list TrainingSet) :
  (0 <= num_chals)%Z ->
  Forall (consistent cC cR) batches ->
  forall (seen : list TrainingSet) (st : reliable_state),
    reliable_inv num_chals seen st ->
    (forall c r,
        candidate_chals st = Some c -> candidate_resps st = Some r ->
        shape1 c = cC /\ shape1 r = cR) ->
    exists r : option reliable_state,
      reliable_loop num_chals st batches = Some r /\
      match r with
      | None =>
          (Z.of_nat (length (flat_map reliable_chals (seen ++ batches)))
           <= num_chals)%Z
      | Some st' =>
          (num_chals
           < Z.of_nat (length (flat_map reliable_chals (seen ++ batches))))%Z
          /\
          candidate_chals st'
          = Some {| shape1 := cC;
                    rows := firstn (Z.to_nat num_chals)
                              (flat_map reliable_chals (seen ++ batches)) |}
          /\
          candidate_resps st'
          = Some {| shape1 := cR;
                    rows := firstn (Z.to_nat num_chals)
                              (flat_map reliable_resps (seen ++ batches)) |}
      end.
Proof.
  intros Hnum Hb.
  induction Hb as [| ts batches Hts _ IH]; intros seen st Hinv Hshape;
    cbn [reliable_loop];
    destruct (Z.leb_spec (chal_count st) num_chals) as [Hle | Hgt].
  - exists None. split; [reflexivity |].
    rewrite app_nil_r. destruct Hinv as [Hcount _]. lia.
  - exists (Some st). split; [reflexivity |].
    apply reliable_exit; trivial. lia.
  - destruct (reliable_body_defined num_chals seen st ts Hts Hinv Hshape)
      as [st1 [Hbody Hshape1]].
    rewrite Hbody. cbn [bind].
    destruct (IH (seen ++ [ts]) st1
                 (reliable_body_inv _ _ _ _ _ Hle Hinv Hbody) Hshape1)
      as [r [Hloop Hr]].
    exists r. rewrite <- app_assoc in Hr. now split.
  - exists (Some st). split; [reflexivity |].
    apply reliable_exit; trivial. lia.
Qed.

(** X19. On training sets of one shape and for [num_chals >= 0],
    [generate_reliable_challenges_for_IPUF] raises nothing.  It returns as
    soon as the training sets drawn hold more than [num_chals] reliable
    challenges, and then the first [num_chals] of them; as long as they
    hold [num_chals] or fewer, it draws a further training set. *)
Theorem generate_reliable_returns (num_chals : Z)
  (batches : list TrainingSet) :
  (0 <= num_chals)%Z ->
  Forall (consistent cC cR) batches ->
  generate_reliable_challenges_for_IPUF num_chals batches
  = if (num_chals
        <? Z.of_nat (length (flat_map reliable_chals batches)))%Z
    then Some (Some
           (Some {| shape1 := cC;
                    rows := firstn (Z.to_nat num_chals)
                                   (flat_map reliable_chals batches) |},
            Some {| shape1 := cR;
                    rows := firstn (Z.to_nat num_chals)
                                   (flat_map reliable_resps batches) |}))
    else Some None.
Proof.
  intros Hnum Hb. unfold generate_reliable_challenges_for_IPUF.
  destruct (reliable_loop_consistent num_chals batches Hnum Hb [] _
              (reliable_inv_start num_chals))
    as [r [Hloop Hr]]; [discriminate |].
  rewrite Hloop. cbn [bind app] in *.
  destruct r as [st |]; cbn [option_map].
  - destruct Hr as [Hlt [Hc Hrs]]. rewrite Hc, Hrs.
    now replace (num_chals <? _)%Z with true
      by (symmetry; apply Z.ltb_lt; exact Hlt).
  - now replace (num_chals <? _)%Z with false
      by (symmetry; apply Z.ltb_ge; exact Hr).
Qed.

End ReliableReturns.

(** One training set with exactly two reliable challenges: with
    [num_chals = 2] the loop asks for a second one. *)
Lemma generate_reliable_returns_witness :
  generate_reliable_challenges_for_IPUF (F := float) 2 [example_batch]
  = Some None.
Proof.
  refine (generate_reliable_returns (F := float) 2 4 2 [example_batch] _ _).
  - lia.
  - repeat constructor.
Defined.

(** ** The experiment: candidates for the lower PUF *)

Lemma select_nil_mask {A} (l : list A) : select l [] = [].
Proof. now destruct l. Qed.

Lemma select_compose {A} (l : list A) (outer inner : list bool) :
  select (select l outer) inner = select l (compose_mask outer inner).
Proof.
  revert outer inner.
  induction l as [| x l IH]; intros [| [|] outer] inner;
    cbn [select compose_mask]; try apply select_nil_mask; trivial.
  destruct inner as [| b inner]; cbn [select].
  - rewrite <- (IH outer []). symmetry. apply select_nil_mask.
  - destruct b; now rewrite IH.
Qed.

Lemma length_compose_mask (outer inner : list bool) :
  length (compose_mask outer inner) = length outer.
Proof.
  revert inner.
  induction outer as [| [|] outer IH]; intros inner; cbn [compose_mask];
    trivial; [destruct inner |]; cbn [length]; now rewrite IH.
Qed.

Lemma compose_mask_below (outer inner : list bool) :
  Forall2 (fun kept o => kept = true -> o = true)
          (compose_mask outer inner) outer.
Proof.
  revert inner.
  induction outer as [| [|] outer IH]; intros inner; cbn [compose_mask];
    [constructor | destruct inner |]; constructor; trivial; discriminate.
Qed.

Section Candidates.
Context {F : Type} `{Float64 F}.

(** What is returned, in terms of the two selections *)
Lemma generate_unreliable_masks (n reps : Z) (ts : TrainingSet)
  (ipuf_eval : nat -> ndarray2 Z -> list Z) (chals resps : ndarray2 Z) :
  generate_unreliable_challenges_for_lower_puf n reps ts ipuf_eval
  = Some (chals, resps) ->
  let unrels := isUnreliable (map2d to_int8 (responses ts)) in
  exists flipped_rels : list bool,
    length unrels = shape0 (challenges ts) /\
    length unrels = shape0 (responses ts) /\
    length flipped_rels = length (select (rows (challenges ts)) unrels) /\
    length flipped_rels = length (select (rows (responses ts)) unrels) /\
    rows chals = select (select (rows (challenges ts)) unrels) flipped_rels /\
    rows resps = select (select (rows (responses ts)) unrels) flipped_rels /\
    shape1 chals = shape1 (challenges ts) /\
    shape1 resps = shape1 (responses ts).
Proof.
  unfold generate_unreliable_challenges_for_lower_puf.
  set (unrels := isUnreliable (map2d to_int8 (responses ts))).
  destruct (mask_rows (challenges ts) unrels) as [unrel_chals |] eqn:HC;
    cbn [bind]; [| discriminate].
  destruct (mask_rows (responses ts) unrels) as [unrel_resps |] eqn:HR;
    cbn [bind]; [| discriminate].
  destruct (negate_column unrel_chals _) as [f1 |]; cbn [bind];
    [| discriminate].
  destruct (negate_column f1 _) as [f2 |]; cbn [bind]; [| discriminate].
  destruct (mask_rows (map2d to_int8 (responses ts)) unrels)
    as [selected |]; cbn [bind]; [| discriminate].
  destruct (fold_left _ _ _) as [flipped_resps |]; cbn [bind];
    [| discriminate].
  set (flipped_rels := map negb (isUnreliable flipped_resps)).
  destruct (mask_rows unrel_chals flipped_rels) as [cc |] eqn:HCC;
    cbn [bind]; [| discriminate].
  destruct (mask_rows unrel_resps flipped_rels) as [cr |] eqn:HCR;
    cbn [bind]; [| discriminate].
  intros [= <- <-].
  apply mask_rows_inv in HC, HR, HCC, HCR.
  destruct HC as [HC0 [HC1 HCr]], HR as [HR0 [HR1 HRr]].
  destruct HCC as [HCC0 [HCC1 HCCr]], HCR as [HCR0 [HCR1 HCRr]].
  exists flipped_rels. unfold shape0 in HCC0, HCR0.
  rewrite HCr in HCC0. rewrite HRr in HCR0.
  repeat split; trivial; congruence.
Qed.

(** X20. The candidates that [generate_unreliable_challenges_for_lower_puf]
    returns are challenges of the training set it drew, with the bits they
    have there and each with its own responses, and all of them are
    unreliable as measured: the challenges with flipped middle bits serve
    the selection only. *)
Theorem generate_unreliable_selects (n reps : Z) (ts : TrainingSet)
  (ipuf_eval : nat -> ndarray2 Z -> list Z) (chals resps : ndarray2 Z) :
  generate_unreliable_challenges_for_lower_puf n reps ts ipuf_eval
  = Some (chals, resps) ->
  exists keep : list bool,
    length keep = shape0 (challenges ts) /\
    length keep = shape0 (responses ts) /\
    rows chals = select (rows (challenges ts)) keep /\
    rows resps = select (rows (responses ts)) keep /\
    shape1 chals = shape1 (challenges ts) /\
    shape1 resps = shape1 (responses ts) /\
    shape0 chals = shape0 resps /\
    Forall2 (fun kept unreliable => kept = true -> unreliable = true)
            keep (isUnreliable (map2d to_int8 (responses ts))).
Proof.
  intros Hgen.
  destruct (generate_unreliable_masks _ _ _ _ _ _ Hgen)
    as [flipped_rels [HC0 [HR0 [HfC [HfR [HCr [HRr [HC1 HR1]]]]]]]].
  set (unrels := isUnreliable (map2d to_int8 (responses ts))) in *.
  exists (compose_mask unrels flipped_rels).
  rewrite length_compose_mask.
  repeat split; trivial.
  - rewrite HCr. apply select_compose.
  - rewrite HRr. apply select_compose.
  - unfold shape0. rewrite HCr, HRr, !length_select; trivial.
  - apply compose_mask_below.
Qed.

End Candidates.

Lemma generate_unreliable_selects_witness :
  exists keep : list bool,
    length keep = shape0 (challenges example_batch) /\
    length keep = shape0 (responses example_batch) /\
    [[1; -1]]%Z = select (rows (challenges example_batch)) keep /\
    [[1; -1; 1; -1]]%Z = select (rows (responses example_batch)) keep /\
    2 = shape1 (challenges example_batch) /\
    4 = shape1 (responses example_batch) /\
    1 = 1 /\
    Forall2 (fun kept unreliable => kept = true -> unreliable = true)
            keep
            (isUnreliable (F := float)
                          (map2d to_int8 (responses example_batch))).
Proof.
  exact (generate_unreliable_selects (F := float) 2 4 example_batch
           example_ipuf_eval
           {| shape1 := 2; rows := [[1; -1]]%Z |}
           {| shape1 := 4; rows := [[1; -1; 1; -1]]%Z |} eq_refl).
Defined.

Section CandidatesDefined.
Context {F : Type} `{Float64 F}.
Variable ipuf_eval : nat -> ndarray2 Z -> list Z.

Lemma negate_column_defined (M : ndarray2 Z) (j : Z) :
  (- Z.of_nat (shape1 M) <= j < Z.of_nat (shape1 M))%Z ->
  exists M' : ndarray2 Z,
    negate_column M j = Some M' /\ shape1 M' = shape1 M /\
    shape0 M' = shape0 M.
Proof.
  intros Hj. unfold negate_column.
  replace ((j <? - Z.of_nat (shape1 M)) || (Z.of_nat (shape1 M) <=? j))%Z
    with false by (symmetry; apply orb_false_iff; split;
                   [apply Z.ltb_ge | apply Z.leb_gt]; lia).
  eexists. split; [reflexivity |]. split; [reflexivity |].
  unfold shape0. cbn [rows]. apply length_map.
Qed.

Lemma set_column_inv {A} (M M' : ndarray2 A) (i : nat) (v : list A) :
  set_column M i v = Some M' -> i < shape1 M /\ shape1 M' = shape1 M.
Proof.
  unfold set_column.
  destruct (Nat.leb_spec (shape1 M) i) as [Hle | Hlt]; [discriminate |].
  destruct (Nat.eqb (length v) (shape0 M)).
  - intros [= <-]. now split.
  - destruct v as [| x [| y v]]; try discriminate.
    intros [= <-]. now split.
Qed.

Lemma set_column_defined {A} (M : ndarray2 A) (i : nat) (v : list A) :
  i < shape1 M -> length v = shape0 M ->
  exists M' : ndarray2 A,
    set_column M i v = Some M' /\ shape1 M' = shape1 M /\
    shape0 M' = shape0 M.
Proof.
  intros Hi Hv. unfold set_column.
  replace (shape1 M <=? i) with false by (symmetry; apply Nat.leb_gt; lia).
  rewrite Hv, Nat.eqb_refl.
  eexists. split; [reflexivity |]. split; [reflexivity |].
  unfold shape0, zip_with. cbn [rows].
  rewrite length_map, length_combine, Hv. unfold shape0. lia.
Qed.

(** The loop over the repetitions *)
Lemma fill_columns_defined (C : ndarray2 Z) (l : list nat) :
  forall M : ndarray2 Z,
    Forall (fun i => i < shape1 M) l ->
    (forall i, length (ipuf_eval i C) = shape0 M) ->
    exists M' : ndarray2 Z,
      fold_left (fun acc i =>
                   flipped_resps <- acc ;;
                   set_column flipped_resps i (ipuf_eval i C))
                l (Some M) = Some M' /\
      shape1 M' = shape1 M /\ shape0 M' = shape0 M.
Proof.
  induction l as [| i l IH]; intros M Hl Hev; cbn [fold_left].
  - now exists M.
  - inversion Hl as [| i' l' Hi Hl']. subst.
    destruct (set_column_defined M i (ipuf_eval i C) Hi (Hev i))
      as [M1 [H1 [Hs1 Hs0]]].
    cbn [bind]. rewrite H1.
    destruct (IH M1) as [M' [HM' [Hs1' Hs0']]].
    + now rewrite Hs1.
    + intros i'. now rewrite Hs0.
    + exists M'. split; [exact HM' |]. split; congruence.
Qed.

Lemma fill_columns_raised (C : ndarray2 Z) (l : list nat) :
  fold_left (fun acc i =>
               flipped_resps <- acc ;;
               set_column flipped_resps i (ipuf_eval i C))
            l None = None.
Proof. induction l as [| i l IH]; cbn [fold_left bind]; trivial. Qed.

Lemma fill_columns_inv (C : ndarray2 Z) (l : list nat) :
  forall M M' : ndarray2 Z,
    fold_left (fun acc i =>
                 flipped_resps <- acc ;;
                 set_column flipped_resps i (ipuf_eval i C))
              l (Some M) = Some M' ->
    Forall (fun i => i < shape1 M) l.
Proof.
  induction l as [| i l IH]; intros M M'; cbn [fold_left bind];
    [constructor |].
  destruct (set_column M i (ipuf_eval i C)) as [M1 |] eqn:H1.
  - intros Hf. destruct (set_column_inv M M1 i _ H1) as [Hi Hs].
    constructor; [exact Hi |]. rewrite <- Hs. now apply IH with M'.
  - now rewrite fill_columns_raised.
Qed.

Lemma generate_unreliable_defined (n reps : Z) (ts : TrainingSet) :
  shape0 (challenges ts) = shape0 (responses ts) ->
  (1 <= n)%Z -> shape1 (challenges ts) = Z.to_nat n ->
  (reps <= Z.of_nat (shape1 (responses ts)))%Z ->
  (forall i C, length (ipuf_eval i C) = shape0 C) ->
  generate_unreliable_challenges_for_lower_puf n reps ts ipuf_eval
  <> None.
Proof.
  unfold generate_unreliable_challenges_for_lower_puf.
  set (unrels := isUnreliable (map2d to_int8 (responses ts))).
  assert (Hlen : length unrels = shape0 (responses ts)).
  { unfold unrels, isUnreliable, map2d, shape0. cbn [rows].
    now rewrite !length_map. }
  intros Hs0 Hn HsC Hreps Hev.
  rewrite (mask_rows_defined (challenges ts) unrels) by congruence.
  rewrite (mask_rows_defined (responses ts) unrels) by congruence.
  rewrite (mask_rows_defined (map2d to_int8 (responses ts)) unrels)
    by (rewrite Hlen; unfold shape0, map2d; cbn [rows];
        now rewrite length_map).
  cbn [bind].
  destruct (negate_column_defined
              {| shape1 := shape1 (challenges ts);
                 rows := select (rows (challenges ts)) unrels |}
              (n / 2 - 1)) as [f1 [Hf1 [Hf1s Hf1r]]].
  { cbn [shape1]. rewrite HsC, Z2Nat.id by lia.
    assert (0 <= n / 2 < n)%Z; [| lia].
    split; [apply Z.div_pos; lia | apply Z.div_lt_upper_bound; lia]. }
  rewrite Hf1. cbn [bind].
  destruct (negate_column_defined f1 (n / 2)) as [f2 [Hf2 [Hf2s Hf2r]]].
  { rewrite Hf1s. cbn [shape1]. rewrite HsC, Z2Nat.id by lia.
    assert (0 <= n / 2 < n)%Z; [| lia].
    split; [apply Z.div_pos; lia | apply Z.div_lt_upper_bound; lia]. }
  rewrite Hf2. cbn [bind].
  set (zeros := {| shape1 := _; rows := repeat _ _ |}).
  assert (Hsel : length (select (rows (challenges ts)) unrels)
                 = length (select (rows (map2d to_int8 (responses ts)))
                                  unrels)).
  { unfold shape0 in Hs0, Hlen.
    rewrite !length_select; trivial; cbn [map2d rows];
      rewrite ?length_map; congruence. }
  assert (Hsel' : length (select (rows (challenges ts)) unrels)
                  = length (select (rows (responses ts)) unrels)).
  { unfold shape0 in Hs0, Hlen. rewrite !length_select; congruence. }
  assert (Hz0 : shape0 zeros
                = length (select (rows (challenges ts)) unrels)).
  { unfold zeros, shape0. cbn [rows]. now rewrite repeat_length. }
  destruct (fill_columns_defined f2 (seq 0 (Z.to_nat reps)) zeros)
    as [flipped_resps [Hfold [Hfs1 Hfs0]]].
  { apply Forall_forall. intros i Hi. apply in_seq in Hi.
    unfold zeros. cbn [shape1 map2d]. lia. }
  { intros i. rewrite Hev, Hf2r, Hf1r, Hz0. reflexivity. }
  rewrite Hfold. cbn [bind].
  assert (Hfl : length (map negb (isUnreliable flipped_resps))
                = length (select (rows (challenges ts)) unrels)).
  { unfold isUnreliable. rewrite !length_map. fold (shape0 flipped_resps).
    now rewrite Hfs0. }
  rewrite !mask_rows_defined; [discriminate | |].
  + unfold shape0. cbn [rows]. now rewrite Hfl.
  + unfold shape0. cbn [rows]. exact Hfl.
Qed.

(** X21. [generate_unreliable_challenges_for_lower_puf] raises nothing on a
    training set with as many challenges as rows of responses and [n >= 1]
    bits per challenge, when no more repetitions are asked for than were
    measured and the PUF answers each challenge.  With more repetitions
    than measurements it always raises. *)
Theorem generate_unreliable_raises (n reps : Z) (ts : TrainingSet) :
  ((Z.of_nat (shape1 (responses ts)) < reps)%Z ->
   generate_unreliable_challenges_for_lower_puf n reps ts ipuf_eval
   = None) /\
  (shape0 (challenges ts) = shape0 (responses ts) ->
   (1 <= n)%Z -> shape1 (challenges ts) = Z.to_nat n ->
   (reps <= Z.of_nat (shape1 (responses ts)))%Z ->
   (forall i C, length (ipuf_eval i C) = shape0 C) ->
   generate_unreliable_challenges_for_lower_puf n reps ts ipuf_eval
   <> None).
Proof.
  split; [| apply generate_unreliable_defined].
  unfold generate_unreliable_challenges_for_lower_puf.
  set (unrels := isUnreliable (map2d to_int8 (responses ts))).
  intros Hreps.
  destruct (mask_rows (challenges ts) unrels) as [unrel_chals |];
    cbn [bind]; trivial.
  destruct (mask_rows (responses ts) unrels) as [unrel_resps |];
    cbn [bind]; trivial.
  destruct (negate_column unrel_chals _) as [f1 |]; cbn [bind]; trivial.
  destruct (negate_column f1 _) as [f2 |]; cbn [bind]; trivial.
  destruct (mask_rows (map2d to_int8 (responses ts)) unrels)
    as [selected |] eqn:HS; cbn [bind]; trivial.
  destruct (fold_left _ _ _) as [flipped_resps |] eqn:Hfold;
    cbn [bind]; trivial.
  exfalso. apply fill_columns_inv in Hfold. cbn [shape1] in Hfold.
  apply mask_rows_inv in HS. destruct HS as [_ [HS1 _]].
  rewrite HS1 in Hfold. cbn [map2d shape1] in Hfold.
  rewrite Forall_forall in Hfold.
  specialize (Hfold (shape1 (responses ts))).
  assert (Hin : In (shape1 (responses ts)) (seq 0 (Z.to_nat reps)))
    by (apply in_seq; lia).
  specialize (Hfold Hin). lia.
Qed.

End CandidatesDefined.

Lemma generate_unreliable_raises_witness :
  generate_unreliable_challenges_for_lower_puf (F := float) 2 5
    example_batch example_ipuf_eval = None /\
  generate_unreliable_challenges_for_lower_puf (F := float) 2 4
    example_batch example_ipuf_eval <> None.
Proof.
  split.
  - apply (proj1 (generate_unreliable_raises (F := float)
                    example_ipuf_eval 2 5 example_batch)).
    cbn. lia.
  - apply (proj2 (generate_unreliable_raises (F := float)
                    example_ipuf_eval 2 4 example_batch));
      try reflexivity; try (cbn; lia).
    intros i C. apply length_map.
Defined.

(** ** The experiment: the training set of the learner *)


Section RunTrainingSet.
Context {F : Type} `{Float64 F}.

Lemma generate_unreliable_shapes (n reps : Z) (ts : TrainingSet)
  (ipuf_eval : nat -> ndarray2 Z -> list Z) (chals resps : ndarray2 Z) :
  generate_unreliable_challenges_for_lower_puf n reps ts ipuf_eval
  = Some (chals, resps) ->
  shape0 chals = shape0 resps /\
  shape1 chals = shape1 (challenges ts) /\
  shape1 resps = shape1 (responses ts).
Proof.
  unfold generate_unreliable_challenges_for_lower_puf.
  set (unrels := isUnreliable (map2d to_int8 (responses ts))).
  destruct (mask_rows (challenges ts) unrels) as [unrel_chals |] eqn:HC;
    cbn [bind]; [| discriminate].
  destruct (mask_rows (responses ts) unrels) as [unrel_resps |] eqn:HR;
    cbn [bind]; [| discriminate].
  destruct (negate_column unrel_chals _) as [f1 |]; cbn [bind];
    [| discriminate].
  destruct (negate_column f1 _) as [f2 |]; cbn [bind]; [| discriminate].
  destruct (mask_rows (map2d to_int8 (responses ts)) unrels)
    as [selected |]; cbn [bind]; [| discriminate].
  destruct (fold_left _ _ _) as [flipped_resps |]; cbn [bind];
    [| discriminate].
  set (flipped_rels := map negb (isUnreliable flipped_resps)).
  destruct (mask_rows unrel_chals flipped_rels) as [cc |] eqn:HCC;
    cbn [bind]; [| discriminate].
  destruct (mask_rows unrel_resps flipped_rels) as [cr |] eqn:HCR;
    cbn [bind]; [| discriminate].
  intros [= <- <-].
  apply mask_rows_inv in HC, HR, HCC, HCR.
  destruct HC as [_ [HC1 _]], HR as [_ [HR1 _]].
  destruct HCC as [HCC0 [HCC1 HCCr]], HCR as [HCR0 [HCR1 HCRr]].
  repeat split; try congruence.
  unfold shape0. rewrite HCCr, HCRr, !length_select; trivial.
Qed.


End RunTrainingSet.


Section RunReturns.
Context {F : Type} `{Float64 F}.
Variables cC cR : nat.
Variable ipuf_eval : nat -> ndarray2 Z -> list Z.

(** X23. When all training sets drawn have one shape, with [n >= 1] bits
    per challenge and at least [reps] measurements, when the PUF answers
    each challenge and the interpose position lies within a challenge,
    building the training set in [run] raises nothing: the candidates are
    found, and the training set is returned as soon as the further
    training sets hold more than four reliable challenges for each
    candidate. *)
Theorem run_training_set_returns (n reps interpose_pos : Z)
  (ts : TrainingSet) (batches : list TrainingSet) :
  consistent cC cR ts ->
  Forall (consistent cC cR) batches ->
  (1 <= n)%Z -> cC = Z.to_nat n -> (reps <= Z.of_nat cR)%Z ->
  (forall i C, length (ipuf_eval i C) = shape0 C) ->
  (- Z.of_nat cC <= interpose_pos <= Z.of_nat cC)%Z ->
  exists unrel_chals unrel_resps : ndarray2 Z,
    generate_unreliable_challenges_for_lower_puf n reps ts ipuf_eval
    = Some (unrel_chals, unrel_resps) /\
    if 4 * shape0 unrel_chals
       <? length (flat_map reliable_chals batches)
    then exists T : TrainingSet,
        run_training_set n reps interpose_pos ts ipuf_eval batches
        = Some (Some T)
    else run_training_set n reps interpose_pos ts ipuf_eval batches
         = Some None.
Proof.
  intros [Hs0 [HsC HsR]] Hb Hn HcC Hreps Hev Hpos.
  unfold run_training_set.
  destruct (generate_unreliable_challenges_for_lower_puf n reps ts ipuf_eval)
    as [[uc ur] |] eqn:HU.
  2:{ exfalso. revert HU.
      apply generate_unreliable_defined; trivial; congruence. }
  exists uc, ur. split; [reflexivity |]. cbn [bind fst snd].
  destruct (generate_unreliable_shapes _ _ _ _ _ _ HU) as [Hu0 [Hu1 Hu1']].
  unfold generate_reliable_challenges_for_IPUF.
  destruct (reliable_loop_consistent cC cR (Z.of_nat (shape0 uc) * 4)
              batches ltac:(lia) Hb [] _
              (reliable_inv_start (Z.of_nat (shape0 uc) * 4)))
    as [r [Hloop Hr]]; [discriminate |].
  rewrite Hloop. cbn [bind app] in *.
  destruct r as [st |]; cbn [option_map].
  - destruct Hr as [Hlt [Hc Hrs]]. rewrite Hc, Hrs.
    replace (4 * shape0 uc <? length (flat_map reliable_chals batches))
      with true by (symmetry; apply Nat.ltb_lt; lia).
    cbn [bind]. unfold vstack at 1. cbn [shape1 rows].
    replace (shape1 uc =? cC) with true
      by (symmetry; apply Nat.eqb_eq; congruence).
    cbn [bind]. unfold vstack at 1. cbn [shape1 rows].
    replace (shape1 ur =? cR) with true
      by (symmetry; apply Nat.eqb_eq; congruence).
    cbn [bind]. unfold np_insert. cbn [shape1 rows].
    replace ((interpose_pos <? - Z.of_nat (shape1 uc))
             || (Z.of_nat (shape1 uc) <? interpose_pos))%Z with false
      by (symmetry; apply orb_false_iff; split;
          [apply Z.ltb_ge | apply Z.ltb_ge];
          replace (shape1 uc) with cC by congruence; lia).
    cbn [bind]. unfold vstack. cbn [shape1 rows].
    rewrite !Nat.eqb_refl. cbn [bind]. eexists. reflexivity.
  - replace (4 * shape0 uc <? length (flat_map reliable_chals batches))
      with false by (symmetry; apply Nat.ltb_ge; lia).
    reflexivity.
Qed.

End RunReturns.

Lemma run_training_set_returns_witness :
  exists unrel_chals unrel_resps : ndarray2 Z,
    generate_unreliable_challenges_for_lower_puf (F := float) 2 4
      example_batch example_ipuf_eval
    = Some (unrel_chals, unrel_resps) /\
    if 4 * shape0 unrel_chals
       <? length (flat_map (reliable_chals (F := float))
                           [example_batch; example_batch])
    then exists T : TrainingSet,
        run_training_set (F := float) 2 4 1 example_batch example_ipuf_eval
                         [example_batch; example_batch]
        = Some (Some T)
    else run_training_set (F := float) 2 4 1 example_batch example_ipuf_eval
                          [example_batch; example_batch]
         = Some None.
Proof.
  apply (run_training_set_returns (F := float) 2 4 example_ipuf_eval
           2 4 1 example_batch [example_batch; example_batch]).
  - repeat constructor.
  - repeat constructor.
  - lia.
  - reflexivity.
  - cbn. lia.
  - intros i C. apply length_map.
  - cbn. lia.
Defined.

(** ** The experiment on responses in {0,1} *)

(** X24. On well-formed responses in {0,1} the experiment calls a challenge
    unreliable exactly when fewer than half of its measurements are 1: a
    challenge that is always answered with 0 counts as unreliable there,
    while the learner gives it the largest reliability, [m/2]. *)
Theorem isUnreliable_01 (M : ndarray2 Z) :
  wf M -> encoded_01 M ->
  isUnreliable (F := inum) M
  = map (fun row => 2 * occurrences 1 row <? shape1 M) (rows M) /\
  forall (i : nat) (row : list Z),
    nth_error (rows M) i = Some row ->
    occurrences 1 row = 0 -> 0 < shape1 M ->
    nth_error (isUnreliable (F := inum) M) i = Some true /\
    nth_error (reliabilities_PUF (F := inum) M) i
    = Some (Fin (INR (shape1 M) / 2)).
Proof.
  intros Hwf HM.
  assert (Hun : isUnreliable (F := inum) M
                = map (fun row => 2 * occurrences 1 row <? shape1 M)
                      (rows M)).
  { unfold isUnreliable. apply map_ext_in. intros row Hrow.
    unfold encoded_01 in HM. rewrite Forall_forall in HM.
    unfold wf in Hwf. rewrite Forall_forall in Hwf.
    specialize (HM row Hrow). specialize (Hwf row Hrow).
    destruct (zsum_01 HM) as [Hs Hl]. rewrite Hwf in Hl.
    rewrite reduce_sum_of_Z, Hs.
    set (p := occurrences 1 row) in *.
    cbn [fltb fabs fdiv of_Z f_half inum_float64].
    rewrite <- !INR_IZR_INZ.
    assert (Hp := pos_INR p).
    destruct (Nat.eq_dec (shape1 M) 0) as [E | E].
    - rewrite E in *. replace p with 0 by lia. cbn [INR].
      rewrite idiv_zero_zero. reflexivity.
    - assert (Hm : (0 < INR (shape1 M))%R) by (apply lt_0_INR; lia).
      rewrite idiv_Fin by lra. cbn [iabs iltb].
      rewrite Rabs_pos_eq
        by (apply Rmult_le_pos; [exact Hp | left; now apply Rinv_0_lt_compat]).
      destruct (Nat.ltb_spec (2 * p) (shape1 M)) as [Hlt | Hge];
        destruct (Rlt_dec (INR p / INR (shape1 M)) (1 / 2)) as [Hr | Hr];
        trivial; exfalso.
      + apply Hr. apply lt_INR in Hlt. rewrite mult_INR in Hlt.
        cbn [INR] in Hlt.
        apply (Rmult_lt_reg_r (INR (shape1 M))); [exact Hm |].
        unfold Rdiv. rewrite Rmult_assoc, Rinv_l by lra. lra.
      + apply le_INR in Hge. rewrite mult_INR in Hge. cbn [INR] in Hge.
        apply (Rmult_lt_compat_r (INR (shape1 M))) in Hr; [| exact Hm].
        unfold Rdiv in Hr. rewrite Rmult_assoc, Rinv_l in Hr by lra. lra. }
  split; [exact Hun |].
  intros i row Hi Hp Hm. split.
  - rewrite Hun, nth_error_map, Hi. cbn [option_map]. f_equal.
    apply Nat.ltb_lt. lia.
  - rewrite (@reliabilities_PUF_01 M HM), nth_error_map, Hi.
    cbn [option_map]. f_equal. f_equal. rewrite Hp. unfold deviation.
    cbn [INR]. rewrite Rminus_0_r. apply Rabs_pos_eq.
    assert (H0 := pos_INR (shape1 M)). lra.
Qed.

Lemma isUnreliable_01_witness :
  isUnreliable (F := inum) example_bits01
  = map (fun row => 2 * occurrences 1 row <? shape1 example_bits01)
        (rows example_bits01) /\
  forall (i : nat) (row : list Z),
    nth_error (rows example_bits01) i = Some row ->
    occurrences 1 row = 0 -> 0 < shape1 example_bits01 ->
    nth_error (isUnreliable (F := inum) example_bits01) i = Some true /\
    nth_error (reliabilities_PUF (F := inum) example_bits01) i
    = Some (Fin (INR (shape1 example_bits01) / 2)).
Proof.
  apply isUnreliable_01.
  - repeat constructor.
  - unfold encoded_01. cbn [rows example_bits01].
    repeat first [apply Forall_nil | apply Forall_cons
                 | left; reflexivity | right; reflexivity].
Defined.

(** ** The pool check on constant and on repeated chains *)

Section PoolEdges.
Local Open Scope R_scope.

Lemma pearson_coefficient_Fin (x y : list R) :
  x <> [] -> y <> [] ->
  pearson_coefficient (map Fin x) (map Fin y)
  = idiv (Fin (covariation x y))
         (Fin (R_sqrt.sqrt (variation x * variation y))).
Proof.
  intros Hx Hy. unfold pearson_coefficient.
  rewrite (centered_Fin x Hx), (centered_Fin y Hy), dot_Fin, !squares_Fin.
  change (@fdiv inum _) with idiv. change (@fsqrt inum _) with isqrt.
  change (fmul (Fin (sum_squares (centered x)))
               (Fin (sum_squares (centered y))))
    with (Fin (variation x * variation y)).
  rewrite isqrt_Fin; [reflexivity |].
  apply Rmult_le_pos; apply variation_nonneg.
Qed.

Lemma covariation_self (x : list R) : covariation x x = variation x.
Proof.
  unfold covariation, variation, sum_squares, zip_with. f_equal.
  induction (centered x) as [| a l IH]; [reflexivity |].
  cbn [combine map fst snd]. now rewrite IH.
Qed.

Lemma nonempty_length {A} (l : list A) : (2 <= length l)%nat -> l <> [].
Proof. intros Hl ->. simpl in Hl. lia. Qed.

Lemma pearsonr_Fin (w v : list R) :
  (2 <= length w)%nat -> length v = length w ->
  pearsonr (map Fin w) (map Fin v)
  = Some (idiv (Fin (covariation w v))
               (Fin (R_sqrt.sqrt (variation w * variation v)))).
Proof.
  intros Hw Hv. unfold pearsonr. rewrite !length_map, Hv, Nat.eqb_refl.
  cbn [negb].
  replace (length w <? 2)%nat with false
    by (symmetry; apply Nat.ltb_ge; lia).
  f_equal. apply pearson_coefficient_Fin; apply nonempty_length; lia.
Qed.

(** X25. The pool check on chains of finite weights of one length, at
    least 2.  A constant chain is never found correlated, whatever the pool
    holds: its coefficients are NaN, and [abs(NaN) > 0.5] is false.  A
    chain that is not constant and already in the pool is always found
    correlated.  So [learn] accepts a constant chain even when the pool
    holds it already, and never a second copy of another chain. *)
Theorem correlated_to_pool_edges (w : list R) (chains : list (list R)) :
  (2 <= length w)%nat ->
  Forall (fun v => length v = length w) chains ->
  (variation w = 0 ->
   correlated_to_pool (map Fin w) (map (map Fin) chains) = Some false) /\
  (variation w <> 0 -> In w chains ->
   correlated_to_pool (map Fin w) (map (map Fin) chains) = Some true).
Proof.
  intros Hw Hchains. split.
  - intros Hvar.
    induction Hchains as [| v chains Hv _ IH];
      cbn [map correlated_to_pool]; [reflexivity |].
    rewrite (pearsonr_Fin w v Hw Hv). cbn [bind].
    rewrite (covariation_zero_l w v Hvar), Hvar, Rmult_0_l, sqrt_0,
      idiv_zero_zero.
    exact IH.
  - intros Hvar Hin.
    induction Hchains as [| v chains Hv _ IH]; [contradiction |].
    cbn [map correlated_to_pool].
    rewrite (pearsonr_Fin w v Hw Hv). cbn [bind].
    destruct (fgtb _ f_half) eqn:Hgt; [reflexivity |].
    destruct Hin as [-> | Hin]; [| now apply IH].
    exfalso. revert Hgt.
    rewrite covariation_self.
    pose proof (variation_nonneg w) as Hnn.
    rewrite (sqrt_unique (variation w * variation w) (variation w) Hnn
                         eq_refl).
    rewrite idiv_Fin by exact Hvar.
    unfold fgtb. cbn [fabs fltb f_half inum_float64 iabs].
    replace (variation w / variation w) with 1 by (field; exact Hvar).
    rewrite Rabs_R1, iltb_Fin_true by lra. discriminate.
Qed.

End PoolEdges.

Lemma correlated_to_pool_edges_witness :
  correlated_to_pool (map Fin [1; 1; 1]%R)
                     (map (map Fin) [[1; 1; 1]; [1; 2; 3]]%R)
  = Some false.
Proof.
  apply (proj1 (correlated_to_pool_edges [1; 1; 1]%R
                  [[1; 1; 1]; [1; 2; 3]]%R
                  ltac:(simpl; lia) ltac:(repeat constructor))).
  apply variation_constant. intros a b Ha Hb.
  simpl in Ha, Hb. intuition congruence.
Defined.

(** ** The experiment: what the learner is given *)

Lemma Forall_select {A} (P : A -> Prop) (l : list A) (mask : list bool) :
  Forall P l -> Forall P (select l mask).
Proof.
  intros Hl. revert mask.
  induction Hl as [| x l Hx _ IH]; intros [| [|] mask]; cbn [select];
    try constructor; auto.
Qed.

Lemma select_map_true {A} (g : A -> bool) (l : list A) :
  Forall (fun x => g x = true) (select l (map g l)).
Proof.
  induction l as [| x l IH]; cbn [map select]; [constructor |].
  destruct (g x) eqn:E; [constructor |]; assumption.
Qed.

Lemma select_map_false {A} (g : A -> bool) (l : list A) :
  Forall (fun x => g x = false) (select l (map negb (map g l))).
Proof.
  induction l as [| x l IH]; cbn [map select]; [constructor |].
  destruct (g x) eqn:E; cbn [negb]; [| constructor]; assumption.
Qed.

Lemma Forall_take {A} (P : A -> Prop) (n : nat) (l : list A) :
  Forall P l -> Forall P (firstn n l).
Proof.
  intros Hl. revert n.
  induction Hl as [| x l Hx _ IH]; intros [| n]; cbn [firstn];
    constructor; auto.
Qed.

Lemma map_constant {A B} (g : A -> B) (b : B) (l : list A) :
  Forall (fun x => g x = b) l -> map g l = repeat b (length l).
Proof.
  induction 1 as [| x l Hx _ IH]; cbn [map length repeat]; congruence.
Qed.

Section TrainingSetMix.
Context {F : Type} `{Float64 F}.

Lemma isUnreliable_measured (M : ndarray2 Z) :
  isUnreliable (map2d to_int8 M)
  = map (measured_unreliable (shape1 M)) (rows M).
Proof.
  unfold isUnreliable, map2d. cbn [rows shape1]. now rewrite map_map.
Qed.

(** The responses of the training set that [run] builds *)
Lemma run_training_set_responses (n reps interpose_pos : Z)
  (ts : TrainingSet) (ipuf_eval : nat -> ndarray2 Z -> list Z)
  (batches : list TrainingSet) (T : TrainingSet) :
  run_training_set n reps interpose_pos ts ipuf_eval batches
  = Some (Some T) ->
  exists unrel_chals unrel_resps : ndarray2 Z,
    generate_unreliable_challenges_for_lower_puf n reps ts ipuf_eval
    = Some (unrel_chals, unrel_resps) /\
    let R := rows unrel_resps
             ++ firstn (4 * shape0 unrel_chals)
                       (flat_map reliable_resps batches) in
    rows (responses T) = R ++ R /\
    length R = 5 * shape0 unrel_chals /\
    shape1 (responses T) = shape1 unrel_resps.
Proof.
  unfold run_training_set.
  destruct (generate_unreliable_challenges_for_lower_puf _ _ _ _)
    as [[uc ur] |] eqn:HU; cbn [bind fst snd]; [| discriminate].
  destruct (generate_reliable_challenges_for_IPUF _ batches)
    as [[[rc rr] |] |] eqn:HG; cbn [bind]; try discriminate.
  destruct (generate_reliable_inv _ _ _ _ HG ltac:(lia))
    as [_ [c [r [-> [-> [_ [Hr [_ Hr0]]]]]]]].
  cbn [bind].
  destruct (vstack uc c) as [tc |]; cbn [bind]; [| discriminate].
  destruct (vstack ur r) as [tr |] eqn:Htr; cbn [bind]; [| discriminate].
  destruct (np_insert tc interpose_pos 1%Z) as [tc1 |]; cbn [bind];
    [| discriminate].
  destruct (np_insert tc interpose_pos (-1)%Z) as [tc2 |]; cbn [bind];
    [| discriminate].
  destruct (vstack tc1 tc2) as [tcc |]; cbn [bind]; [| discriminate].
  destruct (vstack tr tr) as [trr |] eqn:Htrr; cbn [bind]; [| discriminate].
  intros [= <-]. cbn [responses].
  destruct (generate_unreliable_shapes _ _ _ _ _ _ HU) as [Hu0 _].
  apply vstack_inv in Htr, Htrr.
  destruct Htr as [_ [Htr1 Htr2]], Htrr as [_ [Htrr1 Htrr2]].
  rewrite Z2Nat.inj_mul, Nat2Z.id in Hr, Hr0 by lia.
  change (Z.to_nat 4) with 4 in *.
  rewrite (Nat.mul_comm (shape0 uc) 4) in Hr, Hr0.
  exists uc, ur. split; [reflexivity |]. cbv zeta.
  rewrite <- Hr, <- Htr2. repeat split.
  - exact Htrr2.
  - rewrite Htr2, length_app. unfold shape0 in *. lia.
  - congruence.
Qed.

(** X26. When the training sets drawn all have the same number of
    measurements, the training set that [run] builds for [U] candidates
    holds, by the criterion of the experiment itself, [U] unreliable
    challenges followed by [4 U] reliable ones, twice: one challenge in
    five is unreliable. *)
Theorem run_training_set_mix (n reps interpose_pos : Z)
  (ts : TrainingSet) (ipuf_eval : nat -> ndarray2 Z -> list Z)
  (batches : list TrainingSet) (T : TrainingSet) :
  Forall (fun b => shape1 (responses b) = shape1 (responses ts)) batches ->
  run_training_set n reps interpose_pos ts ipuf_eval batches
  = Some (Some T) ->
  exists unrel_chals unrel_resps : ndarray2 Z,
    generate_unreliable_challenges_for_lower_puf n reps ts ipuf_eval
    = Some (unrel_chals, unrel_resps) /\
    let U := shape0 unrel_chals in
    isUnreliable (map2d to_int8 (responses T))
    = (repeat true U ++ repeat false (4 * U))
      ++ (repeat true U ++ repeat false (4 * U)).
Proof.
  intros Hb Hrun.
  destruct (run_training_set_responses _ _ _ _ _ _ _ Hrun)
    as [uc [ur [HU [HR [HlR Hs1]]]]].
  exists uc, ur. split; [exact HU |]. cbv zeta in *.
  destruct (generate_unreliable_masks _ _ _ _ _ _ HU)
    as [flipped_rels [_ [_ [_ [_ [_ [Hur [_ Hur1]]]]]]]].
  destruct (generate_unreliable_shapes _ _ _ _ _ _ HU) as [Hu0 _].
  set (m := shape1 (responses ts)) in *.
  assert (Hlow : Forall (fun r => measured_unreliable m r = true)
                        (rows ur)).
  { rewrite Hur, isUnreliable_measured. apply Forall_select.
    apply select_map_true. }
  assert (Hhigh : Forall (fun r => measured_unreliable m r = false)
                         (firstn (4 * shape0 uc)
                                 (flat_map reliable_resps batches))).
  { apply Forall_take. apply Forall_flat_map.
    eapply Forall_impl; [| exact Hb]. intros b Hbm.
    unfold reliable_resps, reliable_mask.
    rewrite isUnreliable_measured, Hbm. apply select_map_false. }
  assert (Hlh : length (firstn (4 * shape0 uc)
                               (flat_map reliable_resps batches))
                = 4 * shape0 uc).
  { rewrite length_app in HlR. unfold shape0 in *. lia. }
  rewrite isUnreliable_measured, HR, Hs1, Hur1. fold m.
  rewrite !map_app, (map_constant _ true _ Hlow),
    (map_constant _ false _ Hhigh), Hlh.
  unfold shape0 in *. now rewrite <- Hu0.
Qed.

End TrainingSetMix.

Lemma run_training_set_mix_witness :
  exists unrel_chals unrel_resps : ndarray2 Z,
    generate_unreliable_challenges_for_lower_puf (F := float) 2 4
      example_batch example_ipuf_eval
    = Some (unrel_chals, unrel_resps) /\
    let U := shape0 unrel_chals in
    isUnreliable (F := float) (map2d to_int8 (responses example_run_set))
    = (repeat true U ++ repeat false (4 * U))
      ++ (repeat true U ++ repeat false (4 * U)).
Proof.
  apply (run_training_set_mix (F := float) 2 4 1 example_batch
           example_ipuf_eval [example_batch; example_batch; example_batch]
           example_run_set).
  - repeat constructor.
  - reflexivity.
Defined.
